(** * Bubble-based answer extraction (analyzeOmrImage)

    A shallow embedding of [analyzeOmrImage] from
    [src/components/UploadInterface.tsx] and of the five stages it runs in
    sequence: image normalisation, candidate extraction, fill classification,
    row clustering and answer selection.

    Conventions of the embedding.
    - A JavaScript [number] is a rational ([Q]).  Every division of the
      source is either guarded ([perim > 0 ? ... : 0], [totalMask > 0 ? ... : 0])
      or has a divisor that is shown non-zero below (a row length, a group
      length), so neither [NaN] nor [Infinity] is produced.
    - Fill ratios are doubles: the quotient that classifies a bubble, the
      sums and quotients that merge the fill ratios of a group and the
      default threshold [0.35] are rounded to the nearest double ([double]:
      53 significant bits, ties to even; the exponent range is not modelled,
      the ratios being quotients and short sums of pixel counts, far from
      overflow and underflow).  Geometry is exact: areas, perimeters, centers, radii,
      distances and the means of centers and radii are not rounded, their
      decimal literals are the exact decimals, and [Math.PI] is the rational
      value of the double the engine uses.
    - [expectedOptions] is any number the caller passes, whole or not,
      negative or not; array indices and lengths are naturals, and
      [Math.floor] is the integer part.
    - [Math.hypot dx dy < t] is decided on squares: for reals it holds exactly
      when [0 < t] and [dx*dx + dy*dy < t*t].
    - [Array.prototype.sort] belongs to the engine: the pipeline takes it as
      an argument, of which the language promises, for a consistent
      comparator, a result in comparator order and stability.  [sortBy], a
      stable insertion sort, is one such sort, and any other agrees with it.
    - The OpenCV.js calls are fields of a [Toolkit] record: the source fixes
      only their order and parameters.  The CLAHE step is the one wrapped in
      [try]/[catch]; it is the only primitive given a failing outcome.
    - An exception (a rejected promise) is the [Thrown] outcome.  The
      pipeline itself throws where it pushes onto a group that does not
      exist; the toolkit calls other than CLAHE are total functions.
    - The wait for OpenCV.js to load, the release of the matrices and the
      debug canvas have no part in the questions and bubbles returned and are
      left out. *)

From Stdlib Require Import QArith Qround Qabs Qpower Lqa Ascii.
From stdpp Require Import base tactics option list sorting strings pretty gmap.

Set Default Proof Using "Type".

Local Open Scope Q_scope.

(** ** Outcomes: a returned value or a thrown exception *)

Inductive Failure : Type :=
| ImageLoadError   (* ensureImageEl rejected *)
| TypeError.       (* a property read on [undefined] *)

Inductive outcome (A : Type) : Type :=
| Returned (a : A)
| Thrown (e : Failure).
Arguments Returned {A} a.
Arguments Thrown {A} e.

Definition bindOutcome {A B} (m : outcome A) (k : A -> outcome B) : outcome B :=
  match m with
  | Returned a => k a
  | Thrown e => Thrown e
  end.

Notation "'let!' p ':=' m 'in' k" := (bindOutcome m (fun p => k))
  (at level 10, p name, m at level 100, k at level 200).

(** ** Numbers *)

Definition Qltb (a b : Q) : bool := negb (Qle_bool b a).

Definition Math_max (a b : Q) : Q := if Qle_bool a b then b else a.

(** [Math.round]: the nearest integer, halves going up. *)
Definition Math_round (a : Q) : Z := Qfloor (a + (1 # 2)).

Definition Math_PI : Q := 884279719003555 # 281474976710656.

Definition ofNat (n : nat) : Q := inject_Z (Z.of_nat n).

(** [Math.hypot dx dy < t]. *)
Definition hypotLt (dx dy t : Q) : bool :=
  Qltb 0 t && Qltb (dx * dx + dy * dy) (t * t).

(** *** The doubles of the engine

    [double x] is the double nearest to the real [x]: 53 significant bits,
    a tie going to the even one. *)

(** The nearest integer, a half going to the even neighbour. *)
Definition roundEven (x : Q) : Z :=
  let f := Qfloor x in
  match Qcompare (x - inject_Z f) (1 # 2) with
  | Lt => f
  | Eq => if Z.even f then f else (f + 1)%Z
  | Gt => (f + 1)%Z
  end.

(** The binade of a positive number: the [k] with [2^k <= x < 2^(k+1)]. *)
Definition binade (x : Q) : Z :=
  let k := (Z.log2 (Qnum x) - Z.log2 (Zpos (Qden x)))%Z in
  if Qle_bool (2 ^ k) x then k else (k - 1)%Z.

(** A positive number at 53 significant bits. *)
Definition nearest53 (x : Q) : Q :=
  let quantum := 2 ^ (binade x - 52) in
  inject_Z (roundEven (x / quantum)) * quantum.

Definition double (x : Q) : Q :=
  match Qcompare x 0 with
  | Eq => 0
  | Gt => Qred (nearest53 x)
  | Lt => Qred (- nearest53 (- x))
  end.

(** ** Data model *)

Module Bubble.
Record t : Type := mk {
  x : Q;
  y : Q;
  r : Q;
  contourIndex : Z;
  filledRatio : option Q;
  isFilled : option bool
}.
End Bubble.

Record Question : Type := mkQuestion {
  index : nat;
  selected : option Z;      (* [null] is [None] *)
  scores : list Q
}.

Record AnalyzeResult : Type := mkResult {
  questions : list Question;
  bubbles : list Bubble.t
}.

Record Options : Type := mkOptions {
  minBubbleArea : option Q;
  maxBubbleArea : option Q;
  fillThreshold : option Q;
  expectedOptions : option Q;
  expectedQuestions : option nat;
  debug : bool
}.

Definition noOptions : Options := mkOptions None None None None None false.

(** The defaults spread under the caller's options. *)
Definition minAreaOf (o : Options) : Q := default (150 # 1) (minBubbleArea o).
Definition maxAreaOf (o : Options) : Q := default (20000 # 1) (maxBubbleArea o).
(** [options.fillThreshold ?? 0.35], with [0.35] the double the engine reads. *)
Definition thresholdOf (o : Options) : Q := default (double (35 # 100)) (fillThreshold o).

(** ** Sorting with a comparator *)

Section Sort.
Variable cmp : Bubble.t -> Bubble.t -> Q.

(** A stable insertion sort: [a], which stood before every bubble of [l],
    goes in front of the first one it does not come after. *)
Fixpoint insertBy (a : Bubble.t) (l : list Bubble.t) : list Bubble.t :=
  match l with
  | [] => [a]
  | b :: l' => if Qltb 0 (cmp a b) then b :: insertBy a l' else a :: l
  end.

Fixpoint sortBy (l : list Bubble.t) : list Bubble.t :=
  match l with
  | [] => []
  | a :: l' => insertBy a (sortBy l')
  end.

(** Another stable sort, to run beside [sortBy]: the bubbles are taken from
    the left, and each is placed behind those already placed that do not
    come after it. *)
Fixpoint insertBehind (a : Bubble.t) (l : list Bubble.t) : list Bubble.t :=
  match l with
  | [] => [a]
  | b :: l' => if Qltb 0 (cmp b a) then a :: l else b :: insertBehind a l'
  end.

Definition sortFromLeft (l : list Bubble.t) : list Bubble.t :=
  fold_left (fun placed a => insertBehind a placed) l [].
End Sort.

(** [Array.prototype.sort] on an array of bubbles, given the comparator. *)
Definition ArraySort : Type :=
  (Bubble.t -> Bubble.t -> Q) -> list Bubble.t -> list Bubble.t.

(** [(a, b) => a.x - b.x] *)
Definition byX (a b : Bubble.t) : Q := Bubble.x a - Bubble.x b.

(** [(a, b) => a.y - b.y || a.x - b.x] *)
Definition byYthenX (a b : Bubble.t) : Q :=
  let d := Bubble.y a - Bubble.y b in
  if Qeq_bool d 0 then Bubble.x a - Bubble.x b else d.

(** ** Stage 5: answer selection *)

(** [b.filledRatio ?? 0] *)
Definition ratioOf (b : Bubble.t) : Q := default 0 (Bubble.filledRatio b).

(** The accumulator of the [reduce] over a group. *)
Record Agg : Type := mkAgg { aggX : Q; aggY : Q; aggR : Q; aggRatio : Q }.

Definition agg0 : Agg := mkAgg 0 0 0 0.

Definition aggStep (acc : Agg) (cur : Bubble.t) : Agg :=
  mkAgg (aggX acc + Bubble.x cur) (aggY acc + Bubble.y cur)
        (aggR acc + Bubble.r cur) (double (aggRatio acc + ratioOf cur)).

Definition aggregate (g : list Bubble.t) : Agg := fold_left aggStep g agg0.

(** The second [map]: divide the sums by [groups[idx].length]. *)
Definition averaged (thr : Q) (groups : list (list Bubble.t)) (idx : nat) (agg : Agg)
  : Bubble.t :=
  let len := ofNat (length (default [] (groups !! idx))) in
  Bubble.mk (aggX agg / len) (aggY agg / len) (aggR agg / len) (-1)%Z
            (Some (double (aggRatio agg / len)))
            (Some (Qle_bool thr (double (aggRatio agg / len)))).

(** [groups[k].push(b)]: a [TypeError] when [groups[k]] is [undefined], as
    it is for a negative [k] and for a [k] past the last group. *)
Definition pushGroup (k : Z) (b : Bubble.t) (groups : list (list Bubble.t))
  : outcome (list (list Bubble.t)) :=
  if (k <? 0)%Z then Thrown TypeError
  else match groups !! Z.to_nat k with
       | Some g => Returned (<[Z.to_nat k := g ++ [b]]> groups)
       | None => Thrown TypeError
       end.

(** [Math.floor((i * options.expectedOptions) / row.length)]: the group of
    position [i] in a row of [n] bubbles merged into [E]. *)
Definition slot (E : Q) (n i : nat) : Z := Qfloor (ofNat i * E / ofNat n).

(** The loop [for (i = 0; i < row.length; i++)], entered at index [i] with
    [rest] the bubbles [row[i..]] and [n = row.length]. *)
Fixpoint groupLoop (E : Q) (n i : nat) (rest : list Bubble.t) (groups : list (list Bubble.t))
  : outcome (list (list Bubble.t)) :=
  match rest with
  | [] => Returned groups
  | b :: rest' =>
      let! groups' := pushGroup (slot E n i) b groups in
      groupLoop E n (S i) rest' groups'
  end.

(** [Array.from({ length: options.expectedOptions }, () => [])]: as many
    empty groups as the integer part of the count, none for a negative one. *)
Definition emptyGroups (E : Q) : list (list Bubble.t) :=
  replicate (Z.to_nat (Qfloor E)) [].

Definition partitionRow (E : Q) (row : list Bubble.t) : outcome (list (list Bubble.t)) :=
  groupLoop E (length row) 0 row (emptyGroups E).

Definition mergeRow (thr : Q) (E : Q) (row : list Bubble.t) : outcome (list Bubble.t) :=
  let! groups := partitionRow E row in
  Returned (imap (averaged thr groups) (aggregate <$> groups)).

(** [options.expectedOptions && row.length > options.expectedOptions] *)
Definition mustMerge (o : Options) (row : list Bubble.t) : option Q :=
  match expectedOptions o with
  | Some E => if negb (Qeq_bool E 0) && Qltb E (ofNat (length row)) then Some E else None
  | None => None
  end.

Definition optionsInRow (o : Options) (row : list Bubble.t) : outcome (list Bubble.t) :=
  match mustMerge o row with
  | Some E => mergeRow (thresholdOf o) E row
  | None => Returned row
  end.

(** The argmax loop, entered at index [i] with state [(maxIdx, maxScore)]. *)
Fixpoint argmaxLoop (i : Z) (rest : list Q) (st : Z * Q) : Z * Q :=
  match rest with
  | [] => st
  | s :: rest' =>
      argmaxLoop (i + 1) rest' (if Qltb (snd st) s then (i, s) else st)
  end.

Definition argmax (scs : list Q) : Z * Q := argmaxLoop 0 scs ((-1)%Z, (-1) # 1).

Definition selectOption (thr : Q) (scs : list Q) : option Z :=
  let '(maxIdx, maxScore) := argmax scs in
  if Qle_bool thr maxScore then Some maxIdx else None.

(** The body of the loop over [rows], for the row at position [qi]. *)
Definition questionOfRow (sort : ArraySort) (o : Options) (qi : nat)
    (rowq : list Bubble.t) : outcome Question :=
  let row := sort byX rowq in
  let! opts := optionsInRow o row in
  let scs := ratioOf <$> opts in
  Returned (mkQuestion (qi + 1)%nat (selectOption (thresholdOf o) scs) scs).

Fixpoint questionsLoop (sort : ArraySort) (o : Options) (qi : nat)
    (rows : list (list Bubble.t)) : outcome (list Question) :=
  match rows with
  | [] => Returned []
  | rowq :: rows' =>
      let! q := questionOfRow sort o qi rowq in
      let! qs := questionsLoop sort o (S qi) rows' in
      Returned (q :: qs)
  end.

(** ** The image-processing toolkit

    [Source] is what the caller passes (an image element or a data URL),
    [ImageEl] a loaded image element, [Mat] an OpenCV matrix and [Contour] one
    entry of the contour vector. *)

Record Toolkit (Source ImageEl Mat Contour : Type) : Type := mkToolkit {
  ensureImageEl : Source -> option ImageEl;   (* [None]: the promise rejects *)
  imread : ImageEl -> Mat;                    (* canvas draw, then [cv.imread] *)
  matRows : Mat -> Z;                         (* [src.rows] *)
  matCols : Mat -> Z;                         (* [src.cols] *)
  cvtColor : Mat -> Mat;                      (* [COLOR_RGBA2GRAY] *)
  claheApply : Mat -> option Mat;             (* [new cv.CLAHE] and [apply]; [None]: one of them throws *)
  GaussianBlur : Mat -> Mat;                  (* 5x5 kernel *)
  adaptiveThreshold : Mat -> Mat;             (* Gaussian, inverted, 15, 7 *)
  morphologyEx : Mat -> Mat;                  (* closing, 3x3 ellipse *)
  findContours : Mat -> list Contour;         (* external, simple chains *)
  contourArea : Contour -> Q;
  arcLength : Contour -> Q;
  minEnclosingCircle : Contour -> Q * Q * Q;  (* center x, center y, radius *)
  circleMask : Z -> Z -> Z -> Z -> Z -> Mat;  (* zeros rows cols, disc at (cx, cy) of radius rad *)
  bitwise_and : Mat -> Mat -> Mat;            (* [bitwise_and(m, m, _, mask)] *)
  thresholdOtsu : Mat -> Mat;
  countNonZero : Mat -> Z
}.
Arguments mkToolkit {Source ImageEl Mat Contour}.
Arguments ensureImageEl {Source ImageEl Mat Contour} _.
Arguments imread {Source ImageEl Mat Contour} _.
Arguments matRows {Source ImageEl Mat Contour} _.
Arguments matCols {Source ImageEl Mat Contour} _.
Arguments cvtColor {Source ImageEl Mat Contour} _.
Arguments claheApply {Source ImageEl Mat Contour} _.
Arguments GaussianBlur {Source ImageEl Mat Contour} _.
Arguments adaptiveThreshold {Source ImageEl Mat Contour} _.
Arguments morphologyEx {Source ImageEl Mat Contour} _.
Arguments findContours {Source ImageEl Mat Contour} _.
Arguments contourArea {Source ImageEl Mat Contour} _.
Arguments arcLength {Source ImageEl Mat Contour} _.
Arguments minEnclosingCircle {Source ImageEl Mat Contour} _.
Arguments circleMask {Source ImageEl Mat Contour} _.
Arguments bitwise_and {Source ImageEl Mat Contour} _.
Arguments thresholdOtsu {Source ImageEl Mat Contour} _.
Arguments countNonZero {Source ImageEl Mat Contour} _.

Section Pipeline.
Context {Source ImageEl Mat Contour : Type}.
Variable cv : Toolkit Source ImageEl Mat Contour.
Variable sort : ArraySort.

(** *** Stage 2: candidate extraction *)

Definition circularity (cnt : Contour) : Q :=
  let area := contourArea cv cnt in
  let perim := arcLength cv cnt in
  if Qltb 0 perim then (4 * Math_PI * area) / (perim * perim) else 0.

(** The two [continue] tests of a pass, negated: the contour is kept. *)
Definition passes (lo hi minCirc : Q) (cnt : Contour) : bool :=
  let area := contourArea cv cnt in
  negb (Qltb area lo || Qltb hi area) && negb (Qltb (circularity cnt) minCirc).

Definition candidate (i : nat) (cnt : Contour) : Bubble.t :=
  let '(cx, cy, radius) := minEnclosingCircle cv cnt in
  Bubble.mk cx cy radius (Z.of_nat i) None None.

(** The first loop over the contours, entered at index [i]. *)
Fixpoint firstPass (o : Options) (i : nat) (cnts : list Contour) (bubbles : list Bubble.t)
  : list Bubble.t :=
  match cnts with
  | [] => bubbles
  | cnt :: rest =>
      firstPass o (S i) rest
        (if passes (minAreaOf o) (maxAreaOf o) (35 # 100) cnt
         then bubbles ++ [candidate i cnt] else bubbles)
  end.

(** [bubbles.find(b => Math.hypot(b.x - center.x, b.y - center.y)
                        < Math.max(5, radius * 0.6))] *)
Definition nearby (c : Bubble.t) (bubbles : list Bubble.t) : option Bubble.t :=
  List.find
    (fun b => hypotLt (Bubble.x b - Bubble.x c) (Bubble.y b - Bubble.y c)
                      (Math_max 5 (Bubble.r c * (6 # 10))))
    bubbles.

(** The relaxed loop over the same contours. *)
Fixpoint relaxedPass (o : Options) (i : nat) (cnts : list Contour) (bubbles : list Bubble.t)
  : list Bubble.t :=
  match cnts with
  | [] => bubbles
  | cnt :: rest =>
      relaxedPass o (S i) rest
        (if passes (minAreaOf o * (6 # 10)) (maxAreaOf o * 2) (28 # 100) cnt
         then match nearby (candidate i cnt) bubbles with
              | Some _ => bubbles
              | None => bubbles ++ [candidate i cnt]
              end
         else bubbles)
  end.

Definition extractCandidates (o : Options) (contours : list Contour) : list Bubble.t :=
  let bubbles := firstPass o 0 contours [] in
  if Nat.ltb (length bubbles) 10 then relaxedPass o 0 contours bubbles else bubbles.

(** *** Stage 3: fill classification *)

Definition classify (o : Options) (src blurred : Mat) (b : Bubble.t) : Bubble.t :=
  let mask :=
    circleMask cv (matRows cv src) (matCols cv src)
      (Math_round (Bubble.x b)) (Math_round (Bubble.y b))
      (Z.max 1 (Math_round (Bubble.r b * (8 # 10)))) in
  let masked := bitwise_and cv blurred mask in
  let tmp := thresholdOtsu cv masked in
  let totalMask := countNonZero cv mask in
  let whiteInside := countNonZero cv tmp in
  let darkInside := (totalMask - whiteInside)%Z in
  let ratio :=
    if Z.ltb 0 totalMask then double (inject_Z darkInside / inject_Z totalMask) else 0 in
  Bubble.mk (Bubble.x b) (Bubble.y b) (Bubble.r b) (Bubble.contourIndex b)
            (Some ratio) (Some (Qle_bool (thresholdOf o) ratio)).

(** *** Stage 4: row clustering *)

(** [Math.max(8, Math.round(src.rows / 200))] *)
Definition rowTolerance (srcRows : Z) : Q :=
  Math_max 8 (inject_Z (Math_round (inject_Z srcRows / 200))).

(** [lastRow.reduce((s, x) => s + x.y, 0) / lastRow.length] *)
Definition avgY (lastRow : list Bubble.t) : Q :=
  fold_left (fun s b => s + Bubble.y b) lastRow 0 / ofNat (length lastRow).

(** One iteration of [for (const bub of filledBubbles)]; [lastRow.push]
    updates the row in place, inside [rows]. *)
Definition clusterStep (tol : Q) (rows : list (list Bubble.t)) (bub : Bubble.t)
  : list (list Bubble.t) :=
  match last rows with
  | None => [[bub]]
  | Some lastRow =>
      if Qle_bool (Qabs (Bubble.y bub - avgY lastRow)) tol
      then <[Nat.pred (length rows) := lastRow ++ [bub]]> rows
      else rows ++ [[bub]]
  end.

Definition clusterRows (tol : Q) (filledBubbles : list Bubble.t) : list (list Bubble.t) :=
  fold_left (clusterStep tol) filledBubbles [].

(** *** The pipeline *)

(** The contour vector found on the closed, inverted binarisation of the
    smoothed grayscale. *)
Definition contoursOf (blurred : Mat) : list Contour :=
  let thresh := adaptiveThreshold cv blurred in
  let closed := morphologyEx cv thresh in
  findContours cv closed.

(** Everything after the contrast step, from the grayscale [gray]. *)
Definition analyzeFrom (o : Options) (src gray : Mat) : outcome AnalyzeResult :=
  let blurred := GaussianBlur cv gray in
  let contours := contoursOf blurred in
  let bubbles := extractCandidates o contours in
  let filledBubbles := sort byYthenX (classify o src blurred <$> bubbles) in
  let rows := clusterRows (rowTolerance (matRows cv src)) filledBubbles in
  let! questions := questionsLoop sort o 0 rows in
  Returned (mkResult questions filledBubbles).

(** The [try]/[catch] around CLAHE. *)
Definition enhance (gray : Mat) : Mat :=
  match claheApply cv gray with
  | Some claheDst => claheDst
  | None => gray
  end.

Definition analyzeOmrImage (imgOrDataUrl : Source) (o : Options) : outcome AnalyzeResult :=
  match ensureImageEl cv imgOrDataUrl with
  | None => Thrown ImageLoadError
  | Some imgEl =>
      let src := imread cv imgEl in
      let gray := cvtColor cv src in
      analyzeFrom o src (enhance gray)
  end.

End Pipeline.

(** ** A synthetic toolkit

    Sheets on which the theorems are run.  A sheet lists its marks; a mark
    carries the measurements the pipeline reads from a contour and, out of 100
    pixels under its mask, the number [ink] of dark ones.  No filter alters
    a sheet. *)

Module Synthetic.

Record Mark : Type := mkMark {
  area : Q; perim : Q;
  cx : Q; cy : Q; radius : Q;
  ink : Z
}.

Inductive Mat : Type :=
| Sheet (height width : Z) (marks : list Mark)
| Disc (px py : Z)
| Masked (marks : list Mark) (px py : Z).

Definition marksOf (m : Mat) : list Mark :=
  match m with
  | Sheet _ _ marks => marks
  | Disc _ _ => []
  | Masked marks _ _ => marks
  end.

Definition under (px py : Z) (k : Mark) : bool :=
  Z.eqb (Math_round (cx k)) px && Z.eqb (Math_round (cy k)) py.

Definition clamp (z : Z) : Z := Z.min 100 (Z.max 0 z).

(** The lit pixels: 100 under a mask; under a masked sheet, those of the
    100 that the mark at the mask's center leaves light. *)
Definition lit (m : Mat) : Z :=
  match m with
  | Sheet _ _ _ => 0%Z
  | Disc _ _ => 100%Z
  | Masked marks px py =>
      match List.find (under px py) marks with
      | Some k => (100 - clamp (ink k))%Z
      | None => 100%Z
      end
  end.

Definition masked (blurred mask : Mat) : Mat :=
  match mask with
  | Disc px py => Masked (marksOf blurred) px py
  | _ => mask
  end.

Definition toolkit (clahe : Mat -> option Mat) : Toolkit (option Mat) Mat Mat Mark :=
  mkToolkit
    (fun source => source)
    (fun imgEl => imgEl)
    (fun m => match m with Sheet h _ _ => h | _ => 0%Z end)
    (fun m => match m with Sheet _ w _ => w | _ => 0%Z end)
    (fun m => m)
    clahe
    (fun m => m) (fun m => m) (fun m => m)
    marksOf
    area perim
    (fun k => (cx k, cy k, radius k))
    (fun _ _ px py _ => Disc px py)
    masked
    (fun m => m)
    lit.

(** A round mark of radius 10 at [(px, py)]: area 300, perimeter 63. *)
Definition mark (px py : Z) (inkPct : Z) : Mark :=
  mkMark 300 63 (inject_Z px) (inject_Z py) 10 inkPct.

(** CLAHE missing from the build: the constructor throws. *)
Definition noClahe : Mat -> option Mat := fun _ => None.

(** Two questions: five options in a first row, the second one filled, and a
    single filled option in a second row. *)
Definition sheetFive : Mat :=
  Sheet 2000 1000
    [mark 100 100 10; mark 200 100 80; mark 300 101 20; mark 400 100 5;
     mark 500 101 3; mark 100 300 90].

(** One question with three options. *)
Definition sheetThree : Mat :=
  Sheet 2000 1000 [mark 100 100 10; mark 200 100 80; mark 300 101 20].

(** A speck too small for either pass. *)
Definition sheetSpeck : Mat :=
  Sheet 2000 1000 [mkMark 10 12 (400 # 1) (300 # 1) 2 100].

(** A C-shaped region (a disc of radius 20 around (100, 100) with a bite
    open to the right: area 887, perimeter 173) and, inside the bite, a small
    round region of radius 5.5 around (105, 100), of area 95, which only the
    relaxed pass accepts. *)
Definition sheetNear : Mat :=
  Sheet 2000 1000
    [mkMark 887 173 (100 # 1) (100 # 1) 20 80;
     mkMark 95 35 (105 # 1) (100 # 1) (11 # 2) 20].

Definition expecting (E : Q) : Options :=
  mkOptions None None None (Some E) None false.

Definition returned (m : outcome AnalyzeResult) : AnalyzeResult :=
  match m with
  | Returned res => res
  | Thrown _ => mkResult [] []
  end.

Definition resultFive : AnalyzeResult :=
  Eval vm_compute in returned (analyzeOmrImage (toolkit noClahe) sortBy (Some sheetFive) noOptions).

Definition resultFiveOfFour : AnalyzeResult :=
  Eval vm_compute in
    returned (analyzeOmrImage (toolkit noClahe) sortBy (Some sheetFive) (expecting 4)).

Definition resultThreeOfFour : AnalyzeResult :=
  Eval vm_compute in
    returned (analyzeOmrImage (toolkit noClahe) sortBy (Some sheetThree) (expecting 4)).

End Synthetic.

(** ** Vocabulary of the statements *)

(** A consistent comparator: it orders the bubbles as a total preorder. *)
Record Consistent (cmp : Bubble.t -> Bubble.t -> Q) : Prop := mkConsistent {
  cmp_refl : forall a, cmp a a == 0;
  cmp_flip : forall a b, cmp a b <= 0 <-> 0 <= cmp b a;
  cmp_trans : forall a b c, cmp a b <= 0 -> cmp b c <= 0 -> cmp a c <= 0
}.

(** [a] does not come after [b]. *)
Definition notAfter (cmp : Bubble.t -> Bubble.t -> Q) (a b : Bubble.t) : Prop :=
  cmp a b <= 0.

(** [b] compares equal to [a]. *)
Definition tied (cmp : Bubble.t -> Bubble.t -> Q) (a b : Bubble.t) : bool :=
  Qeq_bool (cmp a b) 0.

(** What the language promises of the engine's sort, for a consistent
    comparator: the result is in comparator order, and the bubbles that
    compare equal to a given one are all there, in their original order. *)
Record StableSort (sort : ArraySort) : Prop := mkStableSort {
  sort_ordered : forall cmp l,
    Consistent cmp -> StronglySorted (notAfter cmp) (sort cmp l);
  sort_stable : forall cmp l a,
    Consistent cmp -> List.filter (tied cmp a) (sort cmp l) = List.filter (tied cmp a) l
}.

(** What the loop state [(maxIdx, maxScore)] says of the scores [l] read so
    far: either nothing beat the initial [-1], or [maxIdx] is the first
    position of the greatest score. *)
Definition argmaxInv (l : list Q) (st : Z * Q) : Prop :=
  (fst st = (-1)%Z /\ snd st = ((-1) # 1) /\ forall j s, l !! j = Some s -> s <= (-1) # 1)
  \/ ((0 <= fst st)%Z /\ l !! Z.to_nat (fst st) = Some (snd st)
      /\ (forall j s, l !! j = Some s -> s <= snd st)
      /\ (forall j s, l !! j = Some s -> (j < Z.to_nat (fst st))%nat -> s < snd st)).

(** The selection rule: [Some i] is the first position of the greatest
    score, and that score reaches the threshold; [None] means that no score
    reaches it. *)
Definition SelectionRule (thr : Q) (scs : list Q) (sel : option Z) : Prop :=
  match sel with
  | Some i =>
      (0 <= i)%Z /\
      exists m, scs !! Z.to_nat i = Some m /\ thr <= m
        /\ (forall j s, scs !! j = Some s -> s <= m)
        /\ (forall j s, scs !! j = Some s -> (j < Z.to_nat i)%nat -> s < m)
  | None => forall j s, scs !! j = Some s -> s < thr
  end.

(** Ascending by [x]. *)
Definition leX (a b : Bubble.t) : Prop := Bubble.x a <= Bubble.x b.

(** The bubble the merge makes of a group: its sums over its own length. *)
Definition meanOf (thr : Q) (g : list Bubble.t) : Bubble.t :=
  let len := ofNat (length g) in
  let agg := aggregate g in
  Bubble.mk (aggX agg / len) (aggY agg / len) (aggR agg / len) (-1)%Z
            (Some (double (aggRatio agg / len)))
            (Some (Qle_bool thr (double (aggRatio agg / len)))).

(** The sum of a measure over a group. *)
Definition sumOf (f : Bubble.t -> Q) (g : list Bubble.t) : Q :=
  fold_right (fun b s => f b + s) 0 g.

(** A sum of doubles as the engine adds them: from the left, each partial
    sum rounded. *)
Definition roundedSum (l : list Q) : Q :=
  fold_left (fun s ratio => double (s + ratio)) l 0.

(** The fill ratios the bubbles of a list carry, in order. *)
Definition RatiosOf (g : list Bubble.t) (ratios : list Q) : Prop :=
  Forall2 (fun b ratio => Bubble.filledRatio b = Some ratio) g ratios.

(** [b] stands for the group [g]: its center and radius are the means of the
    group's, its fill ratio is the mean of the group's fill ratios, added and
    divided in doubles, and its flag compares that mean with the threshold. *)
Definition StandsFor (thr : Q) (g : list Bubble.t) (b : Bubble.t) : Prop :=
  let len := ofNat (length g) in
  Bubble.x b == sumOf Bubble.x g / len
  /\ Bubble.y b == sumOf Bubble.y g / len
  /\ Bubble.r b == sumOf Bubble.r g / len
  /\ Bubble.contourIndex b = (-1)%Z
  /\ exists ratios,
       RatiosOf g ratios
       /\ Bubble.filledRatio b = Some (double (roundedSum ratios / len))
       /\ Bubble.isFilled b = Some (Qle_bool thr (double (roundedSum ratios / len))).

(** A row of [n] bubbles is merged: an expected count [E] is given, it is
    not zero, and the row is longer. *)
Definition Merged (o : Options) (E : Q) (n : nat) : Prop :=
  expectedOptions o = Some E /\ ~ E == 0 /\ E < ofNat n.

(** The expected count is not given, or it is a whole number of options. *)
Definition WholeCount (o : Options) : Prop :=
  expectedOptions o = None \/ exists E : nat, expectedOptions o = Some (ofNat E).

(** The group of position [i] in a row of [n] bubbles, for a whole count
    [E]: the quotient of [i * E] by [n]. *)
Definition slotOf (E n i : nat) : nat := ((i * E) / n)%nat.

(** Fill ratios stay non-negative through the merge. *)
Definition ratioOk (b : Bubble.t) : Prop := 0 <= ratioOf b.

(** The number of options of a row of [n] bubbles: the integer part of the
    expected count when the row is merged, the row's own length otherwise. *)
Definition optionCount (o : Options) (n : nat) : nat :=
  match expectedOptions o with
  | Some E =>
      if negb (Qeq_bool E 0) && Qltb E (ofNat n) then Z.to_nat (Qfloor E) else n
  | None => n
  end.

(** The toolkit contract the fill ratio relies on: Otsu's threshold is never
    negative and a masked image is zero off its mask, so the thresholded
    image is lit only under the mask. *)
Definition lightWithinMask {Source ImageEl Mat Contour : Type}
    (cv : Toolkit Source ImageEl Mat Contour) : Prop :=
  forall (blurred : Mat) (rows cols px py rad : Z),
    let mask := circleMask cv rows cols px py rad in
    (0 <= countNonZero cv (thresholdOtsu cv (bitwise_and cv blurred mask))
       <= countNonZero cv mask)%Z.


(** The same options with another [fillThreshold]. *)
Definition withThreshold (o : Options) (t : Q) : Options :=
  mkOptions (minBubbleArea o) (maxBubbleArea o) (Some t)
            (expectedOptions o) (expectedQuestions o) (debug o).

(** A question with its selection made anew at the threshold [t]. *)
Definition reselected (t : Q) (q : Question) : Question :=
  mkQuestion (index q) (selectOption t (scores q)) (scores q).

(** The rows behind a result: its bubbles are returned in scan order, and
    the rows are their clustering at the tolerance of the image. *)
Definition rowsOfResult {Source ImageEl Mat Contour : Type}
    (cv : Toolkit Source ImageEl Mat Contour) (imgOrDataUrl : Source)
    (res : AnalyzeResult) : list (list Bubble.t) :=
  match ensureImageEl cv imgOrDataUrl with
  | Some imgEl =>
      clusterRows (rowTolerance (matRows cv (imread cv imgEl))) (bubbles res)
  | None => []
  end.

(** The options of a row in left-to-right order: when the row is merged, the
    bubbles that stand for the consecutive, non-empty groups it is cut into,
    as many as the integer part of the expected count, the bubble at
    position [i] of the [n] going to group [floor (i * E / n)]; the row
    itself otherwise. *)
Definition RowOptions (o : Options) (sorted opts : list Bubble.t) : Prop :=
  (forall E, Merged o E (length sorted) ->
     exists groups,
       concat groups = sorted
       /\ length groups = Z.to_nat (Qfloor E)
       /\ Forall (fun g => g <> []) groups
       /\ (forall i b, sorted !! i = Some b ->
             exists g,
               groups !! Z.to_nat (Qfloor (ofNat i * E / ofNat (length sorted))) = Some g
               /\ b ∈ g)
       /\ Forall2 (StandsFor (thresholdOf o)) groups opts)
  /\ ((forall E, ~ Merged o E (length sorted)) -> opts = sorted).

(** A question answers its row: its scores are the fill ratios of the
    options of the row taken in ascending [x], and its selection follows the
    rule. *)
Definition AnswerOfRow (o : Options) (row : list Bubble.t) (q : Question) : Prop :=
  exists sorted opts,
    sorted ≡ₚ row
    /\ StronglySorted leX sorted
    /\ RowOptions o sorted opts
    /\ RatiosOf opts (scores q)
    /\ SelectionRule (thresholdOf o) (scores q) (selected q).

(** A question is well formed: it has a score, and it selects nothing or a
    position among its scores. *)
Definition WellFormed (q : Question) : Prop :=
  scores q <> []
  /\ match selected q with
     | None => True
     | Some i => (0 <= i < Z.of_nat (length (scores q)))%Z
     end.

(** The radius of the duplicate test around a candidate:
    [Math.max(5, radius * 0.6)]. *)
Definition dedupRadius (c : Bubble.t) : Q := Math_max 5 (Bubble.r c * (6 # 10)).

(** The squared distance between two centers. *)
Definition dist2 (b c : Bubble.t) : Q :=
  (Bubble.x b - Bubble.x c) * (Bubble.x b - Bubble.x c)
  + (Bubble.y b - Bubble.y c) * (Bubble.y b - Bubble.y c).

(** [b] is at least the duplicate radius of [c] away from it. *)
Definition AtLeastApart (c b : Bubble.t) : Prop :=
  dedupRadius c * dedupRadius c <= dist2 b c.

(** [b] is farther than the duplicate radius of [c] away from it. *)
Definition FartherApart (c b : Bubble.t) : Prop :=
  dedupRadius c * dedupRadius c < dist2 b c.

(** The widened bounds of the relaxed pass. *)
Definition RelaxedBounds {Source ImageEl Mat Contour : Type}
    (cv : Toolkit Source ImageEl Mat Contour) (o : Options) (cnt : Contour) : Prop :=
  minAreaOf o * (6 # 10) <= contourArea cv cnt
  /\ contourArea cv cnt <= maxAreaOf o * 2
  /\ 28 # 100 <= circularity cv cnt.

(** [c] may be added by the relaxed pass after [accepted]: it is the circle
    of a contour within the widened bounds, and no accepted candidate is
    closer to it than its duplicate radius. *)
Definition AddedByRelaxed {Source ImageEl Mat Contour : Type}
    (cv : Toolkit Source ImageEl Mat Contour) (o : Options) (contours : list Contour)
    (accepted : list Bubble.t) (c : Bubble.t) : Prop :=
  (exists i cnt,
      contours !! i = Some cnt /\ c = candidate cv i cnt /\ RelaxedBounds cv o cnt)
  /\ forall b, b ∈ accepted -> AtLeastApart c b.

(** A bubble is the circle of one of the contours. *)
Definition FromContours {Source ImageEl Mat Contour : Type}
    (cv : Toolkit Source ImageEl Mat Contour) (contours : list Contour)
    (b : Bubble.t) : Prop :=
  exists j cnt, contours !! j = Some cnt /\ b = candidate cv j cnt.

(** A classified, unfilled bubble of radius 10 at [(x, y)]. *)
Definition bubbleAt (x y : Q) : Bubble.t :=
  Bubble.mk x y 10 0 (Some 0) (Some false).

(** * The upload form (UploadInterface)

    The component around the pipeline: files are validated as they are
    picked, listed, removed, and handed over on upload.  A file is what the
    form reads of it: its name, size in bytes, MIME type, and the dimensions
    of the image it decodes to ([None] when the image fails to load).
    [toLowerCase] lowers the ASCII letters: a type with a character outside
    ASCII is lowered by the engine to a string that still has one, or a [k],
    and is none of the accepted types either way. *)

Module File.
Record t : Type := mk {
  name : string;
  size : N;
  type : string;
  dimensions : option (N * N)     (* getImageDimensions: [None] rejects *)
}.
End File.

Module FileValidationResult.
Record t : Type := mk {
  file : File.t;
  valid : bool;
  errors : list string;
  warnings : list string;
  size : N;
  resolution : option string
}.
End FileValidationResult.

Definition lowerAscii (c : ascii) : ascii :=
  let n := nat_of_ascii c in
  if Nat.leb 65 n && Nat.leb n 90 then ascii_of_nat (n + 32) else c.

Fixpoint toLowerCase (s : string) : string :=
  match s with
  | EmptyString => EmptyString
  | String c s' => String (lowerAscii c) (toLowerCase s')
  end.

(** [array.includes(s)] on an array of strings. *)
Definition includes (l : list string) (s : string) : bool :=
  existsb (String.eqb s) l.

(** A string is truthy when it is not empty. *)
Definition truthy (s : string) : bool := negb (String.eqb s "").

Definition validateFile (file : File.t) : FileValidationResult.t :=
  let errors : list string := [] in
  let warnings : list string := [] in
  let errors :=
    if (10 * 1024 * 1024 <? File.size file)%N
    then errors ++ ["File size exceeds 10MB limit"] else errors in
  let validTypes := ["image/jpeg"; "image/jpg"; "image/png"; "image/heic"] in
  let errors :=
    if negb (includes validTypes (toLowerCase (File.type file)))
    then errors ++ ["Invalid file type. Only JPEG, PNG, and HEIC files are allowed"]
    else errors in
  let warnings :=
    if (File.size file <? 100 * 1024)%N
    then warnings ++ ["File size is quite small - may affect processing quality"]
    else warnings in
  let warnings :=
    if (5 * 1024 * 1024 <? File.size file)%N
    then warnings ++ ["Large file - processing may take longer"] else warnings in
  let '(resolution, warnings) :=
    match File.dimensions file with
    | Some (width, height) =>
        (Some (pretty width +:+ "×" +:+ pretty height),
         if (width <? 800)%N || (height <? 600)%N
         then warnings ++ ["Low resolution image - may affect bubble detection accuracy"]
         else warnings)
    | None => (None, warnings ++ ["Could not determine image dimensions"])
    end in
  FileValidationResult.mk file (Nat.eqb (length errors) 0) errors warnings
                          (File.size file) resolution.

(** The state of the form. *)
Record FormState : Type := mkForm {
  selectedFiles : list FileValidationResult.t;
  examVersion : string;
  examDate : string;
  uploading : bool
}.

Definition emptyForm : FormState := mkForm [] "" "" false.

(** [validateFiles]: the results are appended to the selection. *)
Definition validateFiles (files : list File.t) (st : FormState) : FormState :=
  mkForm (selectedFiles st ++ (validateFile <$> files))
         (examVersion st) (examDate st) (uploading st).

(** [handleFileSelect] and [handleDrop]: only files whose type starts with
    [image/] are validated. *)
Definition handleFileSelect (files : list File.t) (st : FormState) : FormState :=
  validateFiles (List.filter (fun file => String.prefix "image/" (File.type file)) files) st.

Definition handleDrop (files : list File.t) (st : FormState) : FormState :=
  match files with
  | [] => st
  | _ :: _ => handleFileSelect files st
  end.

(** [prev.filter((_, i) => i !== index)], entered at position [i]. *)
Fixpoint keepOthers {A : Type} (index i : nat) (prev : list A) : list A :=
  match prev with
  | [] => []
  | a :: rest =>
      if negb (Nat.eqb i index) then a :: keepOthers index (S i) rest
      else keepOthers index (S i) rest
  end.

Definition removeFile (index : nat) (st : FormState) : FormState :=
  mkForm (keepOthers index 0 (selectedFiles st))
         (examVersion st) (examDate st) (uploading st).

(** The call [onFileUpload(files, examVersion, examDate)]. *)
Record UploadCall : Type := mkCall {
  callFiles : list File.t;
  callVersion : string;
  callDate : string
}.

(** [handleUpload], up to the call it makes: the state it leaves and the
    call, if any. *)
Definition handleUpload (st : FormState) : FormState * option UploadCall :=
  let validFiles := List.filter FileValidationResult.valid (selectedFiles st) in
  if Nat.ltb 0 (length validFiles) && truthy (examVersion st) && truthy (examDate st)
     && negb (uploading st)
  then (mkForm (selectedFiles st) (examVersion st) (examDate st) true,
        Some (mkCall (FileValidationResult.file <$> validFiles)
                     (examVersion st) (examDate st)))
  else (st, None).

(** What follows the call: the form is reset when the upload succeeds, and
    only released when it fails. *)
Definition uploadSettled (succeeded : bool) (st : FormState) : FormState :=
  if succeeded then emptyForm
  else mkForm (selectedFiles st) (examVersion st) (examDate st) false.

(** The statistics shown above the list. *)
Definition totalFiles (st : FormState) : nat := length (selectedFiles st).
Definition validFiles (st : FormState) : nat :=
  length (List.filter FileValidationResult.valid (selectedFiles st)).
Definition filesWithErrors (st : FormState) : nat :=
  length (List.filter (fun f => negb (FileValidationResult.valid f)) (selectedFiles st)).
Definition filesWithWarnings (st : FormState) : nat :=
  length (List.filter (fun f => Nat.ltb 0 (length (FileValidationResult.warnings f)))
                      (selectedFiles st)).
Definition totalSize (st : FormState) : N :=
  fold_left (fun sum f => (sum + FileValidationResult.size f)%N) (selectedFiles st) 0%N.

(** What the user does to the form. *)
Inductive FormEvent : Type :=
| FilesSelected (files : list File.t)
| FilesDropped (files : list File.t)
| FileRemoved (index : nat)
| VersionSet (version : string)
| DateSet (date : string)
| UploadClicked
| UploadSettled (succeeded : bool).

Definition formStep (st : FormState) (ev : FormEvent) : FormState * option UploadCall :=
  match ev with
  | FilesSelected files => (handleFileSelect files st, None)
  | FilesDropped files => (handleDrop files st, None)
  | FileRemoved index => (removeFile index st, None)
  | VersionSet version =>
      (mkForm (selectedFiles st) version (examDate st) (uploading st), None)
  | DateSet date =>
      (mkForm (selectedFiles st) (examVersion st) date (uploading st), None)
  | UploadClicked => handleUpload st
  | UploadSettled succeeded => (uploadSettled succeeded st, None)
  end.

(** The form after a sequence of events, and the calls made on the way. *)
Fixpoint formRun (events : list FormEvent) (st : FormState)
  : FormState * list UploadCall :=
  match events with
  | [] => (st, [])
  | ev :: rest =>
      let '(st', call) := formStep st ev in
      let '(final, calls) := formRun rest st' in
      (final, match call with Some c => c :: calls | None => calls end)
  end.

(** * The server: the upload gate, the scoring and the grades

    The functions of the server that compute on values: [validateImage], the
    checks of the [upload-sheet] route before anything is stored,
    [scoreAnswers] with its answer keys, and the grade and score ranges of
    the exports.  The simulated preprocessing and detection draw random
    numbers and are left out, as are the storage and the job records.

    An object literal is the list of its own properties in insertion order;
    [detectedAnswers], which the scoring only reads by subject, is a finite
    map from the subject to the array of detected letters.  A read of a
    property the object does not have gives [undefined] ([None]); the names
    inherited from [Object.prototype] are none of the versions the route
    lets through and none of the subjects. *)

Module ImageValidation.
Record t : Type := mk {
  valid : bool;
  errors : list string;
  warnings : list string
}.
End ImageValidation.

Definition validateImage (file : File.t) : ImageValidation.t :=
  let errors : list string := [] in
  let warnings : list string := [] in
  let errors :=
    if (10 * 1024 * 1024 <? File.size file)%N
    then errors ++ ["File size exceeds 10MB limit"] else errors in
  let validTypes := ["image/jpeg"; "image/jpg"; "image/png"] in
  let errors :=
    if negb (includes validTypes (File.type file))
    then errors ++ ["Invalid file type. Only JPEG and PNG files are allowed"]
    else errors in
  let warnings :=
    if (File.size file <? 50 * 1024)%N
    then warnings ++ ["Image file size is quite small, may affect processing quality"]
    else warnings in
  ImageValidation.mk (Nat.eqb (length errors) 0) errors warnings.

(** A form field that is missing or empty is falsy. *)
Definition falsy (field : option string) : bool :=
  match field with
  | None => true
  | Some s => negb (truthy s)
  end.

(** The error responses of the route, with their status. *)
Record ErrorResponse : Type := mkError {
  status : nat;
  error : string;
  details : string + list string;
  errorWarnings : option (list string)
}.

(** A request the route goes on to store and queue. *)
Record QueuedUpload : Type := mkQueued {
  queuedFile : File.t;
  queuedVersion : string;
  queuedDate : string;
  validationWarnings : list string
}.

(** The [upload-sheet] route up to the storage: the response it returns
    early, or the request it goes on with. *)
Definition uploadSheetGate (file : option File.t) (examVersion examDate : option string)
  : ErrorResponse + QueuedUpload :=
  match file, examVersion, examDate with
  | Some file', Some version, Some date =>
      if falsy examVersion || falsy examDate
      then inl (mkError 400 "Missing required fields"
                  (inl "File, exam version, and exam date are all required") None)
      else if negb (includes ["A"; "B"; "C"; "D"] version)
      then inl (mkError 400 "Invalid exam version"
                  (inl "Exam version must be A, B, C, or D") None)
      else
        let validation := validateImage file' in
        if negb (ImageValidation.valid validation)
        then inl (mkError 400 "Image validation failed"
                    (inr (ImageValidation.errors validation))
                    (Some (ImageValidation.warnings validation)))
        else inr (mkQueued file' version date (ImageValidation.warnings validation))
  | _, _, _ =>
      inl (mkError 400 "Missing required fields"
             (inl "File, exam version, and exam date are all required") None)
  end.

Definition ANSWER_KEYS : list (string * list (string * list string)) := [
  ("A",
    [
     ("Data Analytics",
      ["B"; "A"; "C"; "D"; "B"; "A"; "C"; "B"; "D"; "A"; "C"; "B"; "D"; "A"; "B"; "C"; "D"; "A"; "B"; "C"]);
     ("Machine Learning",
      ["A"; "C"; "B"; "D"; "A"; "C"; "B"; "A"; "D"; "C"; "B"; "A"; "D"; "C"; "B"; "A"; "D"; "C"; "B"; "A"]);
     ("Statistics",
      ["C"; "B"; "A"; "D"; "C"; "B"; "A"; "C"; "D"; "B"; "A"; "C"; "D"; "B"; "A"; "C"; "D"; "B"; "A"; "C"]);
     ("Python Programming",
      ["D"; "A"; "B"; "C"; "D"; "A"; "B"; "D"; "C"; "A"; "B"; "D"; "C"; "A"; "B"; "D"; "C"; "A"; "B"; "D"]);
     ("SQL & Databases",
      ["B"; "D"; "C"; "A"; "B"; "D"; "C"; "B"; "A"; "D"; "C"; "B"; "A"; "D"; "C"; "B"; "A"; "D"; "C"; "B"])
    ]);
  ("B",
    [
     ("Data Analytics",
      ["A"; "C"; "B"; "D"; "A"; "C"; "B"; "A"; "D"; "C"; "B"; "A"; "D"; "C"; "B"; "A"; "D"; "C"; "B"; "A"]);
     ("Machine Learning",
      ["C"; "B"; "A"; "D"; "C"; "B"; "A"; "C"; "D"; "B"; "A"; "C"; "D"; "B"; "A"; "C"; "D"; "B"; "A"; "C"]);
     ("Statistics",
      ["D"; "A"; "B"; "C"; "D"; "A"; "B"; "D"; "C"; "A"; "B"; "D"; "C"; "A"; "B"; "D"; "C"; "A"; "B"; "D"]);
     ("Python Programming",
      ["B"; "D"; "C"; "A"; "B"; "D"; "C"; "B"; "A"; "D"; "C"; "B"; "A"; "D"; "C"; "B"; "A"; "D"; "C"; "B"]);
     ("SQL & Databases",
      ["B"; "A"; "C"; "D"; "B"; "A"; "C"; "B"; "D"; "A"; "C"; "B"; "D"; "A"; "B"; "C"; "D"; "A"; "B"; "C"])
    ]);
  ("C",
    [
     ("Data Analytics",
      ["C"; "B"; "A"; "D"; "C"; "B"; "A"; "C"; "D"; "B"; "A"; "C"; "D"; "B"; "A"; "C"; "D"; "B"; "A"; "C"]);
     ("Machine Learning",
      ["D"; "A"; "B"; "C"; "D"; "A"; "B"; "D"; "C"; "A"; "B"; "D"; "C"; "A"; "B"; "D"; "C"; "A"; "B"; "D"]);
     ("Statistics",
      ["B"; "D"; "C"; "A"; "B"; "D"; "C"; "B"; "A"; "D"; "C"; "B"; "A"; "D"; "C"; "B"; "A"; "D"; "C"; "B"]);
     ("Python Programming",
      ["A"; "C"; "B"; "D"; "A"; "C"; "B"; "A"; "D"; "C"; "B"; "A"; "D"; "C"; "B"; "A"; "D"; "C"; "B"; "A"]);
     ("SQL & Databases",
      ["B"; "A"; "C"; "D"; "B"; "A"; "C"; "B"; "D"; "A"; "C"; "B"; "D"; "A"; "B"; "C"; "D"; "A"; "B"; "C"])
    ]);
  ("D",
    [
     ("Data Analytics",
      ["D"; "A"; "B"; "C"; "D"; "A"; "B"; "D"; "C"; "A"; "B"; "D"; "C"; "A"; "B"; "D"; "C"; "A"; "B"; "D"]);
     ("Machine Learning",
      ["B"; "D"; "C"; "A"; "B"; "D"; "C"; "B"; "A"; "D"; "C"; "B"; "A"; "D"; "C"; "B"; "A"; "D"; "C"; "B"]);
     ("Statistics",
      ["A"; "C"; "B"; "D"; "A"; "C"; "B"; "A"; "D"; "C"; "B"; "A"; "D"; "C"; "B"; "A"; "D"; "C"; "B"; "A"]);
     ("Python Programming",
      ["C"; "B"; "A"; "D"; "C"; "B"; "A"; "C"; "D"; "B"; "A"; "C"; "D"; "B"; "A"; "C"; "D"; "B"; "A"; "C"]);
     ("SQL & Databases",
      ["B"; "A"; "C"; "D"; "B"; "A"; "C"; "B"; "D"; "A"; "C"; "B"; "D"; "A"; "B"; "C"; "D"; "A"; "B"; "C"])
    ])
].

(** [obj[key]] and [obj[key] = v] on the own properties of an object. *)
Fixpoint getProp {V : Type} (obj : list (string * V)) (key : string) : option V :=
  match obj with
  | [] => None
  | (k, v) :: rest => if String.eqb k key then Some v else getProp rest key
  end.

Fixpoint setProp {V : Type} (obj : list (string * V)) (key : string) (v : V)
  : list (string * V) :=
  match obj with
  | [] => [(key, v)]
  | (k, w) :: rest =>
      if String.eqb k key then (k, v) :: rest else (k, w) :: setProp rest key v
  end.

Module ScoringResult.
Record t : Type := mk {
  subjects : list (string * nat);
  totalScore : nat
}.
End ScoringResult.

(** [correctAnswers.forEach((correctAnswer, index) => ...)], entered at
    [index] with the score so far; [studentAnswers] is [None] when the sheet
    has no such subject, and reading an index of it throws. *)
Fixpoint forEachAnswer (correctAnswers : list string) (index : nat)
    (studentAnswers : option (list string)) (subjectScore : nat) : outcome nat :=
  match correctAnswers with
  | [] => Returned subjectScore
  | correctAnswer :: rest =>
      match studentAnswers with
      | None => Thrown TypeError
      | Some answers =>
          forEachAnswer rest (S index) studentAnswers
            (if bool_decide (answers !! index = Some correctAnswer)
             then S subjectScore else subjectScore)
      end
  end.

(** [Object.keys(answerKey).forEach(subject => ...)], over the properties of
    the key that are left, with the results and the total so far. *)
Fixpoint forEachSubject (answerKey : list (string * list string))
    (detectedAnswers : gmap string (list string))
    (results : list (string * nat)) (totalScore : nat)
  : outcome (list (string * nat) * nat) :=
  match answerKey with
  | [] => Returned (results, totalScore)
  | (subject, correctAnswers) :: rest =>
      let studentAnswers := detectedAnswers !! subject in
      let! subjectScore := forEachAnswer correctAnswers 0 studentAnswers 0%nat in
      forEachSubject rest detectedAnswers
        (setProp results subject subjectScore) (totalScore + subjectScore)%nat
  end.

Definition scoreAnswers (detectedAnswers : gmap string (list string))
    (examVersion : string) : outcome ScoringResult.t :=
  match getProp ANSWER_KEYS examVersion with
  | None => Thrown TypeError
  | Some answerKey =>
      let! scored := forEachSubject answerKey detectedAnswers [] 0%nat in
      Returned (ScoringResult.mk (fst scored) (snd scored))
  end.

(** The grade of the exports:
    [s >= 90 ? 'A' : s >= 80 ? 'B' : s >= 70 ? 'C' : s >= 60 ? 'D' : 'F']. *)
Definition grade (totalScore : nat) : string :=
  if (90 <=? totalScore)%nat then "A"
  else if (80 <=? totalScore)%nat then "B"
  else if (70 <=? totalScore)%nat then "C"
  else if (60 <=? totalScore)%nat then "D"
  else "F".

(** The score distribution of the analytics, over the total scores of the
    stored results. *)
Record ScoreRanges : Type := mkRanges {
  excellent : nat;       (* 'Excellent (90-100)' *)
  good : nat;            (* 'Good (80-89)' *)
  average : nat;         (* 'Average (70-79)' *)
  belowAverage : nat;    (* 'Below Average (60-69)' *)
  poor : nat             (* 'Poor (<60)' *)
}.

Definition scoreRanges (results : list nat) : ScoreRanges :=
  mkRanges
    (length (List.filter (fun r => (90 <=? r)%nat) results))
    (length (List.filter (fun r => (80 <=? r)%nat && (r <? 90)%nat) results))
    (length (List.filter (fun r => (70 <=? r)%nat && (r <? 80)%nat) results))
    (length (List.filter (fun r => (60 <=? r)%nat && (r <? 70)%nat) results))
    (length (List.filter (fun r => (r <? 60)%nat) results)).

(** The number of results the pass rate counts: [r.totalScore >= 60]. *)
Definition passed (results : list nat) : nat :=
  length (List.filter (fun r => (60 <=? r)%nat) results).

(** ** Vocabulary of the further properties *)

(** The bounds of the first pass. *)
Definition FirstBounds {Source ImageEl Mat Contour : Type}
    (cv : Toolkit Source ImageEl Mat Contour) (o : Options) (cnt : Contour) : Prop :=
  minAreaOf o <= contourArea cv cnt
  /\ contourArea cv cnt <= maxAreaOf o
  /\ 35 # 100 <= circularity cv cnt.

(** The contour vector the pipeline works on, for a loaded image. *)
Definition pipelineContours {Source ImageEl Mat Contour : Type}
    (cv : Toolkit Source ImageEl Mat Contour) (imgEl : ImageEl) : list Contour :=
  contoursOf cv (GaussianBlur cv (enhance cv (cvtColor cv (imread cv imgEl)))).

(** A bubble as the extraction left it, before classification. *)
Definition unclassified (b : Bubble.t) : Bubble.t :=
  Bubble.mk (Bubble.x b) (Bubble.y b) (Bubble.r b) (Bubble.contourIndex b) None None.

(** Scan order: top to bottom, and left to right at equal height. *)
Definition scanOrder (a b : Bubble.t) : Prop :=
  Bubble.y a < Bubble.y b \/ (Bubble.y a == Bubble.y b /\ Bubble.x a <= Bubble.x b).

(** A number between 0 and 1. *)
Definition inUnit (q : Q) : Prop := 0 <= q /\ q <= 1.

(** Every bubble of the row but the first joined it within the tolerance of
    the mean of those before it. *)
Definition JoinedWithin (tol : Q) (row : list Bubble.t) : Prop :=
  forall pre b post,
    row = pre ++ b :: post -> pre <> [] ->
    Qabs (Bubble.y b - avgY pre) <= tol.

(** The row [next] was opened by a bubble beyond the tolerance of the mean
    of the whole row [prev]. *)
Definition OpenedBeyond (tol : Q) (prev next : list Bubble.t) : Prop :=
  exists b rest, next = b :: rest /\ tol < Qabs (Bubble.y b - avgY prev).

(** The flag of a bubble says whether its fill ratio reaches [thr]. *)
Definition Flagged (thr : Q) (b : Bubble.t) : Prop :=
  Bubble.isFilled b = Some (Qle_bool thr (ratioOf b)).

(** A question selects nothing exactly when none of its options is flagged
    as filled; for a row that is not merged the options are its bubbles. *)
Definition FlagsAgree (o : Options) (row : list Bubble.t) (q : Question) : Prop :=
  exists opts,
    optionsInRow o (sortBy byX row) = Returned opts
    /\ (selected q = None <-> Forall (fun b => Bubble.isFilled b = Some false) opts)
    /\ (mustMerge o (sortBy byX row) = None ->
        (selected q = None <-> Forall (fun b => Bubble.isFilled b = Some false) row)).

(** The bubbles of [rest], standing at positions [i], [i+1], ... of a row of
    [n], that fall in group [k]. *)
Fixpoint membersFrom (E n k i : nat) (rest : list Bubble.t) : list Bubble.t :=
  match rest with
  | [] => []
  | b :: rest' =>
      if Nat.eqb (slotOf E n i) k
      then b :: membersFrom E n k (S i) rest'
      else membersFrom E n k (S i) rest'
  end.

(** The first position of group [k]: [k * n / E], rounded up. *)
Definition groupStart (E n k : nat) : nat := ((k * n + (E - 1)) / E)%nat.

(** A file the form lets through: at most 10 MB, of an accepted type. *)
Definition Acceptable (file : File.t) : Prop :=
  (File.size file <= 10485760)%N
  /\ includes ["image/jpeg"; "image/jpg"; "image/png"; "image/heic"]
       (toLowerCase (File.type file)) = true.

(** The same file, decoding to other dimensions or not decoding. *)
Definition withDimensions (file : File.t) (d : option (N * N)) : File.t :=
  File.mk (File.name file) (File.size file) (File.type file) d.

(** An entry of the selection is the verdict on its own file, and the file
    went through the [image/] filter. *)
Definition FreshVerdict (r : FileValidationResult.t) : Prop :=
  r = validateFile (FileValidationResult.file r)
  /\ String.prefix "image/" (File.type (FileValidationResult.file r)) = true.

(** The number of positions at which the sheet has the letter of the key. *)
Fixpoint agreements (correct student : list string) : nat :=
  match correct, student with
  | c :: correct', s :: student' =>
      ((if bool_decide (s = c) then 1 else 0) + agreements correct' student')%nat
  | _, _ => 0%nat
  end.

(** The letters of a subject on the sheet; none when the subject is missing. *)
Definition lettersOf (detectedAnswers : gmap string (list string)) (subject : string)
  : list string :=
  default [] (detectedAnswers !! subject).

(** The sheet has an array of letters for every subject of the key. *)
Definition Covers (detectedAnswers : gmap string (list string))
    (answerKey : list (string * list string)) : Prop :=
  forall subject correct,
    (subject, correct) ∈ answerKey -> is_Some (detectedAnswers !! subject).

(** The answer key of a version; empty for a version that has none. *)
Definition keyOf (examVersion : string) : list (string * list string) :=
  default [] (getProp ANSWER_KEYS examVersion).

(** What the scoring gives for a subject of the key: its name and the number
    of agreements of the sheet with it. *)
Definition scored (detectedAnswers : gmap string (list string))
    (entry : string * list string) : string * nat :=
  (fst entry, agreements (snd entry) (lettersOf detectedAnswers (fst entry))).

(** The versions the route lets through. *)
Definition knownVersion (examVersion : string) : Prop :=
  includes ["A"; "B"; "C"; "D"] examVersion = true.

(** The number of results with a given grade. *)
Definition graded (g : string) (results : list nat) : nat :=
  length (List.filter (fun r => String.eqb (grade r) g) results).

(** A decidable proposition on closed terms, settled by evaluation. *)
Ltac by_evaluation :=
  match goal with
  | |- ?P =>
      let H := fresh in
      assert (H : bool_decide P = true) by (vm_compute; reflexivity);
      exact (proj1 (bool_decide_eq_true P) H)
  end.

(** * Properties *)

(** ** Comparisons on numbers *)

Lemma Qltb_lt (a b : Q) : Qltb a b = true <-> a < b.
Proof.
  unfold Qltb. rewrite negb_true_iff.
  split; intros H.
  - apply Qnot_le_lt. intros Hle. apply Qle_bool_iff in Hle. congruence.
  - destruct (Qle_bool b a) eqn:E; [|reflexivity].
    apply Qle_bool_iff in E. exfalso. exact (Qlt_not_le _ _ H E).
Qed.

Lemma Qltb_ge (a b : Q) : Qltb a b = false <-> b <= a.
Proof.
  unfold Qltb. rewrite negb_false_iff. apply Qle_bool_iff.
Qed.

Lemma Qle_bool_lt (a b : Q) : Qle_bool a b = false <-> b < a.
Proof.
  rewrite <- Qltb_lt. unfold Qltb. rewrite negb_true_iff. reflexivity.
Qed.

Lemma Math_max_lub (a b : Q) : a <= Math_max a b /\ b <= Math_max a b.
Proof.
  unfold Math_max. destruct (Qle_bool a b) eqn:E.
  - apply Qle_bool_iff in E. split; [exact E | apply Qle_refl].
  - apply Qle_bool_lt in E. split; [apply Qle_refl | apply Qlt_le_weak, E].
Qed.

Lemma ofNat_pos (n : nat) : (0 < n)%nat -> 0 < ofNat n.
Proof.
  intros H. unfold ofNat. change 0 with (inject_Z 0). rewrite <- Zlt_Qlt. lia.
Qed.

Lemma ofNat_nonzero (n : nat) : (0 < n)%nat -> ~ ofNat n == 0.
Proof.
  intros H E. pose proof (ofNat_pos n H) as P. rewrite E in P.
  exact (Qlt_irrefl _ P).
Qed.

Lemma ofNat_nonneg (n : nat) : 0 <= ofNat n.
Proof.
  unfold ofNat. change 0 with (inject_Z 0). rewrite <- Zle_Qle. lia.
Qed.

Lemma ofNat_S (n : nat) : ofNat (S n) == ofNat n + 1.
Proof.
  unfold ofNat. rewrite Nat2Z.inj_succ. unfold Z.succ.
  rewrite inject_Z_plus. reflexivity.
Qed.

Lemma ofNat_le (m n : nat) : (m <= n)%nat -> ofNat m <= ofNat n.
Proof.
  intros H. unfold ofNat. rewrite <- Zle_Qle. lia.
Qed.

Lemma ofNat_lt (m n : nat) : (m < n)%nat <-> ofNat m < ofNat n.
Proof.
  unfold ofNat. rewrite <- Zlt_Qlt. lia.
Qed.

Lemma Qfloor_unique (q : Q) (z : Z) :
  inject_Z z <= q -> q < inject_Z (z + 1) -> Qfloor q = z.
Proof.
  intros Hlo Hhi.
  pose proof (Qfloor_le q) as Hfl. pose proof (Qlt_floor q) as Hfu.
  assert (H1 : (z < Qfloor q + 1)%Z).
  { rewrite Zlt_Qlt. eapply Qle_lt_trans; [exact Hlo | exact Hfu]. }
  assert (H2 : (Qfloor q < z + 1)%Z).
  { rewrite Zlt_Qlt. eapply Qle_lt_trans; [exact Hfl | exact Hhi]. }
  lia.
Qed.

Lemma Qfloor_shift (q : Q) (z : Z) : Qfloor (q + inject_Z z) = (Qfloor q + z)%Z.
Proof.
  pose proof (Qfloor_le q) as Hfl. pose proof (Qlt_floor q) as Hfu.
  apply Qfloor_unique.
  - rewrite inject_Z_plus. lra.
  - rewrite !inject_Z_plus in *. lra.
Qed.

(** ** The doubles *)

Lemma roundEven_cases (x : Q) :
  let f := Qfloor x in
  (roundEven x = f \/ roundEven x = (f + 1)%Z)
  /\ (x - inject_Z f < 1 # 2 -> roundEven x = f).
Proof.
  cbv zeta. unfold roundEven.
  destruct (Qcompare_spec (x - inject_Z (Qfloor x)) (1 # 2)) as [He|Hl|Hg].
  - split; [destruct (Z.even _); auto|]. intros H. rewrite He in H. discriminate H.
  - split; [auto | reflexivity].
  - split; [auto|]. intros H. exfalso. lra.
Qed.

Lemma roundEven_mono (x y : Q) : x <= y -> (roundEven x <= roundEven y)%Z.
Proof.
  intros Hxy.
  pose proof (Qfloor_resp_le x y Hxy) as Hf.
  destruct (roundEven_cases x) as (Hxc & _).
  destruct (roundEven_cases y) as (Hyc & _).
  destruct (Z.eq_dec (Qfloor x) (Qfloor y)) as [Heq|Hne].
  - unfold roundEven. rewrite <- Heq.
    destruct (Qcompare_spec (x - inject_Z (Qfloor x)) (1 # 2)) as [He|Hl|Hg];
      destruct (Qcompare_spec (y - inject_Z (Qfloor x)) (1 # 2)) as [He'|Hl'|Hg'];
      try lia; try (exfalso; lra); destruct (Z.even (Qfloor x)); lia.
  - assert ((Qfloor x + 1 <= Qfloor y)%Z) by lia.
    destruct Hxc as [-> | ->], Hyc as [-> | ->]; lia.
Qed.

Lemma roundEven_Z (z : Z) : roundEven (inject_Z z) = z.
Proof.
  destruct (roundEven_cases (inject_Z z)) as (_ & Hl).
  rewrite Qfloor_Z in Hl. apply Hl. ring_simplify. reflexivity.
Qed.

Lemma roundEven_comp (x y : Q) : x == y -> roundEven x = roundEven y.
Proof.
  intros H. apply Z.le_antisymm; apply roundEven_mono; rewrite H; apply Qle_refl.
Qed.

Lemma pow2_pos (k : Z) : 0 < 2 ^ k.
Proof. apply Qpower_0_lt. reflexivity. Qed.

Lemma pow2_le (j k : Z) : (j <= k)%Z -> 2 ^ j <= 2 ^ k.
Proof. intros H. apply Qpower_le_compat_l; [exact H | discriminate]. Qed.

Lemma pow2_add (j k : Z) : 2 ^ (j + k) == 2 ^ j * 2 ^ k.
Proof. apply Qpower_plus. discriminate. Qed.

Lemma pow2_Z (k : Z) : (0 <= k)%Z -> inject_Z (2 ^ k) == 2 ^ k.
Proof. intros H. rewrite Zpower_Qpower by exact H. reflexivity. Qed.

(** The binade of a positive number holds it. *)
Lemma binade_spec (x : Q) : 0 < x -> 2 ^ binade x <= x /\ x < 2 ^ (binade x + 1).
Proof.
  intros Hx. destruct x as [a b]. unfold binade. cbn [Qnum Qden].
  assert (Ha : (0 < a)%Z).
  { unfold Qlt in Hx. simpl in Hx. lia. }
  set (la := Z.log2 a). set (lb := Z.log2 (Z.pos b)).
  destruct (Z.log2_spec a Ha) as [Ha1 Ha2]. fold la in Ha1, Ha2.
  destruct (Z.log2_spec (Z.pos b) ltac:(lia)) as [Hb1 Hb2]. fold lb in Hb1, Hb2.
  assert (Hla : (0 <= la)%Z) by apply Z.log2_nonneg.
  assert (Hlb : (0 <= lb)%Z) by apply Z.log2_nonneg.
  assert (Hab : a # b == inject_Z a / inject_Z (Z.pos b)) by apply Qmake_Qdiv.
  assert (Hbpos : 0 < inject_Z (Z.pos b)) by reflexivity.
  assert (Hqa1 : 2 ^ la <= inject_Z a).
  { rewrite <- pow2_Z by exact Hla. rewrite <- Zle_Qle. exact Ha1. }
  assert (Hqa2 : inject_Z a < 2 ^ (la + 1)).
  { rewrite <- pow2_Z by lia. rewrite <- Zlt_Qlt. exact Ha2. }
  assert (Hqb1 : 2 ^ lb <= inject_Z (Z.pos b)).
  { rewrite <- pow2_Z by exact Hlb. rewrite <- Zle_Qle. exact Hb1. }
  assert (Hqb2 : inject_Z (Z.pos b) < 2 ^ (lb + 1)).
  { rewrite <- pow2_Z by lia. rewrite <- Zlt_Qlt. exact Hb2. }
  assert (Hup : a # b < 2 ^ (la - lb + 1)).
  { rewrite Hab. apply Qlt_shift_div_r; [exact Hbpos|].
    pose proof (pow2_add (la - lb + 1) lb) as Hsplit.
    replace (la - lb + 1 + lb)%Z with (la + 1)%Z in Hsplit by lia.
    pose proof (pow2_pos (la - lb + 1)) as Hp.
    set (R := 2 ^ (la - lb + 1)) in *. set (L := 2 ^ lb) in *.
    set (P := 2 ^ (la + 1)) in *. clearbody R L P.
    assert (R * L <= R * inject_Z (Z.pos b)).
    { apply Qmult_le_l; assumption. }
    lra. }
  assert (Hdown : 2 ^ (la - lb - 1) < a # b).
  { rewrite Hab. apply Qlt_shift_div_l; [exact Hbpos|].
    pose proof (pow2_add (la - lb - 1) (lb + 1)) as Hsplit.
    replace (la - lb - 1 + (lb + 1))%Z with la in Hsplit by lia.
    pose proof (pow2_pos (la - lb - 1)) as Hp.
    set (R := 2 ^ (la - lb - 1)) in *. set (L := 2 ^ (lb + 1)) in *.
    set (P := 2 ^ la) in *. clearbody R L P.
    assert (R * inject_Z (Z.pos b) < R * L).
    { apply Qmult_lt_l; assumption. }
    lra. }
  destruct (Qle_bool (2 ^ (la - lb)) (a # b)) eqn:Hle.
  - apply Qle_bool_iff in Hle. split; assumption.
  - split; [apply Qlt_le_weak, Hdown|].
    replace (la - lb - 1 + 1)%Z with (la - lb)%Z by lia.
    apply Qnot_le_lt. intros H. apply Qle_bool_iff in H. congruence.
Qed.

Lemma binade_unique (x : Q) (k : Z) : 2 ^ k <= x -> x < 2 ^ (k + 1) -> binade x = k.
Proof.
  intros Hlo Hhi.
  assert (Hx : 0 < x) by (eapply Qlt_le_trans; [apply (pow2_pos k) | exact Hlo]).
  destruct (binade_spec x Hx) as [Hlo' Hhi'].
  destruct (Z.lt_trichotomy (binade x) k) as [Hlt | [Heq | Hgt]]; [|exact Heq|].
  - exfalso. pose proof (pow2_le (binade x + 1) k ltac:(lia)). lra.
  - exfalso. pose proof (pow2_le (k + 1) (binade x) ltac:(lia)). lra.
Qed.

Lemma binade_mono (x y : Q) : 0 < x -> x <= y -> (binade x <= binade y)%Z.
Proof.
  intros Hx Hxy.
  destruct (binade_spec x Hx) as [Hlo Hhi].
  destruct (binade_spec y ltac:(lra)) as [Hlo' Hhi'].
  destruct (Z.le_gt_cases (binade x) (binade y)) as [H|H]; [exact H|].
  exfalso. pose proof (pow2_le (binade y + 1) (binade x) ltac:(lia)). lra.
Qed.

(** At the quantum of its binade a positive number has 53 bits before the
    point. *)
Lemma scaled_bounds (x : Q) :
  0 < x ->
  inject_Z (2 ^ 52) <= x / 2 ^ (binade x - 52) /\ x / 2 ^ (binade x - 52) <= inject_Z (2 ^ 53).
Proof.
  intros Hx. destruct (binade_spec x Hx) as [Hlo Hhi].
  pose proof (pow2_pos (binade x - 52)) as Hq.
  rewrite !pow2_Z by lia.
  split.
  - apply Qle_shift_div_l; [exact Hq|]. rewrite <- pow2_add.
    replace (52 + (binade x - 52))%Z with (binade x) by lia. exact Hlo.
  - apply Qle_shift_div_r; [exact Hq|]. rewrite <- pow2_add.
    replace (53 + (binade x - 52))%Z with (binade x + 1)%Z by lia. apply Qlt_le_weak, Hhi.
Qed.

Lemma nearest53_bounds (x : Q) :
  0 < x -> 2 ^ binade x <= nearest53 x /\ nearest53 x <= 2 ^ (binade x + 1).
Proof.
  intros Hx. destruct (scaled_bounds x Hx) as [Hlo Hhi].
  apply roundEven_mono in Hlo, Hhi. rewrite roundEven_Z in Hlo, Hhi.
  unfold nearest53. cbv zeta.
  set (m := roundEven _) in *. pose proof (pow2_pos (binade x - 52)) as Hq.
  rewrite Zle_Qle in Hlo, Hhi. rewrite !pow2_Z in Hlo, Hhi by lia.
  split.
  - replace (binade x) with (52 + (binade x - 52))%Z at 1 by lia. rewrite pow2_add.
    apply Qmult_le_compat_r; [exact Hlo | apply Qlt_le_weak, Hq].
  - replace (binade x + 1)%Z with (53 + (binade x - 52))%Z by lia. rewrite pow2_add.
    apply Qmult_le_compat_r; [exact Hhi | apply Qlt_le_weak, Hq].
Qed.

Lemma nearest53_mono (x y : Q) : 0 < x -> x <= y -> nearest53 x <= nearest53 y.
Proof.
  intros Hx Hxy. assert (Hy : 0 < y) by lra.
  pose proof (binade_mono x y Hx Hxy) as Hk.
  destruct (Z.eq_dec (binade x) (binade y)) as [Heq|Hne].
  - unfold nearest53. cbv zeta. rewrite <- Heq.
    pose proof (pow2_pos (binade x - 52)) as Hq.
    apply Qmult_le_compat_r; [|apply Qlt_le_weak, Hq].
    rewrite <- Zle_Qle. apply roundEven_mono.
    apply Qmult_le_compat_r; [exact Hxy|]. apply Qlt_le_weak, Qinv_lt_0_compat, Hq.
  - destruct (nearest53_bounds x Hx) as [_ Hhi].
    destruct (nearest53_bounds y Hy) as [Hlo _].
    pose proof (pow2_le (binade x + 1) (binade y) ltac:(lia)). lra.
Qed.

Lemma nearest53_pos (x : Q) : 0 < x -> 0 < nearest53 x.
Proof.
  intros Hx. destruct (nearest53_bounds x Hx) as [Hlo _].
  pose proof (pow2_pos (binade x)). lra.
Qed.

(** A number that is whole at its quantum is its own rounding. *)
Lemma nearest53_exact (x : Q) (m : Z) :
  0 < x -> x / 2 ^ (binade x - 52) == inject_Z m -> nearest53 x == x.
Proof.
  intros Hx Hm. unfold nearest53. cbv zeta.
  rewrite (roundEven_comp _ _ Hm), roundEven_Z, <- Hm.
  field. pose proof (pow2_pos (binade x - 52)). lra.
Qed.

Lemma double_cases (x : Q) :
  (x == 0 /\ double x = 0)
  \/ (0 < x /\ double x == nearest53 x)
  \/ (x < 0 /\ double x == - nearest53 (- x)).
Proof.
  unfold double. destruct (Qcompare_spec x 0) as [H|H|H].
  - left. auto.
  - right. right. split; [exact H | apply Qred_correct].
  - right. left. split; [exact H | apply Qred_correct].
Qed.

(** Rounding keeps the order. *)
Lemma double_mono (x y : Q) : x <= y -> double x <= double y.
Proof.
  intros Hxy.
  destruct (double_cases x) as [[Hx ->] | [[Hx ->] | [Hx ->]]];
    destruct (double_cases y) as [[Hy ->] | [[Hy ->] | [Hy ->]]];
    try (exfalso; lra).
  - apply Qle_refl.
  - apply Qlt_le_weak, nearest53_pos, Hy.
  - apply nearest53_mono; assumption.
  - pose proof (nearest53_pos (- x) ltac:(lra)). lra.
  - pose proof (nearest53_pos (- x) ltac:(lra)). pose proof (nearest53_pos y Hy). lra.
  - pose proof (nearest53_mono (- y) (- x) ltac:(lra) ltac:(lra)). lra.
Qed.

Lemma double_comp (x y : Q) : x == y -> double x == double y.
Proof.
  intros H. apply Qle_antisym; apply double_mono; rewrite H; apply Qle_refl.
Qed.

Lemma double_nonneg (x : Q) : 0 <= x -> 0 <= double x.
Proof. intros H. apply (double_mono 0 x H). Qed.

Lemma double_unit (x : Q) : 0 <= x -> x <= 1 -> 0 <= double x /\ double x <= 1.
Proof.
  intros H0 H1. split; [apply double_nonneg, H0|].
  apply Qle_trans with (double 1); [apply double_mono, H1 | apply Qle_refl].
Qed.

(** The whole numbers up to [2^53] are doubles. *)
Lemma double_int (z : Z) : (0 <= z <= 2 ^ 53)%Z -> double (inject_Z z) == inject_Z z.
Proof.
  intros [Hlo Hhi].
  destruct (Z.eq_dec z 0%Z) as [->|Hz0]; [reflexivity|].
  destruct (Z.eq_dec z (2 ^ 53)%Z) as [->|Hz53]; [vm_compute; reflexivity|].
  assert (Hz : (0 < z)%Z) by lia.
  assert (Hq : 0 < inject_Z z) by (change 0 with (inject_Z 0); rewrite <- Zlt_Qlt; exact Hz).
  destruct (double_cases (inject_Z z)) as [[H _] | [[_ ->] | [H _]]]; try (exfalso; lra).
  destruct (Z.log2_spec z Hz) as [Hl1 Hl2].
  pose proof (Z.log2_nonneg z) as Hl0.
  assert (Hl : (Z.log2 z <= 52)%Z).
  { apply Z.lt_succ_r. apply (Z.pow_lt_mono_r_iff 2); [lia | lia |].
    change (Z.succ 52) with 53%Z. lia. }
  assert (Hb : binade (inject_Z z) = Z.log2 z).
  { apply binade_unique.
    - rewrite <- pow2_Z by exact Hl0. rewrite <- Zle_Qle. exact Hl1.
    - rewrite <- pow2_Z by lia. rewrite <- Zlt_Qlt. exact Hl2. }
  apply (nearest53_exact _ (z * 2 ^ (52 - Z.log2 z))%Z Hq).
  rewrite Hb, inject_Z_mult, pow2_Z by lia.
  replace (Z.log2 z - 52)%Z with (- (52 - Z.log2 z))%Z by lia.
  rewrite Qpower_opp. field.
  pose proof (pow2_pos (52 - Z.log2 z)). lra.
Qed.

(** Past [2^53] the whole numbers are two apart: [2^53 + 1] goes down. *)
Lemma double_tie : double (inject_Z (2 ^ 53) + 1) == inject_Z (2 ^ 53).
Proof. vm_compute. reflexivity. Qed.

(** A rounded sum of [m] numbers between 0 and 1 is between 0 and [m]. *)
Lemma roundedSum_bounds (l : list Q) :
  Forall (fun q => 0 <= q /\ q <= 1) l ->
  forall (s : Q) (m : nat),
    0 <= s -> s <= ofNat m -> s <= inject_Z (2 ^ 53) ->
    let total := fold_left (fun s ratio => double (s + ratio)) l s in
    0 <= total /\ total <= ofNat (m + length l) /\ total <= inject_Z (2 ^ 53).
Proof.
  induction 1 as [|q l [Hq0 Hq1] _ IH]; intros s m Hs0 Hsm Hs53; cbn [fold_left length].
  - cbv zeta. rewrite Nat.add_0_r. auto.
  - replace (m + S (length l))%nat with (S m + length l)%nat by lia.
    apply IH.
    + apply double_nonneg. lra.
    + destruct (Z.le_gt_cases (Z.of_nat (S m)) (2 ^ 53)) as [Hsmall|Hbig].
      * rewrite <- (double_int (Z.of_nat (S m))) by lia.
        apply double_mono. fold (ofNat (S m)). rewrite ofNat_S. lra.
      * apply Qle_trans with (inject_Z (2 ^ 53)).
        -- rewrite <- double_tie. apply double_mono. lra.
        -- unfold ofNat. rewrite <- Zle_Qle. lia.
    + destruct (Qlt_le_dec s (inject_Z (2 ^ 53) - 1)) as [Hlt|Hge].
      * rewrite <- (double_int (2 ^ 53)) by lia. apply double_mono. lra.
      * rewrite <- double_tie. apply double_mono. lra.
Qed.

(** ** The argmax loop *)

Lemma argmaxLoop_inv (rest : list Q) :
  forall (pre : list Q) (st : Z * Q),
    argmaxInv pre st ->
    argmaxInv (pre ++ rest) (argmaxLoop (Z.of_nat (length pre)) rest st).
Proof.
  induction rest as [|s rest IH]; intros pre st Hinv; simpl.
  - rewrite app_nil_r. exact Hinv.
  - replace (pre ++ s :: rest) with ((pre ++ [s]) ++ rest)
      by (rewrite <- app_assoc; reflexivity).
    replace (Z.of_nat (length pre) + 1)%Z with (Z.of_nat (length (pre ++ [s])))
      by (rewrite length_app; simpl; lia).
    apply IH.
    destruct (Qltb (snd st) s) eqn:Hcmp.
    + (* the new score beats the state *)
      apply Qltb_lt in Hcmp. right. simpl.
      rewrite Nat2Z.id. split; [lia|]. split.
      { rewrite lookup_app_r by lia. rewrite Nat.sub_diag. reflexivity. }
      assert (Hold : forall j t, pre !! j = Some t -> t <= snd st).
      { destruct Hinv as [(_ & Hm & Hall) | (_ & _ & Hall & _)].
        - intros j t Hj. rewrite Hm. eauto.
        - exact Hall. }
      split.
      * intros j t Hj. apply lookup_app_Some in Hj as [Hj | [Hlen Hj]].
        -- apply Qlt_le_weak. eapply Qle_lt_trans; [eapply Hold, Hj | exact Hcmp].
        -- apply list_lookup_singleton_Some in Hj as [_ <-]. apply Qle_refl.
      * intros j t Hj Hlt. apply lookup_app_Some in Hj as [Hj | [Hlen Hj]]; [|lia].
        eapply Qle_lt_trans; [eapply Hold, Hj | exact Hcmp].
    + (* the state stands *)
      apply Qltb_ge in Hcmp.
      destruct Hinv as [(Hi & Hm & Hall) | (Hi & Hat & Hall & Hfirst)].
      * left. repeat split; try assumption.
        intros j t Hj. apply lookup_app_Some in Hj as [Hj | [Hlen Hj]]; [eauto|].
        apply list_lookup_singleton_Some in Hj as [_ <-]. rewrite <- Hm. exact Hcmp.
      * right. split; [assumption|]. split.
        { apply lookup_app_l_Some. exact Hat. }
        split.
        -- intros j t Hj. apply lookup_app_Some in Hj as [Hj | [Hlen Hj]]; [eauto|].
           apply list_lookup_singleton_Some in Hj as [_ <-]. exact Hcmp.
        -- intros j t Hj Hlt. apply lookup_app_Some in Hj as [Hj | [Hlen Hj]]; [eauto|].
           apply lookup_lt_Some in Hat. lia.
Qed.

Lemma argmax_inv (scs : list Q) : argmaxInv scs (argmax scs).
Proof.
  unfold argmax. apply (argmaxLoop_inv scs []).
  left. simpl. repeat split; try reflexivity. intros j s Hj. discriminate Hj.
Qed.

(** With at least one score and none below zero, the loop leaves its
    initial state. *)
Lemma argmax_found (scs : list Q) :
  scs <> [] -> Forall (fun s => 0 <= s) scs ->
  (0 <= fst (argmax scs))%Z /\ scs !! Z.to_nat (fst (argmax scs)) = Some (snd (argmax scs))
  /\ (forall j s, scs !! j = Some s -> s <= snd (argmax scs))
  /\ (forall j s, scs !! j = Some s -> (j < Z.to_nat (fst (argmax scs)))%nat
                  -> s < snd (argmax scs)).
Proof.
  intros Hne Hpos.
  destruct (argmax_inv scs) as [(_ & _ & Hall) | H]; [|exact H].
  exfalso. destruct scs as [|s scs]; [congruence|].
  apply Forall_cons in Hpos as [Hs _].
  specialize (Hall 0%nat s eq_refl).
  assert (Hneg : (-1 # 1) < 0) by reflexivity.
  exact (Qlt_irrefl _ (Qle_lt_trans _ _ _ (Qle_trans _ _ _ Hs Hall) Hneg)).
Qed.

Lemma selectOption_rule (thr : Q) (scs : list Q) :
  scs <> [] -> Forall (fun s => 0 <= s) scs ->
  SelectionRule thr scs (selectOption thr scs).
Proof.
  intros Hne Hpos.
  destruct (argmax_found scs Hne Hpos) as (Hi & Hat & Hall & Hfirst).
  unfold selectOption. destruct (argmax scs) as [maxIdx maxScore]. simpl in *.
  destruct (Qle_bool thr maxScore) eqn:Hthr; simpl.
  - apply Qle_bool_iff in Hthr. split; [exact Hi|].
    exists maxScore. auto.
  - apply Qle_bool_lt in Hthr. intros j s Hj.
    eapply Qle_lt_trans; [eapply Hall, Hj | exact Hthr].
Qed.

Lemma selectOption_in_range (thr : Q) (scs : list Q) (i : Z) :
  scs <> [] -> Forall (fun s => 0 <= s) scs ->
  selectOption thr scs = Some i -> (0 <= i < Z.of_nat (length scs))%Z.
Proof.
  intros Hne Hpos Hsel.
  pose proof (selectOption_rule thr scs Hne Hpos) as Hrule.
  rewrite Hsel in Hrule. destruct Hrule as (Hi & m & Hat & _).
  apply lookup_lt_Some in Hat. lia.
Qed.

(** A selection made at one threshold is dropped at any threshold above the
    selected score. *)
Lemma selectOption_raise (thr thr' : Q) (scs : list Q) (i : Z) (s : Q) :
  selectOption thr scs = Some i -> (0 <= i)%Z -> scs !! Z.to_nat i = Some s ->
  s < thr' -> selectOption thr' scs = None.
Proof.
  unfold selectOption. intros Hsel Hi Hat Hlt.
  pose proof (argmax_inv scs) as Hinv.
  destruct (argmax scs) as [maxIdx maxScore]. simpl in *.
  destruct (Qle_bool thr maxScore); [|discriminate].
  injection Hsel as ->.
  destruct Hinv as [(Hneg & _) | (_ & Hat' & _)]; simpl in *; [lia|].
  rewrite Hat in Hat'. injection Hat' as ->.
  apply Qle_bool_lt in Hlt. rewrite Hlt. reflexivity.
Qed.

(** ** Sorting *)

Lemma insertBy_perm cmp (a : Bubble.t) (l : list Bubble.t) :
  insertBy cmp a l ≡ₚ a :: l.
Proof.
  induction l as [|b l IH]; simpl; [reflexivity|].
  destruct (Qltb 0 (cmp a b)); [|reflexivity].
  rewrite IH. apply Permutation_swap.
Qed.

Lemma sortBy_perm cmp (l : list Bubble.t) : sortBy cmp l ≡ₚ l.
Proof.
  induction l as [|a l IH]; simpl; [reflexivity|].
  rewrite insertBy_perm, IH. reflexivity.
Qed.

Lemma sortBy_length cmp (l : list Bubble.t) : length (sortBy cmp l) = length l.
Proof. apply Permutation_length, sortBy_perm. Qed.

Lemma byX_consistent : Consistent byX.
Proof.
  split; unfold byX; intros.
  - ring.
  - split; intros H; lra.
  - lra.
Qed.

Lemma Qeq_bool_cases (d : Q) :
  (Qeq_bool d 0 = true /\ d == 0) \/ (Qeq_bool d 0 = false /\ ~ d == 0).
Proof.
  destruct (Qeq_bool d 0) eqn:E.
  - left. split; [reflexivity|]. apply Qeq_bool_iff, E.
  - right. split; [reflexivity|]. apply Qeq_bool_neq, E.
Qed.

Lemma byYthenX_consistent : Consistent byYthenX.
Proof.
  split; unfold byYthenX; cbv zeta.
  - intros a.
    destruct (Qeq_bool_cases (Bubble.y a - Bubble.y a)) as [[-> _] | [_ E]]; [ring|].
    exfalso. apply E. ring.
  - intros a b.
    destruct (Qeq_bool_cases (Bubble.y a - Bubble.y b)) as [[-> Eab] | [-> Eab]];
      destruct (Qeq_bool_cases (Bubble.y b - Bubble.y a)) as [[-> Eba] | [-> Eba]];
      try (exfalso; apply Eab; lra); try (exfalso; apply Eba; lra);
      split; intros H; lra.
  - intros a b c.
    destruct (Qeq_bool_cases (Bubble.y a - Bubble.y b)) as [[-> Eab] | [-> Eab]];
      destruct (Qeq_bool_cases (Bubble.y b - Bubble.y c)) as [[-> Ebc] | [-> Ebc]];
      destruct (Qeq_bool_cases (Bubble.y a - Bubble.y c)) as [[-> Eac] | [-> Eac]];
      intros H1 H2; try lra;
      exfalso; first [apply Eab; lra | apply Ebc; lra | apply Eac; lra].
Qed.

Lemma StronglySorted_weaken {A} (R R' : A -> A -> Prop) (l : list A) :
  (forall a b, R a b -> R' a b) -> StronglySorted R l -> StronglySorted R' l.
Proof.
  intros HR. induction 1 as [|a l Hl IH Ha]; constructor; [exact IH|].
  eapply Forall_impl; [exact Ha|]. intros b. apply HR.
Qed.

Section SortFacts.
Variable cmp : Bubble.t -> Bubble.t -> Q.
Hypothesis Hcmp : Consistent cmp.

Lemma tied_true (a b : Bubble.t) : tied cmp a b = true <-> cmp a b == 0.
Proof. unfold tied. apply Qeq_bool_iff. Qed.

Lemma tied_self (a : Bubble.t) : tied cmp a a = true.
Proof using Hcmp. apply tied_true, (cmp_refl cmp Hcmp). Qed.

(** Two bubbles tied with a third do not come one after the other. *)
Lemma tied_notAfter (c a b : Bubble.t) :
  tied cmp c a = true -> tied cmp c b = true -> cmp a b <= 0.
Proof using Hcmp.
  intros Ha Hb. apply tied_true in Ha, Hb.
  apply (cmp_trans cmp Hcmp a c b).
  - apply (cmp_flip cmp Hcmp). rewrite Ha. apply Qle_refl.
  - rewrite Hb. apply Qle_refl.
Qed.

Lemma insertBy_sorted (a : Bubble.t) (l : list Bubble.t) :
  StronglySorted (notAfter cmp) l -> StronglySorted (notAfter cmp) (insertBy cmp a l).
Proof using Hcmp.
  induction 1 as [|b l Hl IH Hb]; simpl.
  - repeat constructor.
  - destruct (Qltb 0 (cmp a b)) eqn:Hab.
    + apply Qltb_lt in Hab.
      assert (Hba : notAfter cmp b a).
      { apply (cmp_flip cmp Hcmp). apply Qlt_le_weak, Hab. }
      constructor; [exact IH|].
      rewrite insertBy_perm. constructor; assumption.
    + apply Qltb_ge in Hab.
      constructor; [constructor; assumption|].
      constructor; [exact Hab|].
      eapply Forall_impl; [exact Hb|].
      intros c Hc. exact (cmp_trans cmp Hcmp a b c Hab Hc).
Qed.

Lemma sortBy_sorted (l : list Bubble.t) : StronglySorted (notAfter cmp) (sortBy cmp l).
Proof using Hcmp.
  induction l as [|a l IH]; simpl; [constructor|].
  apply insertBy_sorted, IH.
Qed.

Lemma insertBy_stable (c a : Bubble.t) (l : list Bubble.t) :
  List.filter (tied cmp c) (insertBy cmp a l) = List.filter (tied cmp c) (a :: l).
Proof using Hcmp.
  induction l as [|b l IH]; [reflexivity|].
  cbn [insertBy]. destruct (Qltb 0 (cmp a b)) eqn:Hab; [|reflexivity].
  apply Qltb_lt in Hab.
  cbn [List.filter] in *. rewrite IH.
  destruct (tied cmp c b) eqn:Hb; destruct (tied cmp c a) eqn:Ha; try reflexivity.
  exfalso. pose proof (tied_notAfter c a b Ha Hb) as Hle.
  exact (Qlt_irrefl _ (Qlt_le_trans _ _ _ Hab Hle)).
Qed.

Lemma sortBy_stable (c : Bubble.t) (l : list Bubble.t) :
  List.filter (tied cmp c) (sortBy cmp l) = List.filter (tied cmp c) l.
Proof using Hcmp.
  induction l as [|a l IH]; [reflexivity|].
  cbn [sortBy]. rewrite insertBy_stable. cbn [List.filter]. rewrite IH. reflexivity.
Qed.

(** The head of an ordered list does not come after any of its bubbles. *)
Lemma head_notAfter (h : Bubble.t) (t : list Bubble.t) (b : Bubble.t) :
  StronglySorted (notAfter cmp) (h :: t) -> In b (h :: t) -> cmp h b <= 0.
Proof using Hcmp.
  intros Hs Hin. apply StronglySorted_inv in Hs as [_ Hall].
  destruct Hin as [<- | Hin].
  - rewrite (cmp_refl cmp Hcmp). apply Qle_refl.
  - rewrite Forall_forall in Hall. apply Hall, list_elem_of_In, Hin.
Qed.

(** Order and stability leave one result. *)
Lemma stable_sorted_unique (l1 : list Bubble.t) :
  forall l2,
    StronglySorted (notAfter cmp) l1 -> StronglySorted (notAfter cmp) l2 ->
    (forall a, List.filter (tied cmp a) l1 = List.filter (tied cmp a) l2) ->
    l1 = l2.
Proof using Hcmp.
  induction l1 as [|h1 t1 IH]; intros [|h2 t2] Hs1 Hs2 Hsame; [reflexivity| | |].
  - specialize (Hsame h2). cbn [List.filter] in Hsame.
    rewrite tied_self in Hsame. discriminate Hsame.
  - specialize (Hsame h1). cbn [List.filter] in Hsame.
    rewrite tied_self in Hsame. discriminate Hsame.
  - assert (H12 : cmp h1 h2 <= 0).
    { apply (head_notAfter h1 t1 h2 Hs1).
      pose proof (Hsame h2) as E. cbn [List.filter] in E.
      rewrite (tied_self h2) in E.
      assert (Hin : In h2 (List.filter (tied cmp h2) (h1 :: t1))).
      { cbn [List.filter]. rewrite E. left. reflexivity. }
      apply filter_In in Hin as [Hin _]. exact Hin. }
    assert (H21 : cmp h2 h1 <= 0).
    { apply (head_notAfter h2 t2 h1 Hs2).
      pose proof (Hsame h1) as E. cbn [List.filter] in E.
      rewrite (tied_self h1) in E.
      assert (Hin : In h1 (List.filter (tied cmp h1) (h2 :: t2))).
      { cbn [List.filter]. rewrite <- E. left. reflexivity. }
      apply filter_In in Hin as [Hin _]. exact Hin. }
    assert (Htie : tied cmp h1 h2 = true).
    { apply tied_true. apply Qle_antisym; [exact H12|].
      apply (cmp_flip cmp Hcmp). exact H21. }
    pose proof (Hsame h1) as E. cbn [List.filter] in E.
    rewrite (tied_self h1), Htie in E. injection E as <- _.
    f_equal. apply IH.
    + apply StronglySorted_inv in Hs1 as [Hs1 _]. exact Hs1.
    + apply StronglySorted_inv in Hs2 as [Hs2 _]. exact Hs2.
    + intros a. specialize (Hsame a). cbn [List.filter] in Hsame.
      destruct (tied cmp a h1); [injection Hsame as Hsame|]; exact Hsame.
Qed.

Lemma insertBehind_perm (a : Bubble.t) (l : list Bubble.t) :
  insertBehind cmp a l ≡ₚ a :: l.
Proof.
  induction l as [|b l IH]; simpl; [reflexivity|].
  destruct (Qltb 0 (cmp b a)); [reflexivity|].
  rewrite IH. apply Permutation_swap.
Qed.

Lemma insertBehind_sorted (a : Bubble.t) (l : list Bubble.t) :
  StronglySorted (notAfter cmp) l -> StronglySorted (notAfter cmp) (insertBehind cmp a l).
Proof using Hcmp.
  induction 1 as [|b l Hl IH Hb]; simpl.
  - repeat constructor.
  - destruct (Qltb 0 (cmp b a)) eqn:Hba.
    + apply Qltb_lt in Hba.
      assert (Hab : notAfter cmp a b).
      { apply (cmp_flip cmp Hcmp). apply Qlt_le_weak, Hba. }
      constructor; [constructor; assumption|].
      constructor; [exact Hab|].
      eapply Forall_impl; [exact Hb|].
      intros c Hc. exact (cmp_trans cmp Hcmp a b c Hab Hc).
    + apply Qltb_ge in Hba.
      constructor; [exact IH|].
      rewrite insertBehind_perm. constructor; assumption.
Qed.

Lemma insertBehind_stable (c a : Bubble.t) (l : list Bubble.t) :
  StronglySorted (notAfter cmp) l ->
  List.filter (tied cmp c) (insertBehind cmp a l) = List.filter (tied cmp c) (l ++ [a]).
Proof using Hcmp.
  induction 1 as [|b l Hl IH Hb]; [reflexivity|].
  cbn [insertBehind]. destruct (Qltb 0 (cmp b a)) eqn:Hba.
  - apply Qltb_lt in Hba. rewrite List.filter_app.
    cbn [List.filter]. destruct (tied cmp c a) eqn:Ha.
    + assert (Hnone : forall d, In d (b :: l) -> tied cmp c d = false).
      { intros d Hd. destruct (tied cmp c d) eqn:Htd; [|reflexivity]. exfalso.
        assert (Hbd : cmp b d <= 0).
        { apply (head_notAfter b l d); [constructor; assumption | exact Hd]. }
        pose proof (tied_notAfter c d a Htd Ha) as Hda.
        pose proof (cmp_trans cmp Hcmp b d a Hbd Hda) as Hle.
        exact (Qlt_irrefl _ (Qlt_le_trans _ _ _ Hba Hle)). }
      assert (Hnil : List.filter (tied cmp c) (b :: l) = []).
      { clear -Hnone. induction (b :: l) as [|d l' IH']; [reflexivity|].
        cbn [List.filter]. rewrite (Hnone d ltac:(left; reflexivity)).
        apply IH'. intros e He. apply Hnone. right. exact He. }
      cbn [List.filter] in Hnil. rewrite Hnil. reflexivity.
    + rewrite app_nil_r. reflexivity.
  - cbn [app List.filter]. rewrite IH. reflexivity.
Qed.

Lemma sortFromLeft_from (c : Bubble.t) (l : list Bubble.t) :
  forall placed,
    StronglySorted (notAfter cmp) placed ->
    StronglySorted (notAfter cmp)
      (fold_left (fun placed a => insertBehind cmp a placed) l placed)
    /\ List.filter (tied cmp c)
         (fold_left (fun placed a => insertBehind cmp a placed) l placed)
       = List.filter (tied cmp c) (placed ++ l).
Proof using Hcmp.
  induction l as [|a l IH]; intros placed Hs; cbn [fold_left].
  - rewrite app_nil_r. auto.
  - destruct (IH (insertBehind cmp a placed) (insertBehind_sorted a placed Hs))
      as [Hs' Hf].
    split; [exact Hs'|].
    rewrite Hf, !List.filter_app, (insertBehind_stable c a placed Hs), List.filter_app.
    rewrite <- app_assoc. f_equal.
    cbn [List.filter app]. destruct (tied cmp c a); reflexivity.
Qed.

End SortFacts.

Lemma sortFromLeft_StableSort : StableSort sortFromLeft.
Proof.
  split; intros cmp l; [|intros a]; intros Hcmp; unfold sortFromLeft.
  - apply (sortFromLeft_from cmp Hcmp (Bubble.mk 0 0 0 0 None None) l []). constructor.
  - apply (sortFromLeft_from cmp Hcmp a l []). constructor.
Qed.

Lemma sortBy_StableSort : StableSort sortBy.
Proof.
  split; intros cmp l; [|intros a]; intros Hcmp.
  - apply sortBy_sorted, Hcmp.
  - apply sortBy_stable, Hcmp.
Qed.

(** Whatever the engine's sort, it returns what [sortBy] returns. *)
Lemma engine_sort (sort : ArraySort) cmp (l : list Bubble.t) :
  StableSort sort -> Consistent cmp -> sort cmp l = sortBy cmp l.
Proof.
  intros Hsort Hcmp. apply (stable_sorted_unique cmp Hcmp).
  - apply (sort_ordered sort Hsort), Hcmp.
  - apply sortBy_sorted, Hcmp.
  - intros a. rewrite (sort_stable sort Hsort cmp l a Hcmp), sortBy_stable; auto.
Qed.

Lemma sortBy_byX_sorted (l : list Bubble.t) : StronglySorted leX (sortBy byX l).
Proof.
  apply (StronglySorted_weaken (notAfter byX)); [|apply sortBy_sorted, byX_consistent].
  intros a b. unfold notAfter, byX, leX. lra.
Qed.

(** ** The positional partition *)

(** *** Whole counts *)

Lemma slot_lt (E n i : nat) : (i < n)%nat -> (0 < E)%nat -> (slotOf E n i < E)%nat.
Proof.
  intros Hi HE. unfold slotOf. apply Nat.Div0.div_lt_upper_bound. nia.
Qed.

Lemma slot_mono (E n i j : nat) : (i <= j)%nat -> (slotOf E n i <= slotOf E n j)%nat.
Proof.
  intros Hij. unfold slotOf. apply Nat.Div0.div_le_mono. nia.
Qed.

Lemma slot_onto (E n k : nat) :
  (0 < E)%nat -> (E <= n)%nat -> (k < E)%nat ->
  exists i, (i < n)%nat /\ slotOf E n i = k.
Proof.
  intros HE Hn Hk. unfold slotOf.
  exists ((k * n + (E - 1)) / E)%nat.
  assert (Hlo : (k * n <= (k * n + (E - 1)) / E * E)%nat).
  { pose proof (Nat.div_mod (k * n + (E - 1)) E ltac:(lia)) as Hd.
    pose proof (Nat.mod_upper_bound (k * n + (E - 1)) E ltac:(lia)) as Hm.
    nia. }
  assert (Hhi : ((k * n + (E - 1)) / E * E <= k * n + (E - 1))%nat).
  { rewrite Nat.mul_comm. apply Nat.Div0.mul_div_le. }
  split.
  - apply Nat.Div0.div_lt_upper_bound. nia.
  - symmetry.
    apply Nat.div_unique with (r := ((k * n + (E - 1)) / E * E - k * n)%nat); nia.
Qed.

(** For a whole count the index the code computes is the quotient in
    naturals. *)
Lemma slot_count (E n i : nat) : slot (ofNat E) n i = Z.of_nat (slotOf E n i).
Proof.
  unfold slot, slotOf, ofNat.
  rewrite Nat2Z.inj_div, Nat2Z.inj_mul, Zdiv_Qdiv.
  apply Qfloor_comp. rewrite inject_Z_mult. reflexivity.
Qed.

Lemma emptyGroups_count (E : nat) : emptyGroups (ofNat E) = replicate E [].
Proof.
  unfold emptyGroups, ofNat. rewrite Qfloor_Z, Nat2Z.id. reflexivity.
Qed.

(** *** Any count *)

Lemma slot_scaled (E : Q) (n i : nat) :
  0 <= E -> 0 <= ofNat i * E / ofNat n.
Proof.
  intros HE. pose proof (ofNat_nonneg i) as Hi. pose proof (ofNat_nonneg n) as Hn.
  apply Qmult_le_0_compat; [apply Qmult_le_0_compat; assumption|].
  apply Qinv_le_0_compat, Hn.
Qed.

Lemma slot_nonneg (E : Q) (n i : nat) : 0 <= E -> (0 <= slot E n i)%Z.
Proof.
  intros HE. unfold slot.
  change 0%Z with (Qfloor 0). apply Qfloor_resp_le, slot_scaled, HE.
Qed.

Lemma slot_le (E : Q) (n i j : nat) :
  0 <= E -> (i <= j)%nat -> (slot E n i <= slot E n j)%Z.
Proof.
  intros HE Hij. unfold slot. apply Qfloor_resp_le.
  pose proof (ofNat_nonneg n) as Hn. apply Qinv_le_0_compat in Hn.
  apply Qmult_le_compat_r; [|exact Hn].
  apply Qmult_le_compat_r; [apply ofNat_le, Hij | exact HE].
Qed.

Lemma slot_0 (E : Q) (n : nat) : slot E n 0 = 0%Z.
Proof.
  unfold slot. change (ofNat 0) with 0.
  rewrite (Qfloor_comp (0 * E / ofNat n) 0); [reflexivity|].
  unfold Qdiv. rewrite !Qmult_0_l. reflexivity.
Qed.

(** A count that is at most the length of the row moves the index by at
    most one from a position to the next. *)
Lemma slot_step (E : Q) (n i : nat) :
  0 <= E -> E <= ofNat n -> (slot E n (S i) <= slot E n i + 1)%Z.
Proof.
  intros HE Hn. unfold slot.
  rewrite <- Qfloor_shift. apply Qfloor_resp_le.
  pose proof (ofNat_nonneg n) as Hn0.
  destruct (Qle_lt_or_eq _ _ Hn0) as [Hpos|Hzero].
  - rewrite ofNat_S. change (inject_Z 1) with 1.
    assert (Hq : E / ofNat n <= 1).
    { apply Qle_shift_div_r; [exact Hpos | lra]. }
    assert (Heq : (ofNat i + 1) * E / ofNat n == ofNat i * E / ofNat n + E / ofNat n)
      by (field; lra).
    rewrite Heq. lra.
  - assert (HE0 : E == 0) by lra.
    rewrite HE0. unfold Qdiv. rewrite !Qmult_0_r, !Qmult_0_l. discriminate.
Qed.

(** The last position falls in the last group or past it. *)
Lemma slot_last (E : Q) (n : nat) :
  0 <= E -> E <= ofNat (S n) -> (Qfloor E - 1 <= slot E (S n) n)%Z.
Proof.
  intros HE Hn. unfold slot.
  replace (Qfloor E - 1)%Z with (Qfloor E + (-1))%Z by lia.
  rewrite <- Qfloor_shift. apply Qfloor_resp_le.
  pose proof (ofNat_pos (S n) ltac:(lia)) as Hpos.
  change (inject_Z (-1)) with (- (1)).
  apply Qle_shift_div_l; [exact Hpos|].
  rewrite ofNat_S in *. pose proof (ofNat_nonneg n) as Hn0. nra.
Qed.

(** Every group up to the one of position [m] is the group of some position
    up to [m]. *)
Lemma slot_reaches (E : Q) (n : nat) (k : Z) :
  0 <= E -> E <= ofNat n ->
  forall m, (0 <= k <= slot E n m)%Z -> exists i, (i <= m)%nat /\ slot E n i = k.
Proof.
  intros HE Hn. induction m as [|m IH]; intros [Hk0 Hkm].
  - rewrite slot_0 in Hkm. exists 0%nat. rewrite slot_0. split; lia.
  - destruct (Z.le_gt_cases k (slot E n m)) as [Hle|Hgt].
    + destruct (IH (conj Hk0 Hle)) as (i & Hi & Hslot). exists i. split; [lia | exact Hslot].
    + pose proof (slot_step E n m HE Hn). exists (S m). split; lia.
Qed.

Lemma concat_all_nil (G : list (list Bubble.t)) :
  (forall k, (k < length G)%nat -> G !! k = Some []) -> concat G = [].
Proof.
  induction G as [|g G IH]; intros H; [reflexivity|]. simpl.
  pose proof (H 0%nat ltac:(simpl; lia)) as H0. simpl in H0. injection H0 as ->.
  apply IH. intros k Hk. apply (H (S k)). simpl. lia.
Qed.

(** Pushing onto a group behind which every group is still empty appends to
    the concatenation. *)
Lemma concat_push (G : list (list Bubble.t)) :
  forall (k : nat) (g : list Bubble.t) (b : Bubble.t),
    G !! k = Some g ->
    (forall k', (k < k')%nat -> (k' < length G)%nat -> G !! k' = Some []) ->
    concat (<[k := g ++ [b]]> G) = concat G ++ [b].
Proof.
  induction G as [|h G IH]; intros k g b Hk Hnil; [discriminate Hk|].
  destruct k as [|k]; simpl in *.
  - injection Hk as ->.
    rewrite (concat_all_nil G).
    + rewrite !app_nil_r. reflexivity.
    + intros k Hlen. apply (Hnil (S k)); lia.
  - rewrite (IH k g b Hk).
    + rewrite app_assoc. reflexivity.
    + intros k' Hlt Hlen. apply (Hnil (S k')); lia.
Qed.

Lemma pushGroup_Returned (k : Z) (b : Bubble.t) (G G' : list (list Bubble.t)) :
  pushGroup k b G = Returned G' ->
  (0 <= k)%Z /\ exists g, G !! Z.to_nat k = Some g /\ G' = <[Z.to_nat k := g ++ [b]]> G.
Proof.
  unfold pushGroup. destruct (Z.ltb_spec k 0) as [Hneg|Hpos]; [discriminate|].
  destruct (G !! Z.to_nat k) as [g|]; [|discriminate].
  intros [= <-]. split; [exact Hpos|]. exists g. auto.
Qed.

Lemma pushGroup_in_range (k : Z) (b : Bubble.t) (G : list (list Bubble.t)) :
  (0 <= k < Z.of_nat (length G))%Z -> exists G', pushGroup k b G = Returned G'.
Proof.
  intros [Hlo Hhi]. unfold pushGroup.
  destruct (Z.ltb_spec k 0) as [Hneg|_]; [lia|].
  destruct (lookup_lt_is_Some_2 G (Z.to_nat k) ltac:(lia)) as [g Hg].
  rewrite Hg. eauto.
Qed.

(** The only exception of the partition is the [TypeError] of a push. *)
Lemma groupLoop_Thrown (E : Q) (n : nat) (rest : list Bubble.t) :
  forall i G e, groupLoop E n i rest G = Thrown e -> e = TypeError.
Proof.
  induction rest as [|b rest IH]; intros i G e; simpl; [discriminate|].
  unfold pushGroup.
  destruct (slot E n i <? 0)%Z; simpl; [intros [= <-]; reflexivity|].
  destruct (G !! Z.to_nat (slot E n i)); simpl; [apply IH | intros [= <-]; reflexivity].
Qed.

(** The loop returns when every index it computes is that of a group. *)
Lemma groupLoop_returns (E : Q) (n : nat) (rest : list Bubble.t) :
  forall i G,
    (forall j, (j < length rest)%nat -> (0 <= slot E n (i + j) < Z.of_nat (length G))%Z) ->
    exists G', groupLoop E n i rest G = Returned G'.
Proof.
  induction rest as [|b rest IH]; intros i G Hin; simpl; [eauto|].
  pose proof (Hin 0%nat ltac:(simpl; lia)) as H0. rewrite Nat.add_0_r in H0.
  destruct (pushGroup_in_range _ b G H0) as [G1 HG1]. rewrite HG1. simpl.
  apply pushGroup_Returned in HG1 as (_ & g & _ & ->).
  apply IH. intros j Hj. rewrite length_insert.
  replace (S i + j)%nat with (i + S j)%nat by lia. apply Hin. simpl. lia.
Qed.

(** What a returned partition consists of. *)
Lemma groupLoop_spec (E : Q) (n : nat) :
  0 <= E ->
  forall (rest : list Bubble.t) (i : nat) (G G' : list (list Bubble.t)),
    (i + length rest = n)%nat ->
    (forall k, (slot E n i < Z.of_nat k)%Z -> (k < length G)%nat -> G !! k = Some []) ->
    groupLoop E n i rest G = Returned G' ->
    length G' = length G
    /\ concat G' = concat G ++ rest
    /\ (forall j b, rest !! j = Some b ->
          exists g, G' !! Z.to_nat (slot E n (i + j)) = Some g /\ b ∈ g)
    /\ (forall k g, G !! k = Some g ->
          exists g', G' !! k = Some g' /\ forall b, b ∈ g -> b ∈ g').
Proof.
  intros HE. induction rest as [|b rest IH]; intros i G G' Hn Hnil Hrun; simpl in Hrun.
  - injection Hrun as <-. rewrite app_nil_r. repeat split.
    + intros j b Hj. discriminate Hj.
    + intros k g Hk. exists g. split; [exact Hk | auto].
  - simpl in Hn.
    destruct (pushGroup (slot E n i) b G) as [G1|e] eqn:Hpush; [|discriminate].
    simpl in Hrun.
    apply pushGroup_Returned in Hpush as (Hk0 & g & Hg & ->).
    set (k0 := Z.to_nat (slot E n i)) in *.
    pose proof (slot_le E n i (S i) HE ltac:(lia)) as Hmono.
    assert (Hk0len : (k0 < length G)%nat) by (apply lookup_lt_Some in Hg; exact Hg).
    destruct (IH (S i) (<[k0 := g ++ [b]]> G) G') as (Hlen' & Hcat & Hin & Hkeep).
    + lia.
    + intros k Hk HkE. rewrite length_insert in HkE.
      rewrite list_lookup_insert_ne by lia. apply Hnil; lia.
    + exact Hrun.
    + rewrite length_insert in Hlen'.
      assert (Hg1 : <[k0 := g ++ [b]]> G !! k0 = Some (g ++ [b])).
      { apply list_lookup_insert_eq. exact Hk0len. }
      split; [exact Hlen'|]. split; [|split].
      * rewrite Hcat. rewrite (concat_push G _ g b Hg).
        -- rewrite <- app_assoc. reflexivity.
        -- intros k' Hlt Hk'. apply Hnil; lia.
      * intros [|j] c Hj; simpl in Hj.
        -- injection Hj as ->. rewrite Nat.add_0_r.
           destruct (Hkeep _ _ Hg1) as (g' & Hg' & Hsub).
           exists g'. split; [exact Hg'|]. apply Hsub.
           apply elem_of_app. right. apply list_elem_of_singleton. reflexivity.
        -- replace (i + S j)%nat with (S i + j)%nat by lia. apply Hin, Hj.
      * intros k g0 Hk.
        destruct (decide (k = k0)) as [->|Hne].
        -- rewrite Hg in Hk. injection Hk as <-.
           destruct (Hkeep _ _ Hg1) as (g' & Hg' & Hsub).
           exists g'. split; [exact Hg'|]. intros c Hc. apply Hsub.
           apply elem_of_app. left. exact Hc.
        -- apply Hkeep. rewrite list_lookup_insert_ne by auto. exact Hk.
Qed.

Lemma emptyGroups_lookup (E : Q) (k : nat) :
  (k < length (emptyGroups E))%nat -> emptyGroups E !! k = Some [].
Proof.
  unfold emptyGroups. rewrite length_replicate. apply lookup_replicate_2.
Qed.

(** A partition that returns, for a count that is at most the length of the
    row, cuts the row into as many groups as the integer part of the count:
    contiguous, in index order, and none of them empty. *)
Lemma partitionRow_Returned (E : Q) (row : list Bubble.t) (groups : list (list Bubble.t)) :
  E <= ofNat (length row) ->
  partitionRow E row = Returned groups ->
  length groups = Z.to_nat (Qfloor E)
  /\ concat groups = row
  /\ (row <> [] -> 1 <= E /\ Forall (fun g => g <> []) groups).
Proof.
  intros Hn Hrun. unfold partitionRow in Hrun.
  destruct row as [|b0 rest].
  { simpl in Hrun. injection Hrun as <-.
    unfold emptyGroups. rewrite length_replicate.
    split; [reflexivity|]. split; [|congruence].
    apply concat_all_nil. intros k Hk. rewrite length_replicate in Hk.
    apply lookup_replicate_2, Hk. }
  assert (HE1 : 1 <= E).
  { pose proof Hrun as Hrun'. cbn [groupLoop] in Hrun'.
    destruct (pushGroup _ b0 (emptyGroups E)) as [G1|e] eqn:Hpush in Hrun';
      [|discriminate Hrun'].
    apply pushGroup_Returned in Hpush as (_ & g & Hg & _).
    apply lookup_lt_Some in Hg. unfold emptyGroups in Hg. rewrite length_replicate in Hg.
    pose proof (Qfloor_le E) as Hfl.
    assert (Hone : (1 <= Qfloor E)%Z) by lia.
    rewrite Zle_Qle in Hone. change (inject_Z 1) with 1 in Hone. lra. }
  assert (HE : 0 <= E) by lra.
  set (row := b0 :: rest) in *.
  destruct (groupLoop_spec E (length row) HE row 0 (emptyGroups E) groups)
    as (Hlen & Hcat & Hin & _).
  - reflexivity.
  - intros k _ Hk. apply emptyGroups_lookup, Hk.
  - exact Hrun.
  - assert (Hlen' : length groups = Z.to_nat (Qfloor E)).
    { rewrite Hlen. unfold emptyGroups. apply length_replicate. }
    split; [exact Hlen'|]. split.
    { rewrite Hcat, (concat_all_nil (emptyGroups E)); [reflexivity|].
      intros k Hk. apply emptyGroups_lookup, Hk. }
    intros _. split; [exact HE1|].
    apply Forall_lookup. intros k g Hg ->.
    assert (Hk : (k < Z.to_nat (Qfloor E))%nat).
    { apply lookup_lt_Some in Hg. lia. }
    pose proof (slot_last E (length rest) HE Hn) as Hlast.
    change (S (length rest)) with (length row) in Hlast.
    destruct (slot_reaches E (length row) (Z.of_nat k) HE Hn (length rest)) as (i & Hi & Hslot).
    { lia. }
    destruct (lookup_lt_is_Some_2 row i ltac:(simpl; lia)) as [b Hb].
    destruct (Hin i b Hb) as (g' & Hg' & Hbg).
    cbn [Nat.add] in Hg'. rewrite Hslot, Nat2Z.id, Hg in Hg'. injection Hg' as <-.
    apply elem_of_nil in Hbg. exact Hbg.
Qed.

(** In a partition that returns, the bubble at position [i] is in the
    group of its slot. *)
Lemma partitionRow_members (E : Q) (row : list Bubble.t) (groups : list (list Bubble.t)) :
  E <= ofNat (length row) ->
  partitionRow E row = Returned groups ->
  forall i b, row !! i = Some b ->
    exists g, groups !! Z.to_nat (slot E (length row) i) = Some g /\ b ∈ g.
Proof.
  intros Hn Hrun i b Hb.
  assert (Hne : row <> []) by (intros ->; discriminate Hb).
  destruct (partitionRow_Returned E row groups Hn Hrun) as (_ & _ & Hpos).
  destruct (Hpos Hne) as (HE1 & _).
  assert (HE : 0 <= E) by lra.
  unfold partitionRow in Hrun.
  destruct (groupLoop_spec E (length row) HE row 0 (emptyGroups E) groups)
    as (_ & _ & Hin & _).
  - reflexivity.
  - intros k _ Hk. apply emptyGroups_lookup, Hk.
  - exact Hrun.
  - exact (Hin i b Hb).
Qed.

(** A row at least as long as a whole count is cut into that many
    non-empty, contiguous, index-ordered groups, and no push throws. *)
Lemma partitionRow_spec (E : nat) (row : list Bubble.t) :
  (0 < E)%nat -> (E <= length row)%nat ->
  exists groups,
    partitionRow (ofNat E) row = Returned groups
    /\ length groups = E
    /\ concat groups = row
    /\ Forall (fun g => g <> []) groups.
Proof.
  intros HE Hn.
  destruct (groupLoop_returns (ofNat E) (length row) row 0 (emptyGroups (ofNat E)))
    as [groups Hrun].
  { intros j Hj. rewrite emptyGroups_count, length_replicate, slot_count.
    pose proof (slot_lt E (length row) (0 + j) ltac:(lia) HE). lia. }
  exists groups. split; [exact Hrun|].
  destruct (partitionRow_Returned (ofNat E) row groups (ofNat_le _ _ Hn) Hrun)
    as (Hlen & Hcat & Hne).
  unfold ofNat in Hlen. rewrite Qfloor_Z, Nat2Z.id in Hlen.
  split; [exact Hlen|]. split; [exact Hcat|].
  apply Hne. destruct row; [simpl in Hn; lia | discriminate].
Qed.

(** ** Merging a row *)

Lemma imap_averaged (thr : Q) (groups : list (list Bubble.t)) :
  imap (averaged thr groups) (aggregate <$> groups) = meanOf thr <$> groups.
Proof.
  rewrite imap_fmap, <- imap_const.
  apply imap_ext. intros i g Hg. simpl.
  unfold averaged, meanOf. rewrite Hg. reflexivity.
Qed.

Lemma mergeRow_spec (thr : Q) (E : nat) (row : list Bubble.t) :
  (0 < E)%nat -> (E <= length row)%nat ->
  exists groups,
    partitionRow (ofNat E) row = Returned groups
    /\ length groups = E
    /\ concat groups = row
    /\ Forall (fun g => g <> []) groups
    /\ mergeRow thr (ofNat E) row = Returned (meanOf thr <$> groups).
Proof.
  intros HE Hn.
  destruct (partitionRow_spec E row HE Hn) as (groups & Hrun & Hlen & Hcat & Hne).
  exists groups. repeat split; try assumption.
  unfold mergeRow. rewrite Hrun. simpl. rewrite imap_averaged. reflexivity.
Qed.

Lemma mustMerge_Some (o : Options) (row : list Bubble.t) (E : Q) :
  mustMerge o row = Some E <-> Merged o E (length row).
Proof.
  unfold mustMerge, Merged. destruct (expectedOptions o) as [E'|].
  2: { split; [discriminate | intros (HE & _); discriminate HE]. }
  destruct (Qeq_bool E' 0) eqn:H0; simpl.
  - apply Qeq_bool_iff in H0. split; [discriminate|].
    intros ([= <-] & HE1 & _). contradiction.
  - apply Qeq_bool_neq in H0. destruct (Qltb E' (ofNat (length row))) eqn:H1.
    + apply Qltb_lt in H1. split; [intros [= <-]; auto | intros ([= <-] & _); reflexivity].
    + apply Qltb_ge in H1. split; [discriminate|].
      intros ([= <-] & _ & HE2). exfalso. lra.
Qed.

Lemma mustMerge_None (o : Options) (row : list Bubble.t) :
  mustMerge o row = None <-> (forall E, ~ Merged o E (length row)).
Proof.
  split.
  - intros Hnone E HM. apply mustMerge_Some in HM. congruence.
  - intros Hall. destruct (mustMerge o row) as [E|] eqn:Hm; [|reflexivity].
    apply mustMerge_Some in Hm. destruct (Hall E Hm).
Qed.

Lemma ofNat_inj (m n : nat) : ofNat m == ofNat n -> m = n.
Proof.
  unfold ofNat. rewrite inject_Z_injective. lia.
Qed.

(** A whole count merges the rows that are longer than it. *)
Lemma Merged_count (o : Options) (E : nat) (n : nat) :
  Merged o (ofNat E) n <-> expectedOptions o = Some (ofNat E) /\ (0 < E)%nat /\ (E < n)%nat.
Proof.
  unfold Merged. rewrite <- ofNat_lt. split; intros (HE & H0 & Hlt); repeat split; auto.
  - destruct E; [exfalso; apply H0; reflexivity | lia].
  - intros Heq. apply (ofNat_inj E 0) in Heq. lia.
Qed.

(** How a row becomes the options of a question, when it does. *)
Lemma optionsInRow_Returned (o : Options) (row opts : list Bubble.t) :
  optionsInRow o row = Returned opts ->
  (mustMerge o row = None /\ opts = row)
  \/ (exists E groups,
        mustMerge o row = Some E
        /\ partitionRow E row = Returned groups
        /\ length groups = Z.to_nat (Qfloor E)
        /\ concat groups = row
        /\ Forall (fun g => g <> []) groups
        /\ opts = meanOf (thresholdOf o) <$> groups).
Proof.
  unfold optionsInRow. destruct (mustMerge o row) as [E|] eqn:Hm.
  2: { intros [= <-]. left. auto. }
  intros Hrun. right. unfold mergeRow in Hrun.
  destruct (partitionRow E row) as [groups|e] eqn:Hpart; [|discriminate].
  simpl in Hrun. injection Hrun as <-. rewrite imap_averaged.
  apply mustMerge_Some in Hm as (HE & H0 & Hlt).
  destruct (partitionRow_Returned E row groups (Qlt_le_weak _ _ Hlt) Hpart)
    as (Hlen & Hcat & Hne).
  exists E, groups.
  split; [reflexivity|]. split; [exact Hpart|]. split; [exact Hlen|].
  split; [exact Hcat|]. split; [|reflexivity].
  destruct row as [|b row].
  - assert (Hneg : (Qfloor E < 0)%Z).
    { pose proof (Qfloor_le E) as Hfl. change (ofNat (length [])) with 0 in Hlt.
      rewrite Zlt_Qlt. change (inject_Z 0) with 0. lra. }
    destruct groups; [constructor | simpl in Hlen; lia].
  - apply Hne. discriminate.
Qed.

Lemma optionsInRow_length (o : Options) (row opts : list Bubble.t) :
  optionsInRow o row = Returned opts -> length opts = optionCount o (length row).
Proof.
  intros Hrun. unfold optionCount.
  destruct (optionsInRow_Returned o row opts Hrun)
    as [(Hm & ->) | (E & groups & Hm & _ & Hlen & _ & _ & ->)];
    unfold mustMerge in Hm; destruct (expectedOptions o) as [E'|]; try discriminate;
    try reflexivity;
    destruct (negb (Qeq_bool E' 0) && Qltb E' (ofNat (length row))); try discriminate;
    try reflexivity.
  injection Hm as ->. rewrite length_fmap. exact Hlen.
Qed.

(** With no count, or a whole one, the options of a row are made without an
    exception. *)
Lemma optionsInRow_returns (o : Options) (row : list Bubble.t) :
  WholeCount o -> exists opts, optionsInRow o row = Returned opts.
Proof.
  intros Hwhole. unfold optionsInRow.
  destruct (mustMerge o row) as [E|] eqn:Hm; [|eauto].
  apply mustMerge_Some in Hm. destruct Hwhole as [Hnone | [E' HE']].
  - destruct Hm as (HE & _). congruence.
  - assert (E = ofNat E') as -> by (destruct Hm as (HE & _); congruence).
    apply Merged_count in Hm as (_ & Hpos & Hlt).
    destruct (mergeRow_spec (thresholdOf o) E' row Hpos ltac:(lia))
      as (groups & _ & _ & _ & _ & Hmerge).
    eauto.
Qed.

(** *** Fill ratios through the merge *)

Lemma aggregate_ratio (g : list Bubble.t) :
  forall acc,
    aggRatio (fold_left aggStep g acc)
    = fold_left (fun s ratio => double (s + ratio)) (ratioOf <$> g) (aggRatio acc).
Proof.
  induction g as [|b g IH]; intros acc; simpl; [reflexivity|].
  rewrite IH. reflexivity.
Qed.

Lemma aggregate_roundedSum (g : list Bubble.t) :
  aggRatio (aggregate g) = roundedSum (ratioOf <$> g).
Proof. apply aggregate_ratio. Qed.

Lemma aggregate_ratio_nonneg (g : list Bubble.t) :
  Forall ratioOk g -> forall acc, 0 <= aggRatio acc ->
  0 <= aggRatio (fold_left aggStep g acc).
Proof.
  induction 1 as [|b g Hb Hg IH]; intros acc Hacc; simpl; [exact Hacc|].
  apply IH. simpl. unfold ratioOk in Hb. apply double_nonneg. lra.
Qed.

Lemma meanOf_ratioOk (thr : Q) (g : list Bubble.t) :
  Forall ratioOk g -> ratioOk (meanOf thr g).
Proof.
  intros Hg. unfold ratioOk, ratioOf, meanOf. simpl.
  pose proof (aggregate_ratio_nonneg g Hg agg0 ltac:(simpl; lra)) as Hsum.
  fold (aggregate g) in Hsum.
  apply double_nonneg.
  apply Qmult_le_0_compat; [exact Hsum|]. apply Qinv_le_0_compat, ofNat_nonneg.
Qed.

Lemma Forall_concat_inv {A} (P : A -> Prop) (ls : list (list A)) :
  Forall P (concat ls) -> Forall (Forall P) ls.
Proof.
  induction ls as [|l ls IH]; simpl; intros H; [constructor|].
  apply Forall_app in H as [Hl Hls]. constructor; auto.
Qed.

Lemma optionsInRow_ratioOk (o : Options) (row opts : list Bubble.t) :
  Forall ratioOk row -> optionsInRow o row = Returned opts -> Forall ratioOk opts.
Proof.
  intros Hrow Hrun.
  destruct (optionsInRow_Returned o row opts Hrun)
    as [(_ & ->) | (E & groups & _ & _ & _ & Hcat & _ & ->)]; [exact Hrow|].
  apply Forall_fmap. rewrite <- Hcat in Hrow. apply Forall_concat_inv in Hrow.
  eapply Forall_impl; [exact Hrow|]. intros g Hg. apply meanOf_ratioOk, Hg.
Qed.

(** *** Centers and radii through the merge *)

Lemma aggregate_sums (g : list Bubble.t) :
  forall acc,
    aggX (fold_left aggStep g acc) == aggX acc + sumOf Bubble.x g
    /\ aggY (fold_left aggStep g acc) == aggY acc + sumOf Bubble.y g
    /\ aggR (fold_left aggStep g acc) == aggR acc + sumOf Bubble.r g.
Proof.
  induction g as [|b g IH]; intros acc; simpl.
  - repeat split; ring.
  - destruct (IH (aggStep acc b)) as (Hx & Hy & Hr). rewrite Hx, Hy, Hr. simpl.
    repeat split; ring.
Qed.

Lemma sumOf_lower (f : Bubble.t -> Q) (lo : Q) (g : list Bubble.t) :
  Forall (fun b => lo <= f b) g -> ofNat (length g) * lo <= sumOf f g.
Proof.
  induction 1 as [|b g Hb _ IH]; simpl.
  - change (0 * lo <= 0). rewrite Qmult_0_l. apply Qle_refl.
  - change (ofNat (S (length g)) * lo <= f b + sumOf f g).
    rewrite ofNat_S. lra.
Qed.

Lemma sumOf_upper (f : Bubble.t -> Q) (hi : Q) (g : list Bubble.t) :
  Forall (fun b => f b <= hi) g -> sumOf f g <= ofNat (length g) * hi.
Proof.
  induction 1 as [|b g Hb _ IH]; simpl.
  - change (0 <= 0 * hi). rewrite Qmult_0_l. apply Qle_refl.
  - change (f b + sumOf f g <= ofNat (S (length g)) * hi).
    rewrite ofNat_S. lra.
Qed.

Lemma mean_lower (f : Bubble.t -> Q) (lo : Q) (g : list Bubble.t) :
  g <> [] -> Forall (fun b => lo <= f b) g -> lo <= sumOf f g / ofNat (length g).
Proof.
  intros Hne Hall. apply Qle_shift_div_l.
  - apply ofNat_pos. destruct g; [congruence | simpl; lia].
  - rewrite Qmult_comm. apply sumOf_lower, Hall.
Qed.

Lemma mean_upper (f : Bubble.t -> Q) (hi : Q) (g : list Bubble.t) :
  g <> [] -> Forall (fun b => f b <= hi) g -> sumOf f g / ofNat (length g) <= hi.
Proof.
  intros Hne Hall. apply Qle_shift_div_r.
  - apply ofNat_pos. destruct g; [congruence | simpl; lia].
  - rewrite Qmult_comm. apply sumOf_upper, Hall.
Qed.

Lemma meanOf_x (thr : Q) (g : list Bubble.t) :
  Bubble.x (meanOf thr g) == sumOf Bubble.x g / ofNat (length g).
Proof.
  unfold meanOf. simpl. unfold aggregate.
  destruct (aggregate_sums g agg0) as (Hx & _). rewrite Hx. simpl.
  rewrite Qplus_0_l. reflexivity.
Qed.

Lemma meanOf_y (thr : Q) (g : list Bubble.t) :
  Bubble.y (meanOf thr g) == sumOf Bubble.y g / ofNat (length g).
Proof.
  unfold meanOf. simpl. unfold aggregate.
  destruct (aggregate_sums g agg0) as (_ & Hy & _). rewrite Hy. simpl.
  rewrite Qplus_0_l. reflexivity.
Qed.

Lemma meanOf_r (thr : Q) (g : list Bubble.t) :
  Bubble.r (meanOf thr g) == sumOf Bubble.r g / ofNat (length g).
Proof.
  unfold meanOf. simpl. unfold aggregate.
  destruct (aggregate_sums g agg0) as (_ & _ & Hr). rewrite Hr. simpl.
  rewrite Qplus_0_l. reflexivity.
Qed.

(** A group of bubbles that carry a fill ratio has these ratios, in order. *)
Lemma RatiosOf_rated (g : list Bubble.t) :
  Forall (fun b => is_Some (Bubble.filledRatio b)) g -> RatiosOf g (ratioOf <$> g).
Proof.
  induction 1 as [|b g [ratio Hb] _ IH]; simpl; constructor; [|exact IH].
  unfold ratioOf. rewrite Hb. reflexivity.
Qed.

(** What the merge makes of a group stands for it. *)
Lemma meanOf_StandsFor (thr : Q) (g : list Bubble.t) :
  Forall (fun b => is_Some (Bubble.filledRatio b)) g -> StandsFor thr g (meanOf thr g).
Proof.
  intros Hg. unfold StandsFor. cbv zeta.
  split; [apply meanOf_x|]. split; [apply meanOf_y|]. split; [apply meanOf_r|].
  split; [reflexivity|].
  exists (ratioOf <$> g). split; [apply RatiosOf_rated, Hg|].
  unfold meanOf. cbn [Bubble.filledRatio Bubble.isFilled].
  rewrite aggregate_roundedSum. split; reflexivity.
Qed.

Lemma meanOf_rated (thr : Q) (g : list Bubble.t) :
  is_Some (Bubble.filledRatio (meanOf thr g)).
Proof. unfold meanOf. simpl. eauto. Qed.

(** ** Questions from rows *)

Lemma questionOfRow_inv (o : Options) (qi : nat) (row : list Bubble.t) (q : Question) :
  questionOfRow sortBy o qi row = Returned q ->
  exists opts,
    optionsInRow o (sortBy byX row) = Returned opts
    /\ q = mkQuestion (qi + 1)
                      (selectOption (thresholdOf o) (ratioOf <$> opts))
                      (ratioOf <$> opts).
Proof.
  unfold questionOfRow.
  destruct (optionsInRow o (sortBy byX row)) as [opts|e]; [|discriminate].
  simpl. intros [= <-]. eauto.
Qed.

(** The [k]-th question of a returned loop is the one of the [k]-th row. *)
Lemma questionsLoop_inv (o : Options) (rows : list (list Bubble.t)) :
  forall qi qs,
    questionsLoop sortBy o qi rows = Returned qs ->
    length qs = length rows
    /\ forall k row, rows !! k = Some row ->
         exists q, qs !! k = Some q /\ questionOfRow sortBy o (qi + k) row = Returned q.
Proof.
  induction rows as [|row rows IH]; intros qi qs; simpl.
  - intros [= <-]. split; [reflexivity|]. intros k row Hk. discriminate Hk.
  - destruct (questionOfRow sortBy o qi row) as [q|e] eqn:Hq; [|discriminate]. simpl.
    destruct (questionsLoop sortBy o (S qi) rows) as [qs'|e] eqn:Hrun; [|discriminate].
    simpl. intros [= <-].
    destruct (IH (S qi) qs' Hrun) as (Hlen & Hall).
    split; [simpl; lia|].
    intros [|k] row' Hk; simpl in *.
    + injection Hk as <-. exists q. split; [reflexivity|].
      rewrite Nat.add_0_r. exact Hq.
    + destruct (Hall k row' Hk) as (q' & Hqk & Hqr).
      exists q'. split; [exact Hqk|].
      replace (qi + S k)%nat with (S qi + k)%nat by lia. exact Hqr.
Qed.

(** With no count, or a whole one, the loop over the rows throws nothing. *)
Lemma questionsLoop_returns (o : Options) (rows : list (list Bubble.t)) :
  WholeCount o -> forall qi, exists qs, questionsLoop sortBy o qi rows = Returned qs.
Proof.
  intros Hwhole. induction rows as [|row rows IH]; intros qi; simpl; [eauto|].
  unfold questionOfRow.
  destruct (optionsInRow_returns o (sortBy byX row) Hwhole) as [opts ->]. simpl.
  destruct (IH (S qi)) as [qs ->]. simpl. eauto.
Qed.

(** ** Row clustering *)

Lemma clusterStep_nil (tol : Q) (bub : Bubble.t) : clusterStep tol [] bub = [[bub]].
Proof. reflexivity. Qed.

Lemma clusterStep_snoc (tol : Q) (rows : list (list Bubble.t))
      (lastRow : list Bubble.t) (bub : Bubble.t) :
  clusterStep tol (rows ++ [lastRow]) bub =
  if Qle_bool (Qabs (Bubble.y bub - avgY lastRow)) tol
  then rows ++ [lastRow ++ [bub]]
  else rows ++ [lastRow] ++ [[bub]].
Proof.
  unfold clusterStep. rewrite last_snoc.
  destruct (Qle_bool _ tol).
  - rewrite length_app. simpl.
    replace (Nat.pred (length rows + 1)) with (length rows + 0)%nat by lia.
    rewrite insert_app_r. reflexivity.
  - rewrite <- app_assoc. reflexivity.
Qed.

(** The rows are consecutive, non-empty runs of the scanned sequence. *)
Lemma clusterRows_from (tol : Q) (l : list Bubble.t) :
  forall rows0,
    Forall (fun row => row <> []) rows0 ->
    concat (fold_left (clusterStep tol) l rows0) = concat rows0 ++ l
    /\ Forall (fun row => row <> []) (fold_left (clusterStep tol) l rows0).
Proof.
  induction l as [|bub l IH]; intros rows0 Hne; simpl.
  - rewrite app_nil_r. auto.
  - assert (Hstep : concat (clusterStep tol rows0 bub) = concat rows0 ++ [bub]
                    /\ Forall (fun row => row <> []) (clusterStep tol rows0 bub)).
    { destruct (last rows0) as [lastRow|] eqn:Hlast.
      - apply last_Some in Hlast as [rows' ->].
        apply Forall_app in Hne as [Hne' Hlast'].
        rewrite clusterStep_snoc.
        destruct (Qle_bool _ tol).
        + rewrite !concat_app. simpl. rewrite !app_nil_r, app_assoc. split; [reflexivity|].
          apply Forall_app. split; [exact Hne'|].
          constructor; [|constructor]. intros H. apply app_eq_nil in H as [_ H]. discriminate H.
        + rewrite !concat_app. simpl. rewrite !app_nil_r, app_assoc. split; [reflexivity|].
          apply Forall_app. split; [exact Hne'|].
          apply Forall_cons in Hlast' as [Hlast' _].
          constructor; [exact Hlast'|]. constructor; [discriminate | constructor].
      - apply last_None in Hlast as ->. rewrite clusterStep_nil. simpl.
        split; [reflexivity|]. constructor; [discriminate | constructor]. }
    destruct Hstep as [Hcat Hne1].
    destruct (IH _ Hne1) as [Hcat' Hne'].
    rewrite Hcat', Hcat, <- app_assoc. auto.
Qed.

(** ** The engine's sort *)

Section Engine.
Variable sort : ArraySort.
Hypothesis Hsort : StableSort sort.

Lemma questionOfRow_engine (o : Options) (qi : nat) (row : list Bubble.t) :
  questionOfRow sort o qi row = questionOfRow sortBy o qi row.
Proof using Hsort.
  unfold questionOfRow. rewrite (engine_sort sort byX row Hsort byX_consistent).
  reflexivity.
Qed.

Lemma questionsLoop_engine (o : Options) (rows : list (list Bubble.t)) :
  forall qi, questionsLoop sort o qi rows = questionsLoop sortBy o qi rows.
Proof using Hsort.
  induction rows as [|row rows IH]; intros qi; simpl; [reflexivity|].
  rewrite questionOfRow_engine.
  destruct (questionOfRow sortBy o qi row); simpl; [rewrite IH|]; reflexivity.
Qed.

Lemma analyzeFrom_engine {Source ImageEl Mat Contour : Type}
      (cv : Toolkit Source ImageEl Mat Contour) (o : Options) (src gray : Mat) :
  analyzeFrom cv sort o src gray = analyzeFrom cv sortBy o src gray.
Proof using Hsort.
  unfold analyzeFrom.
  rewrite (engine_sort sort byYthenX _ Hsort byYthenX_consistent), questionsLoop_engine.
  reflexivity.
Qed.

Lemma analyzeOmrImage_engine {Source ImageEl Mat Contour : Type}
      (cv : Toolkit Source ImageEl Mat Contour) (s : Source) (o : Options) :
  analyzeOmrImage cv sort s o = analyzeOmrImage cv sortBy s o.
Proof using Hsort.
  unfold analyzeOmrImage. destruct (ensureImageEl cv s); [|reflexivity].
  apply analyzeFrom_engine.
Qed.

End Engine.

(** ** Fill classification *)

Section Classified.
Context {Source ImageEl Mat Contour : Type}.
Variable cv : Toolkit Source ImageEl Mat Contour.
Hypothesis Hlight : lightWithinMask cv.

Lemma classify_ratioOk (o : Options) (src blurred : Mat) (b : Bubble.t) :
  ratioOk (classify cv o src blurred b).
Proof using Hlight.
  unfold ratioOk, ratioOf, classify. simpl.
  match goal with |- context [circleMask cv ?a ?b ?c ?d ?e] =>
    pose proof (Hlight blurred a b c d e) as Hc; simpl in Hc;
    set (mask := circleMask cv a b c d e) in *
  end.
  set (total := countNonZero cv mask) in *.
  set (white := countNonZero cv _) in *.
  destruct (Z.ltb_spec 0 total) as [Hpos|Hle]; [|apply Qle_refl].
  apply double_nonneg, Qle_shift_div_l.
  - change 0 with (inject_Z 0). rewrite <- Zlt_Qlt. exact Hpos.
  - rewrite Qmult_0_l. change 0 with (inject_Z 0). rewrite <- Zle_Qle. lia.
Qed.

Lemma analyzeFrom_bubbles_ratioOk (o : Options) (src gray : Mat) (res : AnalyzeResult) :
  analyzeFrom cv sortBy o src gray = Returned res -> Forall ratioOk (bubbles res).
Proof using Hlight.
  unfold analyzeFrom. intros Hrun.
  destruct (questionsLoop sortBy o 0 _) as [qs|e] in Hrun; [|discriminate].
  simpl in Hrun. injection Hrun as <-. simpl.
  rewrite sortBy_perm. apply Forall_fmap, Forall_forall.
  intros b _. apply classify_ratioOk.
Qed.

End Classified.

(** ** The pipeline as a whole *)

Section Whole.
Context {Source ImageEl Mat Contour : Type}.
Variable cv : Toolkit Source ImageEl Mat Contour.

(** What a returned result consists of. *)
Lemma analyzeOmrImage_Returned (s : Source) (o : Options) (res : AnalyzeResult) :
  analyzeOmrImage cv sortBy s o = Returned res ->
  exists imgEl,
    ensureImageEl cv s = Some imgEl
    /\ analyzeFrom cv sortBy o (imread cv imgEl) (enhance cv (cvtColor cv (imread cv imgEl)))
       = Returned res
    /\ questionsLoop sortBy o 0 (rowsOfResult cv s res) = Returned (questions res).
Proof.
  unfold analyzeOmrImage, rowsOfResult.
  destruct (ensureImageEl cv s) as [imgEl|]; [|discriminate].
  intros Hrun. exists imgEl. split; [reflexivity|]. split; [exact Hrun|].
  unfold analyzeFrom in Hrun.
  destruct (questionsLoop sortBy o 0 _) as [qs|e] eqn:Hqs in Hrun; [|discriminate].
  simpl in Hrun. injection Hrun as <-. simpl. exact Hqs.
Qed.

(** With no count, or a whole one, the pipeline after the contrast step
    returns. *)
Lemma analyzeFrom_returns (o : Options) (src gray : Mat) :
  WholeCount o -> exists res, analyzeFrom cv sortBy o src gray = Returned res.
Proof.
  intros Hwhole. unfold analyzeFrom.
  match goal with |- context [questionsLoop sortBy o 0 ?rows] =>
    destruct (questionsLoop_returns o rows Hwhole 0%nat) as (qs & Hqs)
  end.
  rewrite Hqs. simpl. eauto.
Qed.

(** Every returned bubble carries a fill ratio. *)
Lemma analyzeFrom_bubbles_rated (o : Options) (src gray : Mat) (res : AnalyzeResult) :
  analyzeFrom cv sortBy o src gray = Returned res ->
  Forall (fun b => is_Some (Bubble.filledRatio b)) (bubbles res).
Proof.
  unfold analyzeFrom. intros Hrun.
  destruct (questionsLoop sortBy o 0 _) as [qs|e] in Hrun; [|discriminate].
  simpl in Hrun. injection Hrun as <-. simpl.
  rewrite sortBy_perm. apply Forall_fmap, Forall_forall.
  intros b _. unfold classify. simpl. eauto.
Qed.

(** Rows and questions of a result, position by position. *)
Lemma result_rows (P : list Bubble.t -> Question -> Prop)
      (s : Source) (o : Options) (res : AnalyzeResult) :
  analyzeOmrImage cv sortBy s o = Returned res ->
  (forall qi row q,
      row <> [] -> (forall b, b ∈ row -> b ∈ bubbles res) ->
      questionOfRow sortBy o qi row = Returned q -> P row q) ->
  Forall2 P (rowsOfResult cv s res) (questions res).
Proof.
  intros Hrun HP.
  destruct (analyzeOmrImage_Returned s o res Hrun) as (imgEl & Himg & _ & Hqs).
  destruct (questionsLoop_inv o (rowsOfResult cv s res) 0%nat _ Hqs) as (Hlen & Hall).
  assert (Hrows : concat (rowsOfResult cv s res) = bubbles res
                  /\ Forall (fun row => row <> []) (rowsOfResult cv s res)).
  { unfold rowsOfResult. rewrite Himg.
    apply (clusterRows_from _ (bubbles res) []). constructor. }
  destruct Hrows as [Hcat Hne].
  apply Forall2_same_length_lookup_2; [symmetry; exact Hlen|].
  intros k row q Hrow Hq.
  destruct (Hall k row Hrow) as (q' & Hq' & Hqr).
  rewrite Hq in Hq'. injection Hq' as <-.
  apply (HP (0 + k)%nat); [| |exact Hqr].
  - eapply Forall_lookup_1 in Hne; [exact Hne | exact Hrow].
  - intros b Hb. rewrite <- Hcat. apply list_elem_of_In, in_concat.
    exists row. split; [|apply list_elem_of_In, Hb].
    apply list_elem_of_In. eapply list_elem_of_lookup_2, Hrow.
Qed.

End Whole.

(** ** One row, one question *)

Lemma meanOf_ratio_any (thr thr' : Q) (g : list Bubble.t) :
  ratioOf (meanOf thr g) = ratioOf (meanOf thr' g).
Proof. reflexivity. Qed.

Lemma ratioOk_scores (opts : list Bubble.t) :
  Forall ratioOk opts -> Forall (fun s => 0 <= s) (ratioOf <$> opts).
Proof. intros H. apply Forall_fmap. exact H. Qed.

(** A row that has a bubble has an option. *)
Lemma optionsInRow_nonempty (o : Options) (row opts : list Bubble.t) :
  row <> [] -> optionsInRow o row = Returned opts -> opts <> [].
Proof.
  intros Hne Hrun.
  destruct (optionsInRow_Returned o row opts Hrun)
    as [(_ & ->) | (E & groups & _ & _ & _ & Hcat & _ & ->)]; [exact Hne|].
  intros Hnil. apply fmap_nil_inv in Hnil. subst groups. simpl in Hcat. congruence.
Qed.

(** The options of a row of bubbles that carry a fill ratio carry one. *)
Lemma optionsInRow_rated (o : Options) (row opts : list Bubble.t) :
  Forall (fun b => is_Some (Bubble.filledRatio b)) row ->
  optionsInRow o row = Returned opts ->
  RatiosOf opts (ratioOf <$> opts).
Proof.
  intros Hrow Hrun. apply RatiosOf_rated.
  destruct (optionsInRow_Returned o row opts Hrun)
    as [(_ & ->) | (E & groups & _ & _ & _ & _ & _ & ->)]; [exact Hrow|].
  apply Forall_fmap, Forall_forall. intros g _. apply meanOf_rated.
Qed.

(** The options of a row are those the statement of the merge describes. *)
Lemma optionsInRow_RowOptions (o : Options) (row opts : list Bubble.t) :
  Forall (fun b => is_Some (Bubble.filledRatio b)) row ->
  optionsInRow o row = Returned opts ->
  RowOptions o row opts.
Proof.
  intros Hrow Hrun.
  destruct (optionsInRow_Returned o row opts Hrun)
    as [(Hm & ->) | (E & groups & Hm & Hpart & Hlen & Hcat & Hne & ->)].
  - split; [|reflexivity].
    intros E HE. exfalso. exact (proj1 (mustMerge_None o row) Hm E HE).
  - apply mustMerge_Some in Hm. split.
    + intros E' (HE' & _). destruct Hm as (HE & _ & Hlt).
      assert (E' = E) as -> by congruence.
      exists groups. split; [exact Hcat|]. split; [exact Hlen|]. split; [exact Hne|].
      split.
      { apply (partitionRow_members E row groups); [|exact Hpart].
        apply Qlt_le_weak, Hlt. }
      apply Forall2_fmap_r, Forall_Forall2_diag, Forall_forall.
      intros g Hg. apply meanOf_StandsFor.
      rewrite <- Hcat in Hrow. apply Forall_concat_inv in Hrow.
      eapply Forall_forall in Hrow; [exact Hrow | exact Hg].
    + intros Hnone. destruct (Hnone E Hm).
Qed.

Section OneRow.
Variables (o : Options) (qi : nat) (row : list Bubble.t) (q : Question).
Hypothesis Hq : questionOfRow sortBy o qi row = Returned q.

Lemma question_scores :
  exists opts,
    optionsInRow o (sortBy byX row) = Returned opts
    /\ length opts = optionCount o (length row)
    /\ index q = (qi + 1)%nat
    /\ scores q = ratioOf <$> opts
    /\ selected q = selectOption (thresholdOf o) (ratioOf <$> opts).
Proof using Hq.
  destruct (questionOfRow_inv o qi row q Hq) as (opts & Hopts & ->).
  exists opts. split; [exact Hopts|]. split; [|auto].
  rewrite (optionsInRow_length _ _ _ Hopts), sortBy_length. reflexivity.
Qed.

Lemma question_wellformed :
  row <> [] -> Forall ratioOk row -> WellFormed q.
Proof using Hq.
  intros Hne Hok.
  destruct question_scores as (opts & Hopts & Hlen & _ & Hsc & Hsel).
  assert (Hscne : scores q <> []).
  { rewrite Hsc. intros Hnil. apply fmap_nil_inv in Hnil.
    apply (optionsInRow_nonempty o (sortBy byX row) opts); [|exact Hopts | exact Hnil].
    intros Hs. apply Hne. apply Permutation_nil_r. rewrite <- Hs. symmetry. apply sortBy_perm. }
  assert (Hnonneg : Forall (fun s => 0 <= s) (scores q)).
  { rewrite Hsc. apply ratioOk_scores.
    apply (optionsInRow_ratioOk o (sortBy byX row)); [|exact Hopts].
    rewrite sortBy_perm. exact Hok. }
  split; [exact Hscne|].
  destruct (selected q) as [i|] eqn:Hi; [|exact I].
  apply (selectOption_in_range (thresholdOf o)); try assumption.
  rewrite Hsc, <- Hsel. reflexivity.
Qed.

Lemma question_answers :
  row <> [] -> Forall ratioOk row ->
  Forall (fun b => is_Some (Bubble.filledRatio b)) row ->
  AnswerOfRow o row q.
Proof using Hq.
  intros Hne Hok Hrated.
  destruct (question_wellformed Hne Hok) as [Hscne _].
  destruct question_scores as (opts & Hopts & Hlen & _ & Hsc & Hsel).
  assert (Hsorted : Forall (fun b => is_Some (Bubble.filledRatio b)) (sortBy byX row)).
  { rewrite sortBy_perm. exact Hrated. }
  exists (sortBy byX row), opts.
  split; [apply sortBy_perm|]. split; [apply sortBy_byX_sorted|].
  split; [apply optionsInRow_RowOptions; assumption|].
  split; [rewrite Hsc; apply (optionsInRow_rated o (sortBy byX row)); assumption|].
  rewrite Hsel, <- Hsc. apply selectOption_rule; [exact Hscne|].
  rewrite Hsc. apply ratioOk_scores.
  apply (optionsInRow_ratioOk o (sortBy byX row)); [|exact Hopts].
  rewrite sortBy_perm. exact Hok.
Qed.

End OneRow.

(** ** The synthetic toolkit keeps the toolkit contract *)

Lemma synthetic_light (clahe : Synthetic.Mat -> option Synthetic.Mat) :
  lightWithinMask (Synthetic.toolkit clahe).
Proof.
  intros blurred rows cols px py rad. simpl.
  destruct (List.find _ _) as [k|]; [|lia].
  unfold Synthetic.clamp. lia.
Qed.

Lemma Forall2_right {A B} (Q : B -> Prop) (l : list A) (k : list B) :
  Forall2 (fun _ y => Q y) l k -> Forall Q k.
Proof. induction 1; constructor; assumption. Qed.

(** * The claims *)

(** C1.  Under a stable engine sort and a toolkit that lights no pixel off
    the mask, every question returned by the analysis answers its row: the
    bubbles of the row are taken in ascending [x]; the options are these
    bubbles or, when an expected count is given that is not zero and the
    row is longer, the bubbles that stand for the consecutive groups the row
    is cut into; the scores are the fill ratios the options carry, which for
    a group is the mean of its fill ratios as the engine computes it; the
    selected option is the first position of the greatest score provided
    that score reaches the fill threshold, and nothing is selected
    otherwise.  The threshold is the one given, and the double 0.35, which
    is [3152519739159347 / 2^53], when none is given. *)
Theorem answer_selection_of_rows {Source ImageEl Mat Contour : Type}
    (cv : Toolkit Source ImageEl Mat Contour) (sort : ArraySort) (s : Source)
    (o : Options) (res : AnalyzeResult) :
  StableSort sort -> lightWithinMask cv ->
  analyzeOmrImage cv sort s o = Returned res ->
  Forall2 (AnswerOfRow o) (rowsOfResult cv s res) (questions res)
  /\ (forall t, fillThreshold o = Some t -> thresholdOf o = t)
  /\ (fillThreshold o = None ->
      thresholdOf o = double (35 # 100)
      /\ thresholdOf o = 3152519739159347 # 9007199254740992).
Proof.
  intros Hsort Hlight Hrun. rewrite (analyzeOmrImage_engine sort Hsort) in Hrun.
  split; [|split;
             [intros t Ht; unfold thresholdOf; rewrite Ht; reflexivity
             |intros Hnone; unfold thresholdOf; rewrite Hnone; split;
                [reflexivity | vm_compute; reflexivity]]].
  apply (result_rows cv (AnswerOfRow o) s o res Hrun).
  intros qi row q Hne Hin Hq.
  destruct (analyzeOmrImage_Returned cv s o res Hrun) as (imgEl & _ & Hfrom & _).
  apply (question_answers o qi row q Hq Hne).
  - pose proof (analyzeFrom_bubbles_ratioOk cv Hlight _ _ _ _ Hfrom) as Hok.
    apply Forall_forall. intros b Hb. eapply Forall_forall in Hok; [exact Hok|]. auto.
  - pose proof (analyzeFrom_bubbles_rated cv _ _ _ _ Hfrom) as Hok.
    apply Forall_forall. intros b Hb. eapply Forall_forall in Hok; [exact Hok|]. auto.
Qed.

Lemma answer_selection_of_rows_witness :
  Forall2 (AnswerOfRow (Synthetic.expecting 4))
    (rowsOfResult (Synthetic.toolkit Synthetic.noClahe) (Some Synthetic.sheetFive)
       Synthetic.resultFiveOfFour)
    (questions Synthetic.resultFiveOfFour)
  /\ (forall t, fillThreshold (Synthetic.expecting 4) = Some t ->
                thresholdOf (Synthetic.expecting 4) = t)
  /\ (fillThreshold (Synthetic.expecting 4) = None ->
      thresholdOf (Synthetic.expecting 4) = double (35 # 100)
      /\ thresholdOf (Synthetic.expecting 4) = 3152519739159347 # 9007199254740992).
Proof.
  apply (answer_selection_of_rows (Synthetic.toolkit Synthetic.noClahe) sortBy
           (Some Synthetic.sheetFive) (Synthetic.expecting 4) Synthetic.resultFiveOfFour).
  - apply sortBy_StableSort.
  - apply synthetic_light.
  - vm_compute. reflexivity.
Defined.

(** C3, at the input where the code parts from it.  A sheet with one row of
    three bubbles, analysed with four expected options, returns a question
    with three scores: the row is shorter than the count, the merge is not
    entered, and nothing brings the scores to four, although the comment
    above the merge in the source reads "ensure exactly that many". *)
Theorem short_row_keeps_its_scores :
  analyzeOmrImage (Synthetic.toolkit Synthetic.noClahe) sortBy (Some Synthetic.sheetThree)
    (Synthetic.expecting 4) = Returned Synthetic.resultThreeOfFour
  /\ expectedOptions (Synthetic.expecting 4) = Some 4
  /\ (length <$> (scores <$> questions Synthetic.resultThreeOfFour)) = [3%nat]
  /\ ~ Forall (fun q => length (scores q) = 4%nat) (questions Synthetic.resultThreeOfFour).
Proof.
  split; [vm_compute; reflexivity|]. split; [reflexivity|]. split; [reflexivity|].
  intros H. apply Forall_cons in H as [H _]. vm_compute in H. discriminate H.
Qed.

(** C9.  For a row of [n] bubbles and an expected count [E] with
    [0 < E < n], the positions [floor (i * E / n)] cover every group
    [0 .. E-1]; the partition of such a row throws nothing and has [E]
    groups, none empty, so each mean divides by a non-zero length. *)
Theorem partition_groups_nonempty (E n : nat) :
  (0 < E)%nat -> (E < n)%nat ->
  (forall k, (k < E)%nat -> exists i, (i < n)%nat /\ slot (ofNat E) n i = Z.of_nat k)
  /\ (forall row, length row = n ->
        exists groups,
          partitionRow (ofNat E) row = Returned groups
          /\ length groups = E
          /\ Forall (fun g => g <> [] /\ ~ ofNat (length g) == 0) groups).
Proof.
  intros HE Hn. split.
  - intros k Hk. destruct (slot_onto E n k HE ltac:(lia) Hk) as (i & Hi & Hslot).
    exists i. split; [exact Hi|]. rewrite slot_count, Hslot. reflexivity.
  - intros row Hlen.
    destruct (partitionRow_spec E row HE ltac:(lia)) as (groups & Hrun & Hglen & _ & Hne).
    exists groups. split; [exact Hrun|]. split; [exact Hglen|].
    eapply Forall_impl; [exact Hne|]. intros g Hg. split; [exact Hg|].
    apply ofNat_nonzero. destruct g; [congruence | simpl; lia].
Qed.

Lemma partition_groups_nonempty_witness :
  (forall k, (k < 4)%nat -> exists i, (i < 5)%nat /\ slot (ofNat 4) 5 i = Z.of_nat k)
  /\ (forall row, length row = 5%nat ->
        exists groups,
          partitionRow (ofNat 4) row = Returned groups
          /\ length groups = 4%nat
          /\ Forall (fun g => g <> [] /\ ~ ofNat (length g) == 0) groups).
Proof.
  apply (partition_groups_nonempty 4 5); lia.
Defined.

(** C10.  Under a stable engine sort and a toolkit that lights no pixel off
    the mask, every clustered row has at least one bubble, and every
    question returned by the analysis has at least one score and selects
    either nothing or a position among its scores; the initial [-1] of the
    argmax loop is never returned. *)
Theorem questions_wellformed {Source ImageEl Mat Contour : Type}
    (cv : Toolkit Source ImageEl Mat Contour) (sort : ArraySort) (s : Source)
    (o : Options) (res : AnalyzeResult) :
  StableSort sort -> lightWithinMask cv ->
  analyzeOmrImage cv sort s o = Returned res ->
  Forall (fun row => row <> []) (rowsOfResult cv s res)
  /\ Forall (fun q => WellFormed q /\ selected q <> Some (-1)%Z) (questions res).
Proof.
  intros Hsort Hlight Hrun. rewrite (analyzeOmrImage_engine sort Hsort) in Hrun.
  split.
  { unfold rowsOfResult. destruct (ensureImageEl cv s); [|constructor].
    apply (clusterRows_from _ (bubbles res) []). constructor. }
  apply (Forall2_right _ (rowsOfResult cv s res)).
  apply (result_rows cv _ s o res Hrun).
  intros qi row q Hne Hin Hq.
  assert (Hwf : WellFormed q).
  { apply (question_wellformed o qi row q Hq Hne).
    destruct (analyzeOmrImage_Returned cv s o res Hrun) as (imgEl & _ & Hfrom & _).
    pose proof (analyzeFrom_bubbles_ratioOk cv Hlight _ _ _ _ Hfrom) as Hok.
    apply Forall_forall. intros b Hb. eapply Forall_forall in Hok; [exact Hok|]. auto. }
  split; [exact Hwf|].
  destruct Hwf as [_ Hsel]. intros Heq. rewrite Heq in Hsel. lia.
Qed.

Lemma questions_wellformed_witness :
  Forall (fun row => row <> [])
    (rowsOfResult (Synthetic.toolkit Synthetic.noClahe) (Some Synthetic.sheetFive)
       Synthetic.resultFiveOfFour)
  /\ Forall (fun q => WellFormed q /\ selected q <> Some (-1)%Z)
       (questions Synthetic.resultFiveOfFour).
Proof.
  apply (questions_wellformed (Synthetic.toolkit Synthetic.noClahe) sortBy
           (Some Synthetic.sheetFive) (Synthetic.expecting 4)
           Synthetic.resultFiveOfFour).
  - apply sortBy_StableSort.
  - apply synthetic_light.
  - vm_compute. reflexivity.
Defined.

(** ** Changing the threshold *)

Lemma optionsInRow_withThreshold (o : Options) (t : Q) (row opts : list Bubble.t) :
  optionsInRow o row = Returned opts ->
  exists opts',
    optionsInRow (withThreshold o t) row = Returned opts'
    /\ ratioOf <$> opts' = ratioOf <$> opts.
Proof.
  unfold optionsInRow.
  change (mustMerge (withThreshold o t) row) with (mustMerge o row).
  destruct (mustMerge o row) as [E|].
  - unfold mergeRow. destruct (partitionRow E row) as [groups|e]; simpl; [|discriminate].
    intros [= <-]. eexists. split; [reflexivity|].
    rewrite !imap_averaged, <- !list_fmap_compose. reflexivity.
  - intros [= <-]. exists row. auto.
Qed.

Lemma questionOfRow_withThreshold (o : Options) (t : Q) (qi : nat)
      (row : list Bubble.t) (q : Question) :
  questionOfRow sortBy o qi row = Returned q ->
  questionOfRow sortBy (withThreshold o t) qi row = Returned (reselected t q).
Proof.
  intros Hq.
  destruct (question_scores o qi row q Hq) as (opts & Hopts & _ & Hidx & Hsc & _).
  destruct (optionsInRow_withThreshold o t _ _ Hopts) as (opts' & Hopts' & Hsame).
  unfold questionOfRow, reselected. rewrite Hopts'. simpl.
  rewrite Hsame, <- Hsc, Hidx. reflexivity.
Qed.

(** The loop over the rows under another threshold: it returns when it did,
    with the same questions selected anew. *)
Lemma questionsLoop_withThreshold (o : Options) (t : Q) (rows : list (list Bubble.t)) :
  forall qi qs,
    questionsLoop sortBy o qi rows = Returned qs ->
    questionsLoop sortBy (withThreshold o t) qi rows = Returned (reselected t <$> qs).
Proof.
  induction rows as [|row rows IH]; intros qi qs; simpl.
  - intros [= <-]. reflexivity.
  - destruct (questionOfRow sortBy o qi row) as [q|e] eqn:Hq; [|discriminate]. simpl.
    destruct (questionsLoop sortBy o (S qi) rows) as [qs'|e] eqn:Hrun; [|discriminate].
    simpl. intros [= <-].
    rewrite (questionOfRow_withThreshold o t qi row q Hq). simpl.
    rewrite (IH (S qi) qs' Hrun). reflexivity.
Qed.

(** C6.  When a question selects option [i], of score [s], running the
    selection stage again on the same rows with a fill threshold above [s]
    leaves that question without a selection, and leaves every score of
    every question as it was. *)
Theorem raising_threshold_unselects (sort : ArraySort) (o : Options)
    (rows : list (list Bubble.t)) (qs : list Question) (k : nat) (q : Question)
    (i : Z) (s thr' : Q) :
  StableSort sort ->
  questionsLoop sort o 0 rows = Returned qs ->
  qs !! k = Some q ->
  selected q = Some i -> (0 <= i)%Z -> scores q !! Z.to_nat i = Some s ->
  s < thr' ->
  exists qs' q',
    questionsLoop sort (withThreshold o thr') 0 rows = Returned qs'
    /\ qs' !! k = Some q'
    /\ selected q' = None
    /\ scores q' = scores q
    /\ scores <$> qs' = scores <$> qs.
Proof.
  intros Hsort Hrun Hk Hsel Hi Hat Hlt.
  rewrite (questionsLoop_engine sort Hsort) in Hrun.
  rewrite (questionsLoop_engine sort Hsort).
  exists (reselected thr' <$> qs), (reselected thr' q).
  split; [apply questionsLoop_withThreshold, Hrun|].
  split; [rewrite list_lookup_fmap, Hk; reflexivity|].
  split; [|split; [reflexivity|]].
  - simpl. eapply selectOption_raise; [| exact Hi | exact Hat | exact Hlt].
    destruct (questionsLoop_inv o rows 0%nat qs Hrun) as (Hlen & Hall).
    destruct (lookup_lt_is_Some_2 rows k) as [row Hrow].
    { rewrite <- Hlen. eapply lookup_lt_Some, Hk. }
    destruct (Hall k row Hrow) as (qk & Hqk & Hqr).
    rewrite Hk in Hqk. injection Hqk as <-.
    destruct (question_scores o _ row q Hqr) as (opts & _ & _ & _ & Hsc & Hselq).
    rewrite Hsc, <- Hselq. exact Hsel.
  - rewrite <- list_fmap_compose. reflexivity.
Qed.

Lemma raising_threshold_unselects_witness :
  exists qs' q',
    questionsLoop sortBy (withThreshold noOptions (9 # 10)) 0
      (rowsOfResult (Synthetic.toolkit Synthetic.noClahe) (Some Synthetic.sheetFive)
         Synthetic.resultFive) = Returned qs'
    /\ qs' !! 0%nat = Some q'
    /\ selected q' = None
    /\ scores q'
       = [double (10 # 100); double (80 # 100); double (20 # 100); double (5 # 100);
          double (3 # 100)]
    /\ scores <$> qs' = scores <$> questions Synthetic.resultFive.
Proof.
  apply (raising_threshold_unselects sortBy noOptions _ (questions Synthetic.resultFive) 0
           (mkQuestion 1 (Some 1%Z)
              [double (10 # 100); double (80 # 100); double (20 # 100); double (5 # 100);
               double (3 # 100)])
           1 (double (80 # 100)) (9 # 10)).
  - apply sortBy_StableSort.
  - vm_compute. reflexivity.
  - vm_compute. reflexivity.
  - reflexivity.
  - lia.
  - vm_compute. reflexivity.
  - vm_compute. reflexivity.
Defined.

(** C7.  When the image loads and neither the first nor the relaxed pass
    accepts a contour, the analysis returns, with no bubbles and no
    questions; nothing is thrown. *)
Theorem no_candidates_empty_result {Source ImageEl Mat Contour : Type}
    (cv : Toolkit Source ImageEl Mat Contour) (sort : ArraySort) (s : Source)
    (o : Options) (imgEl : ImageEl) :
  StableSort sort ->
  ensureImageEl cv s = Some imgEl ->
  let gray := enhance cv (cvtColor cv (imread cv imgEl)) in
  let contours := contoursOf cv (GaussianBlur cv gray) in
  firstPass cv o 0 contours [] = [] ->
  relaxedPass cv o 0 contours [] = [] ->
  analyzeOmrImage cv sort s o = Returned (mkResult [] []).
Proof.
  intros Hsort Himg gray contours Hfirst Hrelaxed.
  rewrite (analyzeOmrImage_engine sort Hsort).
  unfold analyzeOmrImage. rewrite Himg.
  unfold analyzeFrom, extractCandidates.
  fold gray. fold contours. rewrite Hfirst. simpl. rewrite Hrelaxed.
  reflexivity.
Qed.

Lemma no_candidates_empty_result_witness :
  analyzeOmrImage (Synthetic.toolkit Synthetic.noClahe) sortBy (Some Synthetic.sheetSpeck)
    noOptions = Returned (mkResult [] []).
Proof.
  apply (no_candidates_empty_result (Synthetic.toolkit Synthetic.noClahe) sortBy
           (Some Synthetic.sheetSpeck) noOptions Synthetic.sheetSpeck).
  - apply sortBy_StableSort.
  - reflexivity.
  - vm_compute. reflexivity.
  - vm_compute. reflexivity.
Defined.




(** ** The row-tolerance scenario *)

(** C2 as stated fails: at height 2000 the tolerance is 10; after the
    bubbles at [y = 100] and [y = 109] the mean of the row is 104.5, and the
    bubble at [y = 111], 6.5 away from it, joins the row. *)
Lemma scenario_111_joins_the_row :
  rowTolerance 2000 = 10
  /\ clusterRows (rowTolerance 2000)
       [bubbleAt 50 100; bubbleAt 150 109; bubbleAt 250 111]
     = [[bubbleAt 50 100; bubbleAt 150 109; bubbleAt 250 111]]
  /\ clusterRows (rowTolerance 2000)
       [bubbleAt 50 100; bubbleAt 150 109; bubbleAt 250 111]
     <> [[bubbleAt 50 100; bubbleAt 150 109]; [bubbleAt 250 111]].
Proof.
  split; [reflexivity|]. split; [reflexivity|].
  vm_compute. discriminate.
Qed.

(** C2, as the code has it.  At height 2000 the tolerance is 10.  Bubbles at
    [y = 100] and [y = 109] land in one row, whose mean is then 104.5; the
    bubble scanned next joins that row when it is within 10 of 104.5, as
    [y = 111] is, and starts a new row otherwise, as [y = 115] does.  The
    bubble at [y = 111] starts a new row when it is scanned right after the
    one at [y = 100]. *)
Theorem row_tolerance_scenario (b1 b2 b3 : Bubble.t) :
  Bubble.y b1 = 100 -> Bubble.y b2 = 109 ->
  rowTolerance 2000 = 10
  /\ clusterRows (rowTolerance 2000) [b1; b2] = [[b1; b2]]
  /\ (Bubble.y b3 = 111 -> clusterRows (rowTolerance 2000) [b1; b3] = [[b1]; [b3]])
  /\ clusterRows (rowTolerance 2000) [b1; b2; b3]
     = (if Qle_bool (Qabs (Bubble.y b3 - (209 # 2))) 10
        then [[b1; b2; b3]] else [[b1; b2]; [b3]])
  /\ (Bubble.y b3 = 111 -> clusterRows (rowTolerance 2000) [b1; b2; b3] = [[b1; b2; b3]])
  /\ (Bubble.y b3 = 115 -> clusterRows (rowTolerance 2000) [b1; b2; b3] = [[b1; b2]; [b3]]).
Proof.
  intros H1 H2.
  assert (Htol : rowTolerance 2000 = 10) by reflexivity.
  pose proof (clusterStep_snoc 10 [] [b1] b2) as Hstep2.
  pose proof (clusterStep_snoc 10 [] [b1; b2] b3) as Hstep3.
  cbn [app] in Hstep2, Hstep3. unfold avgY in Hstep2, Hstep3.
  cbn [fold_left length] in Hstep2, Hstep3. rewrite H1 in Hstep2, Hstep3.
  rewrite H2 in Hstep3.
  change ((0 + 100 + 109) / ofNat 2) with (209 # 2) in Hstep3.
  assert (Hjoin : Qle_bool (Qabs (Bubble.y b2 - (0 + 100) / ofNat 1)) 10 = true)
    by (rewrite H2; reflexivity).
  rewrite Hjoin in Hstep2.
  assert (H12 : clusterRows (rowTolerance 2000) [b1; b2] = [[b1; b2]]).
  { rewrite Htol. unfold clusterRows. cbn [fold_left].
    rewrite clusterStep_nil. exact Hstep2. }
  assert (H123 : clusterRows (rowTolerance 2000) [b1; b2; b3]
                 = (if Qle_bool (Qabs (Bubble.y b3 - (209 # 2))) 10
                    then [[b1; b2; b3]] else [[b1; b2]; [b3]])).
  { rewrite Htol. unfold clusterRows. cbn [fold_left].
    rewrite clusterStep_nil, Hstep2. exact Hstep3. }
  split; [exact Htol|]. split; [exact H12|]. split; [|split; [exact H123|]].
  - intros H3. rewrite Htol. unfold clusterRows. cbn [fold_left].
    rewrite clusterStep_nil.
    pose proof (clusterStep_snoc 10 [] [b1] b3) as Hstep.
    cbn [app] in Hstep. unfold avgY in Hstep. cbn [fold_left length] in Hstep.
    rewrite H1, H3 in Hstep. exact Hstep.
  - split; intros H3; rewrite H123, H3; reflexivity.
Qed.

Lemma row_tolerance_scenario_witness :
  rowTolerance 2000 = 10
  /\ clusterRows (rowTolerance 2000) [bubbleAt 50 100; bubbleAt 150 109]
     = [[bubbleAt 50 100; bubbleAt 150 109]]
  /\ (Bubble.y (bubbleAt 250 115) = 111 ->
      clusterRows (rowTolerance 2000) [bubbleAt 50 100; bubbleAt 250 115]
      = [[bubbleAt 50 100]; [bubbleAt 250 115]])
  /\ clusterRows (rowTolerance 2000) [bubbleAt 50 100; bubbleAt 150 109; bubbleAt 250 115]
     = (if Qle_bool (Qabs (Bubble.y (bubbleAt 250 115) - (209 # 2))) 10
        then [[bubbleAt 50 100; bubbleAt 150 109; bubbleAt 250 115]]
        else [[bubbleAt 50 100; bubbleAt 150 109]; [bubbleAt 250 115]])
  /\ (Bubble.y (bubbleAt 250 115) = 111 ->
      clusterRows (rowTolerance 2000) [bubbleAt 50 100; bubbleAt 150 109; bubbleAt 250 115]
      = [[bubbleAt 50 100; bubbleAt 150 109; bubbleAt 250 115]])
  /\ (Bubble.y (bubbleAt 250 115) = 115 ->
      clusterRows (rowTolerance 2000) [bubbleAt 50 100; bubbleAt 150 109; bubbleAt 250 115]
      = [[bubbleAt 50 100; bubbleAt 150 109]; [bubbleAt 250 115]]).
Proof.
  apply (row_tolerance_scenario (bubbleAt 50 100) (bubbleAt 150 109) (bubbleAt 250 115));
    reflexivity.
Defined.

(** ** Candidate extraction *)

Lemma hypotLt_false (dx dy t : Q) :
  0 < t -> (hypotLt dx dy t = false <-> t * t <= dx * dx + dy * dy).
Proof.
  intros Ht. unfold hypotLt.
  rewrite (proj2 (Qltb_lt 0 t) Ht). simpl. apply Qltb_ge.
Qed.

Lemma dedupRadius_pos (c : Bubble.t) : 0 < dedupRadius c.
Proof.
  unfold dedupRadius. destruct (Math_max_lub 5 (Bubble.r c * (6 # 10))) as [H5 _].
  eapply Qlt_le_trans; [|exact H5]. reflexivity.
Qed.

Lemma nearby_None (c : Bubble.t) (bubbles : list Bubble.t) :
  nearby c bubbles = None <-> forall b, b ∈ bubbles -> AtLeastApart c b.
Proof.
  unfold nearby, AtLeastApart, dist2.
  induction bubbles as [|b0 bubbles IH]; simpl.
  - split; [|reflexivity]. intros _ b Hb. apply elem_of_nil in Hb. destruct Hb.
  - fold (dedupRadius c).
    destruct (hypotLt _ _ (dedupRadius c)) eqn:Hnear.
    + split; [discriminate|]. intros Hall. exfalso.
      pose proof (Hall b0 ltac:(left)) as H0.
      apply (hypotLt_false _ _ _ (dedupRadius_pos c)) in H0. congruence.
    + apply (hypotLt_false _ _ _ (dedupRadius_pos c)) in Hnear.
      rewrite IH. split.
      * intros Hall b Hb. apply elem_of_cons in Hb as [-> | Hb]; auto.
      * intros Hall b Hb. apply Hall. right. exact Hb.
Qed.

(** A candidate sits on top of itself. *)
Lemma nearby_self (c : Bubble.t) (bubbles : list Bubble.t) :
  c ∈ bubbles -> nearby c bubbles <> None.
Proof.
  intros Hin Hnone. pose proof (proj1 (nearby_None c bubbles) Hnone c Hin) as Hapart.
  unfold AtLeastApart, dist2 in Hapart.
  pose proof (dedupRadius_pos c) as Hpos.
  assert (Hzero : (Bubble.x c - Bubble.x c) * (Bubble.x c - Bubble.x c)
                  + (Bubble.y c - Bubble.y c) * (Bubble.y c - Bubble.y c) == 0) by ring.
  rewrite Hzero in Hapart.
  assert (Hsq : 0 < dedupRadius c * dedupRadius c).
  { rewrite <- (Qmult_0_l (dedupRadius c)). apply Qmult_lt_compat_r; assumption. }
  exact (Qlt_irrefl _ (Qlt_le_trans _ _ _ Hsq Hapart)).
Qed.

Section Extraction.
Context {Source ImageEl Mat Contour : Type}.
Variable cv : Toolkit Source ImageEl Mat Contour.
Variable o : Options.
Variable contours : list Contour.

Lemma passes_true (lo hi minCirc : Q) (cnt : Contour) :
  passes cv lo hi minCirc cnt = true <->
  lo <= contourArea cv cnt /\ contourArea cv cnt <= hi /\ minCirc <= circularity cv cnt.
Proof.
  unfold passes. cbv zeta. split.
  - intros H. apply andb_true_iff in H as [Ha Hc].
    apply negb_true_iff in Ha, Hc. apply orb_false_iff in Ha as [Hlo Hhi].
    apply Qltb_ge in Hlo, Hhi, Hc. auto.
  - intros (Hlo & Hhi & Hc). apply Qltb_ge in Hlo, Hhi, Hc.
    rewrite Hlo, Hhi, Hc. reflexivity.
Qed.

Lemma candidate_index (i : nat) (cnt : Contour) :
  Bubble.contourIndex (candidate cv i cnt) = Z.of_nat i.
Proof.
  unfold candidate. destruct (minEnclosingCircle cv cnt) as [[cx cy] radius]. reflexivity.
Qed.

Lemma firstPass_spec (rest : list Contour) :
  forall (i : nat) (bubbles : list Bubble.t),
    (forall j cnt, rest !! j = Some cnt -> contours !! (i + j)%nat = Some cnt) ->
    exists added,
      firstPass cv o i rest bubbles = bubbles ++ added
      /\ Forall (FromContours cv contours) added
      /\ Forall (fun c => (Z.of_nat i <= Bubble.contourIndex c)%Z) added
      /\ NoDup (Bubble.contourIndex <$> added).
Proof.
  induction rest as [|cnt rest IH]; intros i bubbles Hrest; simpl.
  - exists []. rewrite app_nil_r. repeat split; constructor.
  - destruct (IH (S i) (if passes cv (minAreaOf o) (maxAreaOf o) (35 # 100) cnt
                        then bubbles ++ [candidate cv i cnt] else bubbles))
      as (added & Hrun & Hfrom & Hidx & Hnodup).
    { intros j c Hj. replace (S i + j)%nat with (i + S j)%nat by lia. apply Hrest, Hj. }
    rewrite Hrun.
    assert (Hidx' : Forall (fun c => (Z.of_nat i <= Bubble.contourIndex c)%Z) added).
    { eapply Forall_impl; [exact Hidx|]. simpl. intros c Hc. lia. }
    destruct (passes cv _ _ _ cnt).
    + exists (candidate cv i cnt :: added). rewrite <- app_assoc. split; [reflexivity|].
      split; [|split].
      * constructor; [|exact Hfrom]. exists i, cnt. split; [|reflexivity].
        rewrite <- (Nat.add_0_r i). apply Hrest. reflexivity.
      * constructor; [rewrite candidate_index; lia | exact Hidx'].
      * rewrite fmap_cons. constructor; [|exact Hnodup].
        intros Hin. apply list_elem_of_fmap in Hin as (c & Heq & Hc).
        eapply Forall_forall in Hidx; [|exact Hc]. simpl in Hidx.
        rewrite candidate_index in Heq. lia.
    + exists added. auto.
Qed.

Lemma relaxedPass_spec (rest : list Contour) :
  forall (i : nat) (bubbles : list Bubble.t),
    (forall j cnt, rest !! j = Some cnt -> contours !! (i + j)%nat = Some cnt) ->
    Forall (FromContours cv contours) bubbles ->
    NoDup (Bubble.contourIndex <$> bubbles) ->
    exists extras,
      relaxedPass cv o i rest bubbles = bubbles ++ extras
      /\ NoDup (Bubble.contourIndex <$> bubbles ++ extras)
      /\ forall pre c post,
           extras = pre ++ c :: post ->
           AddedByRelaxed cv o contours (bubbles ++ pre) c.
Proof.
  induction rest as [|cnt rest IH]; intros i bubbles Hrest Hfrom Hnodup; simpl.
  - exists []. rewrite app_nil_r. split; [reflexivity|]. split; [exact Hnodup|].
    intros pre c post Heq. destruct pre; discriminate Heq.
  - assert (Hcnt : contours !! i = Some cnt).
    { rewrite <- (Nat.add_0_r i). apply Hrest. reflexivity. }
    assert (Hrest' : forall j c, rest !! j = Some c -> contours !! (S i + j)%nat = Some c).
    { intros j c Hj. replace (S i + j)%nat with (i + S j)%nat by lia. apply Hrest, Hj. }
    destruct (passes cv (minAreaOf o * (6 # 10)) (maxAreaOf o * 2) (28 # 100) cnt)
      eqn:Hpass; [|apply (IH (S i) bubbles Hrest' Hfrom Hnodup)].
    destruct (nearby (candidate cv i cnt) bubbles) as [b|] eqn:Hnear;
      [apply (IH (S i) bubbles Hrest' Hfrom Hnodup)|].
    set (c := candidate cv i cnt) in *.
    assert (Hfresh : Bubble.contourIndex c ∉ Bubble.contourIndex <$> bubbles).
    { intros Hin. apply list_elem_of_fmap in Hin as (b & Heq & Hb).
      pose proof (proj1 (Forall_forall _ _) Hfrom b Hb) as (j & cntj & Hj & Hbeq).
      subst b. unfold c in Heq. rewrite !candidate_index in Heq.
      apply Nat2Z.inj in Heq. subst j. rewrite Hcnt in Hj. injection Hj as <-.
      exact (nearby_self _ _ Hb Hnear). }
    destruct (IH (S i) (bubbles ++ [c]) Hrest') as (extras & Hrun & Hnd & Hadded).
    + apply Forall_app. split; [exact Hfrom|]. constructor; [|constructor].
      exists i, cnt. auto.
    + rewrite fmap_app. apply NoDup_app. split; [exact Hnodup|]. split.
      * intros z Hz Hz'. simpl in Hz'. apply list_elem_of_singleton in Hz'. subst z.
        exact (Hfresh Hz).
      * simpl. apply NoDup_singleton.
    + exists (c :: extras). rewrite <- app_assoc in Hrun, Hnd. simpl in Hrun, Hnd.
      split; [exact Hrun|]. split; [exact Hnd|].
      intros [|c0 pre] c' post Heq; simpl in Heq; injection Heq as <- Heq.
      * rewrite app_nil_r. split.
        -- exists i, cnt. split; [exact Hcnt|]. split; [reflexivity|].
           apply passes_true in Hpass. exact Hpass.
        -- apply nearby_None. exact Hnear.
      * specialize (Hadded pre c' post Heq).
        rewrite <- app_assoc in Hadded. exact Hadded.
Qed.

(** The relaxed pass leaves out no contour it should take, and appends in
    the order of the contour vector. *)
Lemma relaxedPass_complete (rest : list Contour) :
  forall (i : nat) (bubbles : list Bubble.t),
    exists extras,
      relaxedPass cv o i rest bubbles = bubbles ++ extras
      /\ Forall (fun c => (Z.of_nat i <= Bubble.contourIndex c)%Z) extras
      /\ StronglySorted
           (fun a b => (Bubble.contourIndex a < Bubble.contourIndex b)%Z) extras
      /\ forall j cnt,
           rest !! j = Some cnt -> RelaxedBounds cv o cnt ->
           (forall b, b ∈ bubbles -> AtLeastApart (candidate cv (i + j) cnt) b) ->
           (forall b, b ∈ extras -> (Bubble.contourIndex b < Z.of_nat (i + j))%Z ->
                      AtLeastApart (candidate cv (i + j) cnt) b) ->
           candidate cv (i + j) cnt ∈ extras.
Proof.
  induction rest as [|cnt rest IH]; intros i bubbles; simpl.
  - exists []. rewrite app_nil_r. split; [reflexivity|].
    split; [constructor|]. split; [constructor|].
    intros j c Hj. discriminate Hj.
  - set (c := candidate cv i cnt).
    destruct (passes cv (minAreaOf o * (6 # 10)) (maxAreaOf o * 2) (28 # 100) cnt)
      eqn:Hpass.
    + destruct (nearby c bubbles) as [b0|] eqn:Hnear.
      * destruct (IH (S i) bubbles) as (extras & Hrun & Hidx & Hsorted & Hall).
        exists extras. split; [exact Hrun|].
        split; [eapply Forall_impl; [exact Hidx|]; simpl; intros; lia|].
        split; [exact Hsorted|].
        intros [|j] cnt' Hj Hb Hfirst Hbefore; simpl in Hj.
        -- injection Hj as <-. rewrite Nat.add_0_r in Hfirst. fold c in Hfirst.
           apply nearby_None in Hfirst. congruence.
        -- replace (i + S j)%nat with (S i + j)%nat in * by lia.
           apply (Hall j cnt' Hj Hb Hfirst Hbefore).
      * destruct (IH (S i) (bubbles ++ [c])) as (extras & Hrun & Hidx & Hsorted & Hall).
        exists (c :: extras). rewrite <- app_assoc in Hrun. split; [exact Hrun|].
        split.
        { constructor; [unfold c; rewrite candidate_index; lia|].
          eapply Forall_impl; [exact Hidx|]. simpl. intros. lia. }
        split.
        { constructor; [exact Hsorted|].
          eapply Forall_impl; [exact Hidx|]. simpl. intros b Hb.
          unfold c. rewrite candidate_index. lia. }
        intros [|j] cnt' Hj Hb Hfirst Hbefore; simpl in Hj.
        -- injection Hj as <-. rewrite Nat.add_0_r. left.
        -- replace (i + S j)%nat with (S i + j)%nat in * by lia. right.
           apply (Hall j cnt' Hj Hb).
           ++ intros b Hin. apply elem_of_app in Hin as [Hin | Hin]; [auto|].
              apply list_elem_of_singleton in Hin. subst b.
              apply Hbefore; [left|]. unfold c. rewrite candidate_index. lia.
           ++ intros b Hin Hlt. apply Hbefore; [right; exact Hin | exact Hlt].
    + destruct (IH (S i) bubbles) as (extras & Hrun & Hidx & Hsorted & Hall).
      exists extras. split; [exact Hrun|].
      split; [eapply Forall_impl; [exact Hidx|]; simpl; intros; lia|].
      split; [exact Hsorted|].
      intros [|j] cnt' Hj Hb Hfirst Hbefore; simpl in Hj.
      * injection Hj as <-. apply passes_true in Hb. congruence.
      * replace (i + S j)%nat with (S i + j)%nat in * by lia.
        apply (Hall j cnt' Hj Hb Hfirst Hbefore).
Qed.

End Extraction.

(** C4, as the code has it.  The relaxed pass runs when the first pass
    accepted fewer than 10 candidates and not otherwise, once.  It keeps the
    candidates of the first pass and appends to them; each candidate it
    appends is the circle of a contour whose area lies between 0.6 times the
    minimum and twice the maximum and whose circularity is at least 0.28,
    and its center is at a distance of at least [max(5, radius * 0.6)] from
    every candidate accepted before it.  It appends in the order of the
    contour vector and leaves out no such contour: the circle of a contour
    within the widened bounds is appended whenever it is at that distance
    from every candidate of the first pass and from every candidate
    appended for an earlier contour.  No contour is accepted twice. *)
Theorem relaxed_retry_policy {Source ImageEl Mat Contour : Type}
    (cv : Toolkit Source ImageEl Mat Contour) (o : Options) (contours : list Contour) :
  let first := firstPass cv o 0 contours [] in
  ((10 <= length first)%nat -> extractCandidates cv o contours = first)
  /\ ((length first < 10)%nat ->
      extractCandidates cv o contours = relaxedPass cv o 0 contours first)
  /\ NoDup (Bubble.contourIndex <$> extractCandidates cv o contours)
  /\ exists extras,
       relaxedPass cv o 0 contours first = first ++ extras
       /\ NoDup (Bubble.contourIndex <$> (first ++ extras))
       /\ (forall pre c post,
             extras = pre ++ c :: post ->
             AddedByRelaxed cv o contours (first ++ pre) c)
       /\ StronglySorted
            (fun a b => (Bubble.contourIndex a < Bubble.contourIndex b)%Z) extras
       /\ (forall i cnt,
             contours !! i = Some cnt -> RelaxedBounds cv o cnt ->
             (forall b, b ∈ first -> AtLeastApart (candidate cv i cnt) b) ->
             (forall b, b ∈ extras -> (Bubble.contourIndex b < Z.of_nat i)%Z ->
                        AtLeastApart (candidate cv i cnt) b) ->
             candidate cv i cnt ∈ extras).
Proof.
  intros first.
  destruct (firstPass_spec cv o contours contours 0 []) as (added & Hfirst & Hfrom & _ & Hnd).
  { intros j cnt Hj. exact Hj. }
  simpl in Hfirst. fold first in Hfirst.
  destruct (relaxedPass_spec cv o contours contours 0 first)
    as (extras & Hrun & Hnd' & Hadded).
  { intros j cnt Hj. exact Hj. }
  { rewrite Hfirst. exact Hfrom. }
  { rewrite Hfirst. exact Hnd. }
  destruct (relaxedPass_complete cv o contours 0 first)
    as (extras' & Hrun' & _ & Hsorted & Hall).
  assert (extras' = extras) as ->.
  { rewrite Hrun in Hrun'. apply app_inv_head in Hrun'. congruence. }
  unfold extractCandidates. fold first.
  split; [|split; [|split]].
  - intros Hlen. destruct (Nat.ltb_spec (length first) 10); [lia | reflexivity].
  - intros Hlen. destruct (Nat.ltb_spec (length first) 10); [reflexivity | lia].
  - destruct (Nat.ltb (length first) 10).
    + rewrite Hrun. exact Hnd'.
    + rewrite Hfirst. exact Hnd.
  - exists extras. split; [exact Hrun|]. split; [exact Hnd'|].
    split; [exact Hadded|]. split; [exact Hsorted|].
    intros i cnt Hi. apply (Hall i cnt Hi).
Qed.

(** C4 as stated fails at the radius itself: a region whose center is
    exactly 5 pixels from an accepted candidate, with [max(5, 5.5 * 0.6) = 5],
    is added by the relaxed pass although it is not farther than 5 pixels
    away. *)
Lemma relaxed_pass_accepts_at_the_radius :
  let cv := Synthetic.toolkit Synthetic.noClahe in
  let contours := Synthetic.marksOf Synthetic.sheetNear in
  let c1 := Bubble.mk 100 100 20 0 None None in
  let c2 := Bubble.mk 105 100 (11 # 2) 1 None None in
  firstPass cv noOptions 0 contours [] = [c1]
  /\ extractCandidates cv noOptions contours = [c1; c2]
  /\ dedupRadius c2 = 5
  /\ dist2 c1 c2 == 25
  /\ ~ FartherApart c2 c1
  /\ ~ (forall pre c post,
          extractCandidates cv noOptions contours = pre ++ c :: post ->
          (length (firstPass cv noOptions 0 contours []) <= length pre)%nat ->
          forall b, b ∈ pre -> FartherApart c b).
Proof.
  intros cv contours c1 c2.
  assert (Hnot : ~ FartherApart c2 c1).
  { intros H. vm_compute in H. discriminate H. }
  split; [reflexivity|]. split; [reflexivity|]. split; [reflexivity|].
  split; [reflexivity|]. split; [exact Hnot|].
  intros Hall. apply Hnot.
  apply (Hall [c1] c2 []); [reflexivity | simpl; lia | left].
Qed.

(** * Further properties of the pipeline *)

(** ** The first pass *)

Section FirstPass.
Context {Source ImageEl Mat Contour : Type}.
Variable cv : Toolkit Source ImageEl Mat Contour.
Variable o : Options.

Lemma firstPass_elem (rest : list Contour) :
  forall (i : nat) (bubbles : list Bubble.t) (b : Bubble.t),
    b ∈ firstPass cv o i rest bubbles <->
    b ∈ bubbles
    \/ exists j cnt,
         rest !! j = Some cnt /\ b = candidate cv (i + j) cnt /\ FirstBounds cv o cnt.
Proof.
  induction rest as [|cnt rest IH]; intros i bubbles b; simpl.
  - split; [auto|]. intros [H | (j & c & Hj & _)]; [exact H | discriminate Hj].
  - rewrite IH. split.
    + intros [Hin | (j & c & Hj & Hb & Hok)].
      * destruct (passes cv _ _ _ cnt) eqn:Hpass; [|auto].
        apply elem_of_app in Hin as [Hin | Hin]; [auto|].
        apply list_elem_of_singleton in Hin. right. exists 0%nat, cnt.
        rewrite Nat.add_0_r. split; [reflexivity|]. split; [exact Hin|].
        apply passes_true, Hpass.
      * right. exists (S j), c. replace (i + S j)%nat with (S i + j)%nat by lia. auto.
    + intros [Hin | (j & c & Hj & Hb & Hok)].
      * left. destruct (passes cv _ _ _ cnt); [apply elem_of_app|]; auto.
      * destruct j as [|j]; simpl in Hj.
        -- injection Hj as <-. left. rewrite Nat.add_0_r in Hb.
           rewrite (proj2 (passes_true cv _ _ _ cnt) Hok).
           apply elem_of_app. right. apply list_elem_of_singleton, Hb.
        -- right. exists j, c. replace (S i + j)%nat with (i + S j)%nat by lia. auto.
Qed.

Lemma firstPass_increasing (rest : list Contour) :
  forall (i : nat) (bubbles : list Bubble.t),
    StronglySorted (fun a b => (Bubble.contourIndex a < Bubble.contourIndex b)%Z) bubbles ->
    Forall (fun b => (Bubble.contourIndex b < Z.of_nat i)%Z) bubbles ->
    StronglySorted (fun a b => (Bubble.contourIndex a < Bubble.contourIndex b)%Z)
      (firstPass cv o i rest bubbles).
Proof.
  induction rest as [|cnt rest IH]; intros i bubbles Hs Hlt; simpl; [exact Hs|].
  apply IH.
  - destruct (passes cv _ _ _ cnt); [|exact Hs].
    clear IH. induction Hs as [|a l Hl IHl Ha]; simpl.
    + repeat constructor.
    + apply Forall_cons in Hlt as [Hai Hlt].
      constructor; [apply IHl, Hlt|].
      apply Forall_app. split; [exact Ha|].
      constructor; [|constructor]. rewrite candidate_index. exact Hai.
  - assert (Hlt' : Forall (fun b => (Bubble.contourIndex b < Z.of_nat (S i))%Z) bubbles).
    { eapply Forall_impl; [exact Hlt|]. simpl. intros b Hb. lia. }
    destruct (passes cv _ _ _ cnt); [|exact Hlt'].
    apply Forall_app. split; [exact Hlt'|].
    constructor; [|constructor]. rewrite candidate_index. lia.
Qed.

End FirstPass.

(** X1.  The first pass accepts exactly the contours whose area lies between
    the minimum and the maximum and whose circularity is at least 0.35, each
    as its enclosing circle, in the order of the contour vector. *)
Theorem first_pass_accepts_exactly {Source ImageEl Mat Contour : Type}
    (cv : Toolkit Source ImageEl Mat Contour) (o : Options) (contours : list Contour) :
  (forall b,
      b ∈ firstPass cv o 0 contours [] <->
      exists i cnt,
        contours !! i = Some cnt /\ b = candidate cv i cnt /\ FirstBounds cv o cnt)
  /\ StronglySorted (fun a b => (Bubble.contourIndex a < Bubble.contourIndex b)%Z)
       (firstPass cv o 0 contours []).
Proof.
  split.
  - intros b. rewrite firstPass_elem. split.
    + intros [Hin | H]; [apply elem_of_nil in Hin; destruct Hin | exact H].
    + intros H. right. exact H.
  - apply firstPass_increasing; constructor.
Qed.

Lemma circularity_perimeter {Source ImageEl Mat Contour : Type}
    (cv : Toolkit Source ImageEl Mat Contour) (cnt : Contour) :
  0 < circularity cv cnt -> 0 < arcLength cv cnt.
Proof.
  unfold circularity. cbv zeta.
  destruct (Qltb 0 (arcLength cv cnt)) eqn:Hp.
  - intros _. apply Qltb_lt, Hp.
  - intros H. exfalso. exact (Qlt_irrefl _ H).
Qed.

Lemma extractCandidates_from {Source ImageEl Mat Contour : Type}
    (cv : Toolkit Source ImageEl Mat Contour) (o : Options) (contours : list Contour)
    (b : Bubble.t) :
  b ∈ extractCandidates cv o contours ->
  exists i cnt,
    contours !! i = Some cnt /\ b = candidate cv i cnt
    /\ (FirstBounds cv o cnt \/ RelaxedBounds cv o cnt).
Proof.
  intros Hin.
  destruct (firstPass_spec cv o contours contours 0 [])
    as (added & Hfirst & Hfrom & _ & Hnd).
  { intros j cnt Hj. exact Hj. }
  simpl in Hfirst.
  destruct (relaxedPass_spec cv o contours contours 0 (firstPass cv o 0 contours []))
    as (extras & Hrun & _ & Hadded).
  { intros j cnt Hj. exact Hj. }
  { rewrite Hfirst. exact Hfrom. }
  { rewrite Hfirst. exact Hnd. }
  assert (Hfirst_ok : b ∈ firstPass cv o 0 contours [] ->
            exists i cnt, contours !! i = Some cnt /\ b = candidate cv i cnt
                          /\ (FirstBounds cv o cnt \/ RelaxedBounds cv o cnt)).
  { intros Hb. apply firstPass_elem in Hb as [Hb | (i & cnt & Hi & Hbeq & Hok)].
    - apply elem_of_nil in Hb. destruct Hb.
    - exists i, cnt. auto. }
  unfold extractCandidates in Hin.
  destruct (Nat.ltb _ 10); [|exact (Hfirst_ok Hin)].
  rewrite Hrun in Hin. apply elem_of_app in Hin as [Hb | Hb]; [exact (Hfirst_ok Hb)|].
  apply list_elem_of_split in Hb as (pre & post & ->).
  destruct (Hadded pre b post eq_refl) as ((i & cnt & Hi & Hbeq & Hok) & _).
  exists i, cnt. auto.
Qed.

(** X2.  Every candidate handed to the classifier is the enclosing circle of
    a contour that met the bounds of the first or of the relaxed pass; its
    circularity is at least 0.28 and its perimeter is positive: a contour
    of perimeter zero, whose circularity the code sets to 0, is never a
    candidate. *)
Theorem candidates_have_perimeter {Source ImageEl Mat Contour : Type}
    (cv : Toolkit Source ImageEl Mat Contour) (o : Options) (contours : list Contour)
    (b : Bubble.t) :
  b ∈ extractCandidates cv o contours ->
  exists i cnt,
    contours !! i = Some cnt /\ b = candidate cv i cnt
    /\ (FirstBounds cv o cnt \/ RelaxedBounds cv o cnt)
    /\ 28 # 100 <= circularity cv cnt
    /\ 0 < arcLength cv cnt.
Proof.
  intros Hin.
  pose proof (extractCandidates_from cv o contours b Hin) as Hbounds.
  destruct Hbounds as (i & cnt & Hi & Hbeq & Hok).
  assert (Hcirc : 28 # 100 <= circularity cv cnt).
  { destruct Hok as [(_ & _ & Hc) | (_ & _ & Hc)]; [|exact Hc].
    eapply Qle_trans; [|exact Hc]. discriminate. }
  exists i, cnt. repeat split; try assumption.
  apply circularity_perimeter. eapply Qlt_le_trans; [|exact Hcirc]. reflexivity.
Qed.

Lemma candidates_have_perimeter_witness :
  exists i cnt,
    Synthetic.marksOf Synthetic.sheetNear !! i = Some cnt
    /\ Bubble.mk 105 100 (11 # 2) 1 None None
       = candidate (Synthetic.toolkit Synthetic.noClahe) i cnt
    /\ (FirstBounds (Synthetic.toolkit Synthetic.noClahe) noOptions cnt
        \/ RelaxedBounds (Synthetic.toolkit Synthetic.noClahe) noOptions cnt)
    /\ 28 # 100 <= circularity (Synthetic.toolkit Synthetic.noClahe) cnt
    /\ 0 < arcLength (Synthetic.toolkit Synthetic.noClahe) cnt.
Proof.
  apply (candidates_have_perimeter (Synthetic.toolkit Synthetic.noClahe) noOptions
           (Synthetic.marksOf Synthetic.sheetNear)).
  vm_compute. right. left.
Defined.

(** ** Row clustering keeps its rule *)

Lemma snoc_split {A} (pre post l : list A) (b z : A) :
  pre ++ b :: post = l ++ [z] ->
  (post = [] /\ pre = l /\ b = z)
  \/ exists post', post = post' ++ [z] /\ l = pre ++ b :: post'.
Proof.
  destruct post as [|p post _] using rev_ind; intros Heq.
  - left. apply app_inj_tail in Heq as [-> ->]. auto.
  - right. exists post.
    change (pre ++ b :: post ++ [p]) with (pre ++ (b :: post) ++ [p]) in Heq.
    rewrite app_assoc in Heq. apply app_inj_tail in Heq as [<- ->]. auto.
Qed.

Lemma JoinedWithin_single (tol : Q) (bub : Bubble.t) : JoinedWithin tol [bub].
Proof.
  intros pre b post Heq Hne. exfalso. apply Hne.
  destruct pre as [|p pre]; [reflexivity|].
  injection Heq as _ Heq. destruct pre; discriminate Heq.
Qed.

(** What the scan keeps true of the rows formed so far. *)
Lemma clusterStep_keeps (tol : Q) (rows : list (list Bubble.t)) (bub : Bubble.t) :
  Forall (JoinedWithin tol) rows ->
  (forall k r1 r2, rows !! k = Some r1 -> rows !! S k = Some r2 -> OpenedBeyond tol r1 r2) ->
  Forall (JoinedWithin tol) (clusterStep tol rows bub)
  /\ (forall k r1 r2,
        clusterStep tol rows bub !! k = Some r1 ->
        clusterStep tol rows bub !! S k = Some r2 -> OpenedBeyond tol r1 r2).
Proof.
  intros Hjoin Hadj.
  destruct (last rows) as [lastRow|] eqn:Hlast.
  - apply last_Some in Hlast as [rows' ->].
    apply Forall_app in Hjoin as [Hjoin' Hjoinlast].
    apply Forall_cons in Hjoinlast as [Hjoinlast _].
    rewrite clusterStep_snoc.
    destruct (Qle_bool (Qabs (Bubble.y bub - avgY lastRow)) tol) eqn:Htest.
    + apply Qle_bool_iff in Htest. split.
      * apply Forall_app. split; [exact Hjoin'|]. constructor; [|constructor].
        intros pre b post Heq Hne.
        destruct (snoc_split pre post lastRow b bub (eq_sym Heq))
          as [(_ & -> & ->) | (post' & _ & Hrow)]; [exact Htest|].
        exact (Hjoinlast pre b post' Hrow Hne).
      * intros k r1 r2 H1 H2.
        destruct (decide (S k < length rows')%nat) as [Hk|Hk].
        -- rewrite lookup_app_l in H1, H2 by lia.
           apply (Hadj k); rewrite lookup_app_l by lia; assumption.
        -- destruct (decide (S k = length rows')) as [Hk'|Hk'].
           ++ rewrite lookup_app_l in H1 by lia.
              rewrite lookup_app_r in H2 by lia.
              replace (S k - length rows')%nat with 0%nat in H2 by lia.
              simpl in H2. injection H2 as <-.
              destruct (Hadj k r1 lastRow) as (b & rest & -> & Hfar).
              { rewrite lookup_app_l by lia. exact H1. }
              { rewrite lookup_app_r by lia.
                replace (S k - length rows')%nat with 0%nat by lia. reflexivity. }
              exists b, (rest ++ [bub]). split; [reflexivity | exact Hfar].
           ++ apply lookup_lt_Some in H2. rewrite length_app in H2. simpl in H2. lia.
    + apply Qle_bool_lt in Htest. rewrite app_assoc. split.
      * apply Forall_app. split.
        -- apply Forall_app. split; [exact Hjoin'|]. constructor; [exact Hjoinlast | constructor].
        -- constructor; [apply JoinedWithin_single | constructor].
      * intros k r1 r2 H1 H2.
        destruct (decide (S k < length (rows' ++ [lastRow]))%nat) as [Hk|Hk].
        -- rewrite lookup_app_l in H1, H2 by lia. exact (Hadj k r1 r2 H1 H2).
        -- destruct (decide (S k = length (rows' ++ [lastRow]))) as [Hk'|Hk'].
           ++ rewrite lookup_app_l in H1 by lia.
              rewrite lookup_app_r in H2 by lia.
              replace (S k - length (rows' ++ [lastRow]))%nat with 0%nat in H2 by lia.
              simpl in H2. injection H2 as <-.
              rewrite length_app in Hk'. simpl in Hk'.
              rewrite lookup_app_r in H1 by lia.
              replace (k - length rows')%nat with 0%nat in H1 by lia.
              simpl in H1. injection H1 as <-.
              exists bub, []. split; [reflexivity | exact Htest].
           ++ apply lookup_lt_Some in H2. rewrite !length_app in *. simpl in *. lia.
  - apply last_None in Hlast as ->. rewrite clusterStep_nil. split.
    + constructor; [apply JoinedWithin_single | constructor].
    + intros k r1 r2 _ H2. destruct k; discriminate H2.
Qed.

Lemma clusterRows_keeps (tol : Q) (l : list Bubble.t) :
  forall rows0,
    Forall (JoinedWithin tol) rows0 ->
    (forall k r1 r2, rows0 !! k = Some r1 -> rows0 !! S k = Some r2 -> OpenedBeyond tol r1 r2) ->
    Forall (JoinedWithin tol) (fold_left (clusterStep tol) l rows0)
    /\ (forall k r1 r2,
          fold_left (clusterStep tol) l rows0 !! k = Some r1 ->
          fold_left (clusterStep tol) l rows0 !! S k = Some r2 -> OpenedBeyond tol r1 r2).
Proof.
  induction l as [|bub l IH]; intros rows0 Hjoin Hadj; simpl; [auto|].
  destruct (clusterStep_keeps tol rows0 bub Hjoin Hadj) as [Hjoin' Hadj'].
  apply IH; assumption.
Qed.

(** X3.  The rows formed from any scanned sequence are its consecutive,
    non-empty runs; inside a row every bubble after the first lies within
    the tolerance of the mean height of the bubbles before it, and each row
    after the first was opened by a bubble farther than the tolerance from
    the mean height of the whole row above. *)
Theorem rows_keep_the_tolerance (tol : Q) (filledBubbles : list Bubble.t) :
  concat (clusterRows tol filledBubbles) = filledBubbles
  /\ Forall (fun row => row <> []) (clusterRows tol filledBubbles)
  /\ Forall (JoinedWithin tol) (clusterRows tol filledBubbles)
  /\ forall k prev next,
       clusterRows tol filledBubbles !! k = Some prev ->
       clusterRows tol filledBubbles !! S k = Some next ->
       OpenedBeyond tol prev next.
Proof.
  destruct (clusterRows_from tol filledBubbles []) as [Hcat Hne]; [constructor|].
  destruct (clusterRows_keeps tol filledBubbles []) as [Hjoin Hadj].
  { constructor. }
  { intros k r1 r2 H1. discriminate H1. }
  unfold clusterRows. auto.
Qed.

(** ** What is returned of the bubbles *)

Lemma byYthenX_scanOrder (a b : Bubble.t) : notAfter byYthenX a b -> scanOrder a b.
Proof.
  unfold notAfter, byYthenX, scanOrder. cbv zeta.
  destruct (Qeq_bool_cases (Bubble.y a - Bubble.y b)) as [[-> E] | [-> E]]; intros H.
  - right. split; lra.
  - left. apply Qnot_le_lt. intros Hle. apply E. lra.
Qed.

Section Returned.
Context {Source ImageEl Mat Contour : Type}.
Variable cv : Toolkit Source ImageEl Mat Contour.

Lemma analyzeFrom_bubbles (o : Options) (src gray : Mat) (res : AnalyzeResult) :
  analyzeFrom cv sortBy o src gray = Returned res ->
  bubbles res =
  sortBy byYthenX
    (classify cv o src (GaussianBlur cv gray)
       <$> extractCandidates cv o (contoursOf cv (GaussianBlur cv gray))).
Proof.
  unfold analyzeFrom. intros Hrun.
  destruct (questionsLoop sortBy o 0 _) as [qs|e] in Hrun; [|discriminate].
  simpl in Hrun. injection Hrun as <-. reflexivity.
Qed.

Lemma classify_flags (o : Options) (src blurred : Mat) (b : Bubble.t) :
  lightWithinMask cv ->
  exists ratio,
    Bubble.filledRatio (classify cv o src blurred b) = Some ratio
    /\ inUnit ratio
    /\ Bubble.isFilled (classify cv o src blurred b) = Some (Qle_bool (thresholdOf o) ratio).
Proof.
  intros Hlight. unfold classify. cbv zeta.
  match goal with |- context [circleMask cv ?a ?b ?c ?d ?e] =>
    pose proof (Hlight blurred a b c d e) as Hc; simpl in Hc;
    set (mask := circleMask cv a b c d e) in *
  end.
  set (total := countNonZero cv mask) in *.
  set (white := countNonZero cv _) in *.
  eexists. split; [reflexivity|]. split; [|reflexivity].
  destruct (Z.ltb_spec 0 total) as [Hpos|Hle]; [|split; [apply Qle_refl | discriminate]].
  assert (Htot : 0 < inject_Z total).
  { change 0 with (inject_Z 0). rewrite <- Zlt_Qlt. exact Hpos. }
  apply double_unit.
  - apply Qle_shift_div_l; [exact Htot|].
    rewrite Qmult_0_l. change 0 with (inject_Z 0). rewrite <- Zle_Qle. lia.
  - apply Qle_shift_div_r; [exact Htot|].
    rewrite Qmult_1_l. rewrite <- Zle_Qle. lia.
Qed.

Lemma candidate_unclassified (i : nat) (cnt : Contour) :
  unclassified (candidate cv i cnt) = candidate cv i cnt.
Proof.
  unfold candidate. destruct (minEnclosingCircle cv cnt) as [[cx cy] radius]. reflexivity.
Qed.

Lemma extractCandidates_NoDup (o : Options) (contours : list Contour) :
  NoDup (Bubble.contourIndex <$> extractCandidates cv o contours).
Proof.
  destruct (firstPass_spec cv o contours contours 0 []) as (added & Hfirst & Hfrom & _ & Hnd).
  { intros j cnt Hj. exact Hj. }
  simpl in Hfirst.
  destruct (relaxedPass_spec cv o contours contours 0 (firstPass cv o 0 contours []))
    as (extras & Hrun & Hnd' & _).
  { intros j cnt Hj. exact Hj. }
  { rewrite Hfirst. exact Hfrom. }
  { rewrite Hfirst. exact Hnd. }
  unfold extractCandidates. destruct (Nat.ltb _ 10).
  - rewrite Hrun. exact Hnd'.
  - rewrite Hfirst. exact Hnd.
Qed.

End Returned.

(** X4.  Every returned bubble carries a fill ratio between 0 and 1 and the
    flag that says whether this ratio reaches the fill threshold, when the
    toolkit lights no pixel off the mask. *)
Theorem returned_bubbles_classified {Source ImageEl Mat Contour : Type}
    (cv : Toolkit Source ImageEl Mat Contour) (sort : ArraySort) (s : Source)
    (o : Options) (res : AnalyzeResult) :
  StableSort sort -> lightWithinMask cv ->
  analyzeOmrImage cv sort s o = Returned res ->
  Forall (fun b =>
            exists ratio,
              Bubble.filledRatio b = Some ratio
              /\ inUnit ratio
              /\ Bubble.isFilled b = Some (Qle_bool (thresholdOf o) ratio))
         (bubbles res).
Proof.
  intros Hsort Hlight Hrun. rewrite (analyzeOmrImage_engine sort Hsort) in Hrun.
  destruct (analyzeOmrImage_Returned cv s o res Hrun) as (imgEl & _ & Hfrom & _).
  rewrite (analyzeFrom_bubbles cv o _ _ res Hfrom), sortBy_perm.
  apply Forall_fmap, Forall_forall. intros b _. apply classify_flags, Hlight.
Qed.

Lemma returned_bubbles_classified_witness :
  Forall (fun b =>
            exists ratio,
              Bubble.filledRatio b = Some ratio
              /\ inUnit ratio
              /\ Bubble.isFilled b = Some (Qle_bool (thresholdOf noOptions) ratio))
         (bubbles Synthetic.resultFive).
Proof.
  apply (returned_bubbles_classified (Synthetic.toolkit Synthetic.noClahe) sortBy
           (Some Synthetic.sheetFive) noOptions Synthetic.resultFive).
  - apply sortBy_StableSort.
  - apply synthetic_light.
  - vm_compute. reflexivity.
Defined.

(** X5.  The returned bubbles are the extracted candidates, each once and
    with the position, radius and contour index it was extracted with, in
    scan order: top to bottom, and left to right at equal height. *)
Theorem returned_bubbles_in_scan_order {Source ImageEl Mat Contour : Type}
    (cv : Toolkit Source ImageEl Mat Contour) (sort : ArraySort) (s : Source)
    (o : Options) (res : AnalyzeResult) (imgEl : ImageEl) :
  StableSort sort ->
  analyzeOmrImage cv sort s o = Returned res ->
  ensureImageEl cv s = Some imgEl ->
  unclassified <$> bubbles res ≡ₚ extractCandidates cv o (pipelineContours cv imgEl)
  /\ StronglySorted scanOrder (bubbles res)
  /\ NoDup (Bubble.contourIndex <$> bubbles res).
Proof.
  intros Hsort Hrun Himg. rewrite (analyzeOmrImage_engine sort Hsort) in Hrun.
  destruct (analyzeOmrImage_Returned cv s o res Hrun) as (imgEl' & Himg' & Hfrom & _).
  rewrite Himg in Himg'. injection Himg' as <-.
  pose proof (analyzeFrom_bubbles cv o _ _ res Hfrom) as Hb.
  fold (pipelineContours cv imgEl) in Hb.
  assert (Hperm : unclassified <$> bubbles res
                  ≡ₚ extractCandidates cv o (pipelineContours cv imgEl)).
  { rewrite Hb, sortBy_perm, <- list_fmap_compose.
    assert (Hid : (unclassified ∘ classify cv o (imread cv imgEl)
                     (GaussianBlur cv (enhance cv (cvtColor cv (imread cv imgEl)))))
                  <$> extractCandidates cv o (pipelineContours cv imgEl)
                  = extractCandidates cv o (pipelineContours cv imgEl)).
    { rewrite <- (list_fmap_id (extractCandidates cv o (pipelineContours cv imgEl))) at 2.
      apply list_fmap_ext. intros i c Hc. simpl.
      apply list_elem_of_lookup_2, extractCandidates_from in Hc
        as (j & cnt & _ & -> & _).
      apply candidate_unclassified. }
    rewrite Hid. reflexivity. }
  split; [exact Hperm|]. split.
  - rewrite Hb.
    apply (StronglySorted_weaken (notAfter byYthenX)); [apply byYthenX_scanOrder|].
    apply sortBy_sorted, byYthenX_consistent.
  - assert (Hidx : Bubble.contourIndex <$> bubbles res
                   = Bubble.contourIndex <$> (unclassified <$> bubbles res)).
    { rewrite <- list_fmap_compose. reflexivity. }
    rewrite Hidx, Hperm. apply extractCandidates_NoDup.
Qed.

Lemma returned_bubbles_in_scan_order_witness :
  unclassified <$> bubbles Synthetic.resultFive
    ≡ₚ extractCandidates (Synthetic.toolkit Synthetic.noClahe) noOptions
         (pipelineContours (Synthetic.toolkit Synthetic.noClahe) Synthetic.sheetFive)
  /\ StronglySorted scanOrder (bubbles Synthetic.resultFive)
  /\ NoDup (Bubble.contourIndex <$> bubbles Synthetic.resultFive).
Proof.
  apply (returned_bubbles_in_scan_order (Synthetic.toolkit Synthetic.noClahe) sortBy
           (Some Synthetic.sheetFive) noOptions Synthetic.resultFive Synthetic.sheetFive).
  - apply sortBy_StableSort.
  - vm_compute. reflexivity.
  - reflexivity.
Defined.

(** X6.  The analysis returns one question per row, numbered from 1 in row
    order, and never more questions than bubbles. *)
Theorem questions_numbered_by_row {Source ImageEl Mat Contour : Type}
    (cv : Toolkit Source ImageEl Mat Contour) (sort : ArraySort) (s : Source)
    (o : Options) (res : AnalyzeResult) :
  StableSort sort ->
  analyzeOmrImage cv sort s o = Returned res ->
  length (questions res) = length (rowsOfResult cv s res)
  /\ (length (questions res) <= length (bubbles res))%nat
  /\ forall k q, questions res !! k = Some q -> index q = S k.
Proof.
  intros Hsort Hrun. rewrite (analyzeOmrImage_engine sort Hsort) in Hrun.
  destruct (analyzeOmrImage_Returned cv s o res Hrun) as (imgEl & Himg & _ & Hqs).
  destruct (questionsLoop_inv o (rowsOfResult cv s res) 0%nat _ Hqs) as (Hlen & Hall).
  split; [exact Hlen|]. split.
  - rewrite Hlen. unfold rowsOfResult. rewrite Himg.
    destruct (clusterRows_from (rowTolerance (matRows cv (imread cv imgEl)))
                (bubbles res) []) as [Hcat Hne]; [constructor|].
    fold (clusterRows (rowTolerance (matRows cv (imread cv imgEl))) (bubbles res)) in Hcat, Hne.
    rewrite <- Hcat at 2.
    clear -Hne. induction Hne as [|row rows Hrow _ IH]; simpl; [lia|].
    rewrite length_app. destruct row; [congruence | simpl; lia].
  - intros k q Hk.
    destruct (lookup_lt_is_Some_2 (rowsOfResult cv s res) k) as [row Hrow].
    { rewrite <- Hlen. eapply lookup_lt_Some, Hk. }
    destruct (Hall k row Hrow) as (q' & Hq' & Hqr).
    rewrite Hk in Hq'. injection Hq' as <-.
    destruct (question_scores o _ row q Hqr) as (_ & _ & _ & Hidx & _). lia.
Qed.

Lemma questions_numbered_by_row_witness :
  length (questions Synthetic.resultFive)
  = length (rowsOfResult (Synthetic.toolkit Synthetic.noClahe) (Some Synthetic.sheetFive)
              Synthetic.resultFive)
  /\ (length (questions Synthetic.resultFive) <= length (bubbles Synthetic.resultFive))%nat
  /\ forall k q, questions Synthetic.resultFive !! k = Some q -> index q = S k.
Proof.
  apply (questions_numbered_by_row (Synthetic.toolkit Synthetic.noClahe) sortBy
           (Some Synthetic.sheetFive) noOptions Synthetic.resultFive).
  - apply sortBy_StableSort.
  - vm_compute. reflexivity.
Defined.

(** ** The tolerance of an image *)

Lemma Math_round_200 (h : Z) : Math_round (inject_Z h / 200) = ((h + 100) / 200)%Z.
Proof.
  unfold Math_round. apply Qfloor_unique.
  - pose proof (Z.mul_div_le (h + 100) 200 ltac:(lia)) as Hle.
    rewrite Zle_Qle in Hle. rewrite inject_Z_mult, inject_Z_plus in Hle.
    change (inject_Z 200) with 200 in Hle. change (inject_Z 100) with 100 in Hle.
    set (iz := inject_Z ((h + 100) / 200)) in *. set (ih := inject_Z h) in *.
    clearbody iz ih. unfold Qdiv. change (/ 200) with (1 # 200). lra.
  - pose proof (Z.mul_succ_div_gt (h + 100) 200 ltac:(lia)) as Hlt.
    unfold Z.succ in Hlt.
    rewrite Zlt_Qlt in Hlt. rewrite inject_Z_mult, !inject_Z_plus in Hlt.
    rewrite inject_Z_plus.
    change (inject_Z 200) with 200 in Hlt. change (inject_Z 100) with 100 in Hlt.
    change (inject_Z 1) with 1 in *.
    set (iz := inject_Z ((h + 100) / 200)) in *. set (ih := inject_Z h) in *.
    clearbody iz ih. unfold Qdiv. change (/ 200) with (1 # 200). lra.
Qed.

(** X7.  The row tolerance is 8 pixels for every image less than 1700 pixels
    high, and from there the height over 200, rounded to the nearest
    integer; it is never less than 8. *)
Theorem row_tolerance_by_height (h : Z) :
  rowTolerance h = inject_Z (Z.max 8 ((h + 100) / 200))
  /\ 8 <= rowTolerance h
  /\ (rowTolerance h = 8 <-> (h < 1700)%Z).
Proof.
  assert (Heq : rowTolerance h = inject_Z (Z.max 8 ((h + 100) / 200))).
  { unfold rowTolerance. rewrite Math_round_200. unfold Math_max.
    destruct (Qle_bool 8 (inject_Z ((h + 100) / 200))) eqn:Hcmp.
    - apply Qle_bool_iff in Hcmp. change 8 with (inject_Z 8) in Hcmp.
      rewrite <- Zle_Qle in Hcmp. rewrite Z.max_r by exact Hcmp. reflexivity.
    - apply Qle_bool_lt in Hcmp. change 8 with (inject_Z 8) in Hcmp.
      rewrite <- Zlt_Qlt in Hcmp. rewrite Z.max_l by lia. reflexivity. }
  split; [exact Heq|]. rewrite Heq. split.
  - change 8 with (inject_Z 8). rewrite <- Zle_Qle. lia.
  - change 8 with (inject_Z 8). split.
    + intros H. injection H as H.
      assert (Hdiv : ((h + 100) / 200 <= 8)%Z) by lia.
      apply Z.nle_gt. intros Hge.
      pose proof (Z.div_le_mono 1800 (h + 100) 200 ltac:(lia) ltac:(lia)) as Hmono.
      change (1800 / 200)%Z with 9%Z in Hmono. lia.
    + intros Hlt. f_equal.
      assert (Hdiv : ((h + 100) / 200 < 9)%Z).
      { apply Z.div_lt_upper_bound; lia. }
      lia.
Qed.

(** ** Means of groups *)


(** The means of the groups of an ascending row are ascending. *)
Lemma meanOf_ascending (thr : Q) (groups : list (list Bubble.t)) :
  Forall (fun g => g <> []) groups ->
  StronglySorted leX (concat groups) ->
  StronglySorted leX (meanOf thr <$> groups).
Proof.
  induction 1 as [|g groups Hg Hne IH]; simpl; intros Hs; [constructor|].
  apply StronglySorted_app in Hs as (Hcross & Hsg & Hsrest).
  constructor; [apply IH, Hsrest|].
  apply Forall_fmap, Forall_forall. intros g' Hg'. unfold leX, compose.
  assert (Hg'ne : g' <> []).
  { eapply Forall_forall in Hne; [exact Hne | exact Hg']. }
  rewrite !meanOf_x.
  apply mean_lower; [exact Hg'ne|].
  apply Forall_forall. intros b Hb.
  apply mean_upper; [exact Hg|].
  apply Forall_forall. intros a Ha.
  apply (Hcross a b Ha).
  apply list_elem_of_In, in_concat. exists g'.
  split; apply list_elem_of_In; assumption.
Qed.

(** X8.  The options of a row are in left-to-right order whether they are
    its bubbles or the means of merged groups: option indices always read
    from left to right. *)
Theorem options_left_to_right (sort : ArraySort) (o : Options)
    (row opts : list Bubble.t) :
  StableSort sort ->
  optionsInRow o (sort byX row) = Returned opts ->
  StronglySorted leX opts.
Proof.
  intros Hsort Hrun. rewrite (engine_sort sort byX row Hsort byX_consistent) in Hrun.
  pose proof (sortBy_byX_sorted row) as Hs.
  destruct (optionsInRow_Returned o (sortBy byX row) opts Hrun)
    as [(_ & ->) | (E & groups & _ & _ & _ & Hcat & Hne & ->)]; [exact Hs|].
  apply meanOf_ascending; [exact Hne|]. rewrite Hcat. exact Hs.
Qed.

Lemma options_left_to_right_witness :
  StronglySorted leX
    [meanOf (double (35 # 100)) [bubbleAt 10 100; bubbleAt 30 100];
     meanOf (double (35 # 100)) [bubbleAt 50 100]].
Proof.
  apply (options_left_to_right sortBy (Synthetic.expecting 2)
           [bubbleAt 30 100; bubbleAt 50 100; bubbleAt 10 100]).
  - apply sortBy_StableSort.
  - vm_compute. reflexivity.
Defined.

(** ** Scores and flags *)

Lemma inUnit_Qeq (a b : Q) : a == b -> inUnit a -> inUnit b.
Proof. unfold inUnit. intros E [H0 H1]. rewrite <- E. auto. Qed.

Lemma optionsInRow_inUnit (o : Options) (row opts : list Bubble.t) :
  Forall (fun b => inUnit (ratioOf b)) row ->
  optionsInRow o row = Returned opts ->
  Forall (fun b => inUnit (ratioOf b)) opts.
Proof.
  intros Hrow Hrun.
  destruct (optionsInRow_Returned o row opts Hrun)
    as [(_ & ->) | (E & groups & _ & _ & _ & Hcat & Hne & ->)]; [exact Hrow|].
  apply Forall_fmap. rewrite <- Hcat in Hrow. apply Forall_concat_inv in Hrow.
  apply Forall_forall. intros g Hg. simpl.
  assert (Hgne : g <> []) by (eapply Forall_forall in Hne; eauto).
  assert (Hgin : Forall (fun b => inUnit (ratioOf b)) g)
    by (eapply Forall_forall in Hrow; eauto).
  unfold ratioOf at 1, meanOf. cbn [Bubble.filledRatio default].
  rewrite aggregate_roundedSum. unfold roundedSum.
  destruct (roundedSum_bounds (ratioOf <$> g)) with (s := 0) (m := 0%nat)
    as (Hlo & Hhi & _).
  - apply Forall_fmap. exact Hgin.
  - apply Qle_refl.
  - apply Qle_refl.
  - discriminate.
  - rewrite length_fmap in Hhi. cbn [Nat.add] in Hhi.
    assert (Hlen : 0 < ofNat (length g)).
    { apply ofNat_pos. destruct g; [congruence | simpl; lia]. }
    apply double_unit.
    + apply Qle_shift_div_l; [exact Hlen|]. rewrite Qmult_0_l. exact Hlo.
    + apply Qle_shift_div_r; [exact Hlen|]. rewrite Qmult_1_l. exact Hhi.
Qed.

Lemma optionsInRow_Flagged (o : Options) (row opts : list Bubble.t) :
  Forall (Flagged (thresholdOf o)) row ->
  optionsInRow o row = Returned opts ->
  Forall (Flagged (thresholdOf o)) opts.
Proof.
  intros Hrow Hrun.
  destruct (optionsInRow_Returned o row opts Hrun)
    as [(_ & ->) | (E & groups & _ & _ & _ & _ & _ & ->)]; [exact Hrow|].
  apply Forall_fmap, Forall_forall. intros g _. reflexivity.
Qed.

Section Classified2.
Context {Source ImageEl Mat Contour : Type}.
Variable cv : Toolkit Source ImageEl Mat Contour.
Hypothesis Hlight : lightWithinMask cv.

Lemma returned_flags (s : Source) (o : Options) (res : AnalyzeResult) :
  analyzeOmrImage cv sortBy s o = Returned res ->
  Forall (fun b => ratioOk b /\ inUnit (ratioOf b) /\ Flagged (thresholdOf o) b)
         (bubbles res).
Proof using Hlight.
  intros Hrun.
  destruct (analyzeOmrImage_Returned cv s o res Hrun) as (imgEl & _ & Hfrom & _).
  rewrite (analyzeFrom_bubbles cv o _ _ res Hfrom), sortBy_perm.
  apply Forall_fmap, Forall_forall. intros b _. simpl.
  destruct (classify_flags cv o (imread cv imgEl)
              (GaussianBlur cv (enhance cv (cvtColor cv (imread cv imgEl)))) b Hlight)
    as (ratio & Hr & Hunit & Hf).
  unfold ratioOk, Flagged, ratioOf. rewrite Hr, Hf. simpl.
  split; [apply Hunit|]. split; [exact Hunit | reflexivity].
Qed.

End Classified2.

Lemma Forall_sub {A} (P : A -> Prop) (l k : list A) :
  Forall P l -> (forall a, a ∈ k -> a ∈ l) -> Forall P k.
Proof.
  intros Hl Hsub. apply Forall_forall. intros a Ha.
  eapply Forall_forall in Hl; [exact Hl | auto].
Qed.

(** X9.  Every score of every returned question lies between 0 and 1, for
    merged rows too, when the toolkit lights no pixel off the mask. *)
Theorem scores_in_unit_interval {Source ImageEl Mat Contour : Type}
    (cv : Toolkit Source ImageEl Mat Contour) (sort : ArraySort) (s : Source)
    (o : Options) (res : AnalyzeResult) :
  StableSort sort -> lightWithinMask cv ->
  analyzeOmrImage cv sort s o = Returned res ->
  Forall (fun q => Forall inUnit (scores q)) (questions res).
Proof.
  intros Hsort Hlight Hrun. rewrite (analyzeOmrImage_engine sort Hsort) in Hrun.
  apply (Forall2_right _ (rowsOfResult cv s res)).
  apply (result_rows cv _ s o res Hrun).
  intros qi row q Hne Hin Hq.
  destruct (question_scores o qi row q Hq) as (opts & Hopts & _ & _ & Hsc & _).
  rewrite Hsc. apply Forall_fmap.
  apply (optionsInRow_inUnit o (sortBy byX row)); [|exact Hopts].
  rewrite sortBy_perm.
  pose proof (returned_flags cv Hlight s o res Hrun) as Hall.
  apply (Forall_sub _ (bubbles res)); [|exact Hin].
  eapply Forall_impl; [exact Hall|]. intros b (_ & H & _). exact H.
Qed.

Lemma scores_in_unit_interval_witness :
  Forall (fun q => Forall inUnit (scores q)) (questions Synthetic.resultFiveOfFour).
Proof.
  apply (scores_in_unit_interval (Synthetic.toolkit Synthetic.noClahe) sortBy
           (Some Synthetic.sheetFive) (Synthetic.expecting 4) Synthetic.resultFiveOfFour).
  - apply sortBy_StableSort.
  - apply synthetic_light.
  - vm_compute. reflexivity.
Defined.

Lemma flags_agree_row (o : Options) (qi : nat) (row : list Bubble.t) (q : Question) :
  row <> [] -> Forall ratioOk row -> Forall (Flagged (thresholdOf o)) row ->
  questionOfRow sortBy o qi row = Returned q ->
  FlagsAgree o row q.
Proof.
  intros Hne Hok Hflag Hq.
  destruct (question_wellformed o qi row q Hq Hne Hok) as [Hscne _].
  destruct (question_scores o qi row q Hq) as (opts & Hopts & _ & _ & Hsc & Hsel).
  assert (Hrule : SelectionRule (thresholdOf o) (scores q) (selected q)).
  { rewrite Hsel, <- Hsc. apply selectOption_rule; [exact Hscne|].
    rewrite Hsc. apply ratioOk_scores.
    apply (optionsInRow_ratioOk o (sortBy byX row)); [|exact Hopts].
    rewrite sortBy_perm. exact Hok. }
  assert (Hoptflag : Forall (Flagged (thresholdOf o)) opts).
  { apply (optionsInRow_Flagged o (sortBy byX row)); [|exact Hopts].
    rewrite sortBy_perm. exact Hflag. }
  assert (Hmain : selected q = None
                  <-> Forall (fun b => Bubble.isFilled b = Some false) opts).
  { split.
    - intros Hnone. rewrite Hnone in Hrule. simpl in Hrule.
      apply Forall_lookup. intros j b Hb.
      pose proof (proj1 (Forall_lookup _ _) Hoptflag j b Hb) as Hfb.
      unfold Flagged in Hfb. rewrite Hfb. f_equal.
      apply Qle_bool_lt. apply (Hrule j).
      rewrite Hsc, list_lookup_fmap, Hb. reflexivity.
    - intros Hall. destruct (selected q) as [i|] eqn:Hchosen; [|reflexivity].
      exfalso. simpl in Hrule. destruct Hrule as (_ & m & Hat & Hthr & _).
      rewrite Hsc, list_lookup_fmap in Hat.
      destruct (opts !! Z.to_nat i) as [b|] eqn:Hb; [|discriminate].
      simpl in Hat. injection Hat as <-.
      pose proof (proj1 (Forall_lookup _ _) Hoptflag _ b Hb) as Hfb.
      pose proof (proj1 (Forall_lookup _ _) Hall _ b Hb) as Hff.
      unfold Flagged in Hfb. rewrite Hff in Hfb. injection Hfb as Hfb.
      symmetry in Hfb. apply Qle_bool_lt in Hfb.
      exact (Qlt_irrefl _ (Qlt_le_trans _ _ _ Hfb Hthr)). }
  exists opts. split; [exact Hopts|]. split; [exact Hmain|].
  intros Hnomerge. rewrite Hmain.
  unfold optionsInRow in Hopts. rewrite Hnomerge in Hopts. injection Hopts as <-.
  rewrite sortBy_perm. reflexivity.
Qed.

(** X10.  A returned question selects nothing exactly when none of its
    options is flagged as filled; for a row that needs no merge these are
    the returned bubbles of the row, so a row has an answer exactly when one
    of its bubbles is flagged. *)
Theorem selection_agrees_with_flags {Source ImageEl Mat Contour : Type}
    (cv : Toolkit Source ImageEl Mat Contour) (sort : ArraySort) (s : Source)
    (o : Options) (res : AnalyzeResult) :
  StableSort sort -> lightWithinMask cv ->
  analyzeOmrImage cv sort s o = Returned res ->
  Forall2 (FlagsAgree o) (rowsOfResult cv s res) (questions res).
Proof.
  intros Hsort Hlight Hrun. rewrite (analyzeOmrImage_engine sort Hsort) in Hrun.
  apply (result_rows cv _ s o res Hrun).
  intros qi row q Hne Hin Hq.
  pose proof (returned_flags cv Hlight s o res Hrun) as Hall.
  apply (flags_agree_row o qi row q Hne); [| |exact Hq].
  - apply (Forall_sub _ (bubbles res)); [|exact Hin].
    eapply Forall_impl; [exact Hall|]. intros b (H & _). exact H.
  - apply (Forall_sub _ (bubbles res)); [|exact Hin].
    eapply Forall_impl; [exact Hall|]. intros b (_ & _ & H). exact H.
Qed.

Lemma selection_agrees_with_flags_witness :
  Forall2 (FlagsAgree noOptions)
    (rowsOfResult (Synthetic.toolkit Synthetic.noClahe) (Some Synthetic.sheetFive)
       Synthetic.resultFive)
    (questions Synthetic.resultFive).
Proof.
  apply (selection_agrees_with_flags (Synthetic.toolkit Synthetic.noClahe) sortBy
           (Some Synthetic.sheetFive) noOptions Synthetic.resultFive).
  - apply sortBy_StableSort.
  - apply synthetic_light.
  - vm_compute. reflexivity.
Defined.

(** ** Lowering the threshold *)

Lemma selectOption_lower (thr thr' : Q) (scs : list Q) (i : Z) :
  selectOption thr scs = Some i -> thr' <= thr -> selectOption thr' scs = Some i.
Proof.
  unfold selectOption. destruct (argmax scs) as [maxIdx maxScore].
  destruct (Qle_bool thr maxScore) eqn:Hthr; [|discriminate].
  intros [= <-] Hle. apply Qle_bool_iff in Hthr.
  assert (H : Qle_bool thr' maxScore = true).
  { apply Qle_bool_iff. eapply Qle_trans; eassumption. }
  rewrite H. reflexivity.
Qed.

(** X11.  Running the selection stage again on the same rows with a lower
    fill threshold changes no score and keeps every selection that was
    made, at the same option: the threshold decides whether an answer is
    reported, never which one. *)
Theorem lower_threshold_keeps_selections (sort : ArraySort) (o : Options)
    (rows : list (list Bubble.t)) (qs : list Question) (thr' : Q) :
  StableSort sort ->
  questionsLoop sort o 0 rows = Returned qs ->
  thr' <= thresholdOf o ->
  exists qs',
    questionsLoop sort (withThreshold o thr') 0 rows = Returned qs'
    /\ Forall2 (fun q q' =>
                  index q' = index q /\ scores q' = scores q
                  /\ forall i, selected q = Some i -> selected q' = Some i)
               qs qs'.
Proof.
  intros Hsort Hrun Hle.
  rewrite (questionsLoop_engine sort Hsort) in Hrun.
  rewrite (questionsLoop_engine sort Hsort).
  destruct (questionsLoop_inv o rows 0%nat qs Hrun) as (Hlen & Hall).
  exists (reselected thr' <$> qs).
  split; [apply questionsLoop_withThreshold, Hrun|].
  apply Forall2_same_length_lookup_2; [rewrite length_fmap; reflexivity|].
  intros k q q' Hq Hq'.
  rewrite list_lookup_fmap, Hq in Hq'. injection Hq' as <-.
  destruct (lookup_lt_is_Some_2 rows k) as [row Hrow].
  { rewrite <- Hlen. eapply lookup_lt_Some, Hq. }
  destruct (Hall k row Hrow) as (q0 & Hq0 & Hqr). rewrite Hq in Hq0. injection Hq0 as <-.
  simpl. split; [reflexivity|]. split; [reflexivity|].
  intros i Hsel. apply (selectOption_lower (thresholdOf o)); [|exact Hle].
  destruct (question_scores o _ row q Hqr) as (opts & _ & _ & _ & Hsc & Hselq).
  rewrite Hsc, <- Hselq. exact Hsel.
Qed.

Lemma lower_threshold_keeps_selections_witness :
  exists qs',
    questionsLoop sortBy (withThreshold noOptions (1 # 10)) 0
      (rowsOfResult (Synthetic.toolkit Synthetic.noClahe) (Some Synthetic.sheetFive)
         Synthetic.resultFive) = Returned qs'
    /\ Forall2 (fun q q' =>
                  index q' = index q /\ scores q' = scores q
                  /\ forall i, selected q = Some i -> selected q' = Some i)
               (questions Synthetic.resultFive) qs'.
Proof.
  apply (lower_threshold_keeps_selections sortBy noOptions _
           (questions Synthetic.resultFive) (1 # 10)).
  - apply sortBy_StableSort.
  - vm_compute. reflexivity.
  - vm_compute. discriminate.
Defined.

(** ** Which bubbles are merged *)

Lemma groupStart_le (E n k j : nat) :
  (0 < E)%nat -> (groupStart E n k <= j <-> k * n <= j * E)%nat.
Proof.
  intros HE. unfold groupStart.
  pose proof (Nat.div_mod (k * n + (E - 1)) E ltac:(lia)) as Hd.
  pose proof (Nat.mod_upper_bound (k * n + (E - 1)) E ltac:(lia)) as Hm.
  split; intros H; nia.
Qed.

Lemma slot_interval (E n k j : nat) :
  (0 < E)%nat -> (0 < n)%nat ->
  (slotOf E n j = k <-> groupStart E n k <= j /\ j < groupStart E n (S k))%nat.
Proof.
  intros HE Hn. unfold slotOf.
  rewrite (groupStart_le E n k j HE).
  assert (Hnot : (j < groupStart E n (S k) <-> j * E < S k * n)%nat).
  { pose proof (groupStart_le E n (S k) j HE). lia. }
  rewrite Hnot.
  pose proof (Nat.div_mod (j * E) n ltac:(lia)) as Hd.
  pose proof (Nat.mod_upper_bound (j * E) n ltac:(lia)) as Hm.
  split.
  - intros <-. nia.
  - intros [Hlo Hhi]. symmetry. apply Nat.div_unique with (r := (j * E - k * n)%nat); nia.
Qed.

Lemma groupStart_mono (E n k : nat) : (groupStart E n k <= groupStart E n (S k))%nat.
Proof. unfold groupStart. apply Nat.Div0.div_le_mono. lia. Qed.

Lemma membersFrom_interval (E n k : nat) :
  (0 < E)%nat -> (0 < n)%nat ->
  forall (rest : list Bubble.t) (i : nat),
    membersFrom E n k i rest =
    take (groupStart E n (S k) - Nat.max i (groupStart E n k))
         (drop (groupStart E n k - i) rest).
Proof.
  intros HE Hn. pose proof (groupStart_mono E n k) as Hmono.
  set (lo := groupStart E n k) in *. set (hi := groupStart E n (S k)) in *.
  induction rest as [|b rest IH]; intros i.
  - rewrite drop_nil, take_nil. reflexivity.
  - cbn [membersFrom]. rewrite IH.
    destruct (Nat.eqb_spec (slotOf E n i) k) as [Hs|Hs].
    + apply (slot_interval E n k i HE Hn) in Hs as [Hlo Hhi]. fold lo in Hlo. fold hi in Hhi.
      replace (lo - i)%nat with 0%nat by lia. replace (lo - S i)%nat with 0%nat by lia.
      rewrite !drop_0.
      replace (hi - Nat.max i lo)%nat with (S (hi - Nat.max (S i) lo)) by lia.
      reflexivity.
    + assert (Hout : (i < lo \/ hi <= i)%nat).
      { destruct (decide (lo <= i)%nat) as [Hlo|]; [|lia].
        destruct (decide (i < hi)%nat) as [Hhi|]; [|lia].
        exfalso. apply Hs. apply (slot_interval E n k i HE Hn). auto. }
      destruct Hout as [Hlt | Hge].
      * replace (lo - i)%nat with (S (lo - S i)) by lia.
        replace (Nat.max (S i) lo) with lo by lia.
        replace (Nat.max i lo) with lo by lia. reflexivity.
      * replace (hi - Nat.max (S i) lo)%nat with 0%nat by lia.
        replace (hi - Nat.max i lo)%nat with 0%nat by lia. reflexivity.
Qed.

Lemma groupLoop_members (E n : nat) :
  forall (rest : list Bubble.t) (i : nat) (G G' : list (list Bubble.t)),
    groupLoop (ofNat E) n i rest G = Returned G' ->
    forall k g, G !! k = Some g -> G' !! k = Some (g ++ membersFrom E n k i rest).
Proof.
  induction rest as [|b rest IH]; intros i G G' Hrun k g Hk; cbn [groupLoop membersFrom] in *.
  - injection Hrun as <-. rewrite app_nil_r. exact Hk.
  - destruct (pushGroup (slot (ofNat E) n i) b G) as [G1|e] eqn:Hpush; [|discriminate Hrun].
    simpl in Hrun.
    apply pushGroup_Returned in Hpush as (_ & g0 & Hg0 & ->).
    rewrite slot_count, Nat2Z.id in Hg0, Hrun.
    destruct (Nat.eqb_spec (slotOf E n i) k) as [Hs|Hs].
    + subst k. rewrite Hk in Hg0. injection Hg0 as <-.
      rewrite (IH _ _ _ Hrun (slotOf E n i) (g ++ [b])).
      * rewrite <- app_assoc. reflexivity.
      * apply list_lookup_insert_eq. eapply lookup_lt_Some, Hk.
    + apply (IH _ _ _ Hrun). rewrite list_lookup_insert_ne by auto. exact Hk.
Qed.

Lemma group_size_bounds (E n k : nat) :
  (0 < E)%nat ->
  (n / E <= groupStart E n (S k) - groupStart E n k
   /\ groupStart E n (S k) - groupStart E n k <= (n + (E - 1)) / E)%nat.
Proof.
  intros HE. unfold groupStart.
  pose proof (Nat.div_mod (k * n + (E - 1)) E ltac:(lia)) as H1.
  pose proof (Nat.mod_upper_bound (k * n + (E - 1)) E ltac:(lia)) as H1'.
  pose proof (Nat.div_mod (S k * n + (E - 1)) E ltac:(lia)) as H2.
  pose proof (Nat.mod_upper_bound (S k * n + (E - 1)) E ltac:(lia)) as H2'.
  pose proof (Nat.div_mod n E ltac:(lia)) as H3.
  pose proof (Nat.mod_upper_bound n E ltac:(lia)) as H3'.
  pose proof (Nat.div_mod (n + (E - 1)) E ltac:(lia)) as H4.
  pose proof (Nat.mod_upper_bound (n + (E - 1)) E ltac:(lia)) as H4'.
  split; nia.
Qed.

(** The groups of a partition into a whole count are the windows of the
    row between consecutive starts. *)
Lemma partitionRow_windows (E : nat) (row : list Bubble.t) (groups : list (list Bubble.t)) :
  (0 < E)%nat -> (E <= length row)%nat ->
  partitionRow (ofNat E) row = Returned groups ->
  forall k, (k < E)%nat ->
    groups !! k
    = Some (take (groupStart E (length row) (S k) - groupStart E (length row) k)
                 (drop (groupStart E (length row) k) row)).
Proof.
  intros HE Hn Hrun k Hk.
  unfold partitionRow in Hrun. rewrite emptyGroups_count in Hrun.
  rewrite (groupLoop_members E (length row) row 0 _ _ Hrun k []
             (lookup_replicate_2 _ _ _ Hk)).
  simpl.
  rewrite (membersFrom_interval E (length row) k HE ltac:(lia) row 0).
  rewrite Nat.max_0_l, Nat.sub_0_r. reflexivity.
Qed.

Lemma window_size (E : nat) (row : list Bubble.t) (k : nat) :
  (0 < E)%nat -> (k < E)%nat ->
  length (take (groupStart E (length row) (S k) - groupStart E (length row) k)
               (drop (groupStart E (length row) k) row))
  = (groupStart E (length row) (S k) - groupStart E (length row) k)%nat.
Proof.
  intros HE Hk.
  assert (Hend : (groupStart E (length row) (S k) <= length row)%nat).
  { apply (groupStart_le E (length row) (S k) (length row) HE). nia. }
  pose proof (groupStart_mono E (length row) k) as Hmono.
  rewrite length_take, length_drop. lia.
Qed.

(** X12.  When an expected count [E] is given and a row of [n] rated
    bubbles is longer, the row is cut into [E] groups, group [k] holding the
    bubbles at the consecutive positions from [ceil (k * n / E)] up to, not
    including, [ceil ((k+1) * n / E)]: [floor (n / E)] bubbles or one more,
    so the cut is as even as the count allows.  The row has [E] options, and
    option [k] stands for group [k]: its center and radius are the means of
    the group's, its fill ratio is the mean of the group's fill ratios as
    the engine adds and divides them, and its flag compares that mean with
    the threshold. *)
Theorem merged_groups_are_even (o : Options) (E : nat) (row : list Bubble.t) :
  expectedOptions o = Some (ofNat E) -> (0 < E)%nat -> (E < length row)%nat ->
  Forall (fun b => is_Some (Bubble.filledRatio b)) row ->
  exists groups opts,
    partitionRow (ofNat E) row = Returned groups
    /\ optionsInRow o row = Returned opts
    /\ length groups = E /\ length opts = E
    /\ forall k, (k < E)%nat ->
         let n := length row in
         let g := take (groupStart E n (S k) - groupStart E n k)
                       (drop (groupStart E n k) row) in
         groups !! k = Some g
         /\ (n / E <= length g)%nat /\ (length g <= (n + (E - 1)) / E)%nat
         /\ exists b, opts !! k = Some b /\ StandsFor (thresholdOf o) g b.
Proof.
  intros Ho HE Hn Hrated.
  destruct (mergeRow_spec (thresholdOf o) E row HE ltac:(lia))
    as (groups & Hpart & Hlen & Hcat & Hne & Hmerge).
  assert (Hm : mustMerge o row = Some (ofNat E)).
  { apply mustMerge_Some, Merged_count. auto. }
  exists groups, (meanOf (thresholdOf o) <$> groups).
  split; [exact Hpart|].
  split; [unfold optionsInRow; rewrite Hm; exact Hmerge|].
  split; [exact Hlen|]. split; [rewrite length_fmap; exact Hlen|].
  intros k Hk n g.
  pose proof (partitionRow_windows E row groups HE ltac:(lia) Hpart k Hk) as Hg.
  fold n in Hg. fold g in Hg.
  split; [exact Hg|].
  pose proof (window_size E row k HE Hk) as Hsize. fold n in Hsize. fold g in Hsize.
  pose proof (group_size_bounds E n k HE) as [Hlo Hhi].
  split; [lia|]. split; [lia|].
  exists (meanOf (thresholdOf o) g).
  split; [rewrite list_lookup_fmap, Hg; reflexivity|].
  apply meanOf_StandsFor.
  rewrite <- Hcat in Hrated. apply Forall_concat_inv in Hrated.
  eapply Forall_forall in Hrated; [exact Hrated|].
  eapply list_elem_of_lookup_2, Hg.
Qed.

Lemma merged_groups_are_even_witness :
  exists groups opts,
    partitionRow (ofNat 4) (bubbles Synthetic.resultFive) = Returned groups
    /\ optionsInRow (Synthetic.expecting 4) (bubbles Synthetic.resultFive) = Returned opts
    /\ length groups = 4%nat /\ length opts = 4%nat
    /\ forall k, (k < 4)%nat ->
         let n := length (bubbles Synthetic.resultFive) in
         let g := take (groupStart 4 n (S k) - groupStart 4 n k)
                       (drop (groupStart 4 n k) (bubbles Synthetic.resultFive)) in
         groups !! k = Some g
         /\ (n / 4 <= length g)%nat /\ (length g <= (n + (4 - 1)) / 4)%nat
         /\ exists b, opts !! k = Some b
                      /\ StandsFor (thresholdOf (Synthetic.expecting 4)) g b.
Proof.
  apply (merged_groups_are_even (Synthetic.expecting 4) 4 (bubbles Synthetic.resultFive)).
  - reflexivity.
  - lia.
  - vm_compute. lia.
  - by_evaluation.
Defined.

(** ** The sort of the engine *)

(** X23.  The outcome of the analysis, returned or thrown, does not depend
    on the sorting algorithm of the engine: any two sorts that put an array
    in the order of a consistent comparator and keep tied elements in the
    order they had give the same questions and the same bubbles. *)
Theorem outcome_independent_of_engine_sort {Source ImageEl Mat Contour : Type}
    (cv : Toolkit Source ImageEl Mat Contour) (sort1 sort2 : ArraySort)
    (s : Source) (o : Options) :
  StableSort sort1 -> StableSort sort2 ->
  analyzeOmrImage cv sort1 s o = analyzeOmrImage cv sort2 s o.
Proof.
  intros Hsort1 Hsort2.
  rewrite (analyzeOmrImage_engine sort1 Hsort1), (analyzeOmrImage_engine sort2 Hsort2).
  reflexivity.
Qed.

Lemma outcome_independent_of_engine_sort_witness :
  analyzeOmrImage (Synthetic.toolkit Synthetic.noClahe) sortBy
    (Some Synthetic.sheetFive) (Synthetic.expecting 4)
  = analyzeOmrImage (Synthetic.toolkit Synthetic.noClahe) sortFromLeft
      (Some Synthetic.sheetFive) (Synthetic.expecting 4).
Proof.
  apply (outcome_independent_of_engine_sort (Synthetic.toolkit Synthetic.noClahe)
           sortBy sortFromLeft (Some Synthetic.sheetFive) (Synthetic.expecting 4)).
  - apply sortBy_StableSort.
  - apply sortFromLeft_StableSort.
Defined.

(** * Properties of the upload form *)

Lemma truthy_nonempty (s : string) : truthy s = true -> s <> "".
Proof.
  unfold truthy. intros H ->. discriminate H.
Qed.

(** X13.  The verdict on a file: it is valid exactly when it is at most
    10 MB and of an accepted type, and exactly when it has no error.  The
    dimensions never change the verdict; a failure to read them is a
    warning.  A file gets at most two warnings, never both the small-file
    and the large-file one, and a file over 10 MB always has the large-file
    one. *)
Theorem validateFile_verdict (file : File.t) :
  let r := validateFile file in
  FileValidationResult.file r = file
  /\ (FileValidationResult.valid r = true <-> Acceptable file)
  /\ (FileValidationResult.valid r = true <-> FileValidationResult.errors r = [])
  /\ (forall d, FileValidationResult.valid (validateFile (withDimensions file d))
                = FileValidationResult.valid r)
  /\ (File.dimensions file = None ->
      In "Could not determine image dimensions" (FileValidationResult.warnings r)
      /\ FileValidationResult.resolution r = None)
  /\ (length (FileValidationResult.warnings r) <= 2)%nat
  /\ ~ (In "File size is quite small - may affect processing quality"
          (FileValidationResult.warnings r)
        /\ In "Large file - processing may take longer" (FileValidationResult.warnings r))
  /\ ((10485760 < File.size file)%N ->
      In "Large file - processing may take longer" (FileValidationResult.warnings r)).
Proof.
  unfold validateFile, Acceptable, withDimensions. cbv zeta.
  change (10 * 1024 * 1024)%N with 10485760%N.
  change (100 * 1024)%N with 102400%N.
  change (5 * 1024 * 1024)%N with 5242880%N.
  destruct file as [nm sz ty dims]. cbn [File.size File.type File.dimensions File.name].
  set (ok := includes _ (toLowerCase ty)).
  split.
  { destruct dims as [[w h]|]; reflexivity. }
  split.
  { destruct dims as [[w h]|]; cbn [FileValidationResult.valid];
      destruct (N.ltb_spec 10485760 sz) as [Hsz|Hsz]; destruct ok; simpl;
      split; intros H; try discriminate; try reflexivity;
      try (split; [lia | reflexivity]); destruct H as [H1 H2]; try discriminate; lia. }
  split.
  { destruct dims as [[w h]|];
      cbn [FileValidationResult.valid FileValidationResult.errors];
      destruct (N.ltb 10485760 sz); destruct ok; simpl;
      split; intros H; try discriminate; reflexivity. }
  split.
  { intros d. destruct d as [[w' h']|]; destruct dims as [[w h]|]; reflexivity. }
  split.
  { intros ->. cbn [FileValidationResult.warnings FileValidationResult.resolution].
    split; [|reflexivity]. apply in_or_app. right. left. reflexivity. }
  split; [|split].
  - destruct dims as [[w h]|]; cbn [FileValidationResult.warnings];
      destruct (N.ltb_spec sz 102400) as [Hs|Hs]; destruct (N.ltb_spec 5242880 sz) as [Hl|Hl];
      try lia; try destruct ((w <? 800)%N || (h <? 600)%N); simpl; lia.
  - destruct dims as [[w h]|]; cbn [FileValidationResult.warnings];
      destruct (N.ltb_spec sz 102400) as [Hs|Hs]; destruct (N.ltb_spec 5242880 sz) as [Hl|Hl];
      try lia; try destruct ((w <? 800)%N || (h <? 600)%N); simpl;
      intros [H1 H2]; intuition discriminate.
  - intros Hbig.
    destruct dims as [[w h]|]; cbn [FileValidationResult.warnings];
      destruct (N.ltb_spec sz 102400) as [Hs|Hs]; destruct (N.ltb_spec 5242880 sz) as [Hl|Hl];
      try lia; try destruct ((w <? 800)%N || (h <? 600)%N); simpl; tauto.
Qed.

Lemma keepOthers_after {A} (index : nat) (prev : list A) :
  forall i, (index < i)%nat -> keepOthers index i prev = prev.
Proof.
  induction prev as [|a rest IH]; intros i Hi; simpl; [reflexivity|].
  destruct (Nat.eqb_spec i index); [lia|]. simpl. rewrite IH by lia. reflexivity.
Qed.

Lemma keepOthers_spec {A} (index : nat) (prev : list A) :
  forall i, (i <= index)%nat ->
    keepOthers index i prev = take (index - i) prev ++ drop (S (index - i)) prev.
Proof.
  induction prev as [|a rest IH]; intros i Hi; simpl.
  - rewrite take_nil. reflexivity.
  - destruct (Nat.eqb_spec i index) as [->|Hne]; simpl.
    + rewrite Nat.sub_diag. simpl. rewrite drop_0. apply keepOthers_after. lia.
    + rewrite IH by lia.
      replace (index - i)%nat with (S (index - S i)) by lia. reflexivity.
Qed.

(** X14.  Removing the file at a position of the list takes out that entry
    and no other, keeping the order; a position past the end removes
    nothing.  The version, the date and the upload in flight are left
    alone. *)
Theorem removeFile_removes_one (index : nat) (st : FormState) :
  selectedFiles (removeFile index st)
  = take index (selectedFiles st) ++ drop (S index) (selectedFiles st)
  /\ ((index < totalFiles st)%nat -> S (totalFiles (removeFile index st)) = totalFiles st)
  /\ ((totalFiles st <= index)%nat -> removeFile index st = st)
  /\ examVersion (removeFile index st) = examVersion st
  /\ examDate (removeFile index st) = examDate st
  /\ uploading (removeFile index st) = uploading st.
Proof.
  assert (Heq : selectedFiles (removeFile index st)
                = take index (selectedFiles st) ++ drop (S index) (selectedFiles st)).
  { unfold removeFile. simpl. rewrite (keepOthers_spec index (selectedFiles st) 0) by lia.
    rewrite Nat.sub_0_r. reflexivity. }
  split; [exact Heq|]. unfold totalFiles. split; [|split; [|auto]].
  - intros Hlt. rewrite Heq, length_app, length_take, length_drop. lia.
  - intros Hge. destruct st as [files v d u]. unfold removeFile. simpl in *.
    f_equal. rewrite (keepOthers_spec index files 0) by lia. rewrite Nat.sub_0_r.
    rewrite take_ge, drop_ge by lia. apply app_nil_r.
Qed.

Lemma filter_split_length {A} (p : A -> bool) (l : list A) :
  (length (List.filter p l) + length (List.filter (fun a => negb (p a)) l))%nat = length l.
Proof.
  induction l as [|a l IH]; simpl; [reflexivity|].
  destruct (p a); simpl; lia.
Qed.

Lemma filter_length_le {A} (p : A -> bool) (l : list A) :
  (length (List.filter p l) <= length l)%nat.
Proof.
  induction l as [|a l IH]; simpl; [lia|]. destruct (p a); simpl; lia.
Qed.

(** ** What the form hands over *)

Lemma keepOthers_sub {A} (index : nat) (prev : list A) :
  forall i a, In a (keepOthers index i prev) -> In a prev.
Proof.
  induction prev as [|b rest IH]; intros i a; simpl; [auto|].
  destruct (negb (Nat.eqb i index)); simpl; intros H.
  - destruct H as [H|H]; [auto | right; eapply IH, H].
  - right. eapply IH, H.
Qed.

Lemma validateFile_file (file : File.t) :
  FileValidationResult.file (validateFile file) = file.
Proof.
  unfold validateFile. cbv zeta. destruct (File.dimensions file) as [[w h]|]; reflexivity.
Qed.

Lemma validateFile_valid (file : File.t) :
  FileValidationResult.valid (validateFile file) = true -> Acceptable file.
Proof.
  unfold validateFile, Acceptable. cbv zeta.
  change (10 * 1024 * 1024)%N with 10485760%N.
  set (ok := includes _ (toLowerCase (File.type file))).
  destruct (File.dimensions file) as [[w h]|]; cbn [FileValidationResult.valid];
    destruct (N.ltb_spec 10485760 (File.size file)) as [Hsz|Hsz]; destruct ok; simpl;
    intros H; try discriminate; split; try lia; reflexivity.
Qed.

Lemma formStep_fresh (st : FormState) (ev : FormEvent) :
  Forall FreshVerdict (selectedFiles st) ->
  Forall FreshVerdict (selectedFiles (fst (formStep st ev))).
Proof.
  intros Hinv.
  assert (Hsel : forall files,
             Forall FreshVerdict (selectedFiles (handleFileSelect files st))).
  { intros files. unfold handleFileSelect, validateFiles. simpl.
    apply Forall_app. split; [exact Hinv|].
    apply Forall_fmap, Forall_forall. intros f Hf.
    apply list_elem_of_In, filter_In in Hf as [_ Hpre].
    unfold FreshVerdict, compose. rewrite validateFile_file. auto. }
  destruct ev as [files|files|index|v|d| |ok]; simpl; try exact Hinv.
  - apply Hsel.
  - destruct files; [exact Hinv | apply Hsel].
  - apply Forall_forall. intros r Hr.
    apply list_elem_of_In, keepOthers_sub, list_elem_of_In in Hr.
    eapply Forall_forall in Hinv; eauto.
  - unfold handleUpload. cbv zeta.
    destruct (_ && _ && _ && _); exact Hinv.
  - destruct ok; simpl; [constructor | exact Hinv].
Qed.

Lemma handleUpload_call (st : FormState) (call : UploadCall) :
  Forall FreshVerdict (selectedFiles st) ->
  snd (handleUpload st) = Some call ->
  callFiles call <> [] /\ callVersion call <> "" /\ callDate call <> ""
  /\ uploading st = false
  /\ Forall (fun file => Acceptable file /\ String.prefix "image/" (File.type file) = true)
            (callFiles call).
Proof.
  intros Hinv. unfold handleUpload. cbv zeta.
  destruct (Nat.ltb_spec 0 (length (List.filter FileValidationResult.valid (selectedFiles st))))
    as [Hpos|]; [|discriminate].
  destruct (truthy (examVersion st)) eqn:Hv; [|discriminate].
  destruct (truthy (examDate st)) eqn:Hd; [|discriminate].
  destruct (uploading st); [discriminate|]. simpl.
  intros [= <-]. simpl.
  split.
  { intros Hnil. apply fmap_nil_inv in Hnil. rewrite Hnil in Hpos. simpl in Hpos. lia. }
  split; [apply truthy_nonempty, Hv|]. split; [apply truthy_nonempty, Hd|].
  split; [reflexivity|].
  apply Forall_fmap, Forall_forall. intros r Hr.
  apply list_elem_of_In, filter_In in Hr as [Hr Hvalid].
  apply list_elem_of_In in Hr.
  eapply Forall_forall in Hinv as [Hfresh Hpre]; [|exact Hr].
  simpl. split; [|exact Hpre].
  apply validateFile_valid. rewrite <- Hfresh. exact Hvalid.
Qed.

Lemma formRun_calls (events : list FormEvent) :
  forall st call,
    Forall FreshVerdict (selectedFiles st) ->
    In call (snd (formRun events st)) ->
    callFiles call <> [] /\ callVersion call <> "" /\ callDate call <> ""
    /\ Forall (fun file => Acceptable file /\ String.prefix "image/" (File.type file) = true)
              (callFiles call).
Proof.
  induction events as [|ev rest IH]; intros st call Hinv Hin; simpl in Hin; [destruct Hin|].
  pose proof (formStep_fresh st ev Hinv) as Hinv'.
  destruct (formStep st ev) as [st' c] eqn:Hstep. simpl in Hinv'.
  destruct (formRun rest st') as [final calls] eqn:Hrun.
  assert (Hrest : In call calls -> callFiles call <> [] /\ callVersion call <> ""
                    /\ callDate call <> ""
                    /\ Forall (fun file => Acceptable file
                                 /\ String.prefix "image/" (File.type file) = true)
                              (callFiles call)).
  { intros H. apply (IH st' call Hinv'). rewrite Hrun. exact H. }
  destruct c as [c|]; simpl in Hin; [|exact (Hrest Hin)].
  destruct Hin as [<- | Hin]; [|exact (Hrest Hin)].
  destruct ev; simpl in Hstep; try (injection Hstep as _ Hc; discriminate Hc).
  destruct (handleUpload_call st c Hinv) as (H1 & H2 & H3 & _ & H4); [|auto].
  rewrite Hstep. reflexivity.
Qed.

(** X15.  Whatever the user does to the form, in whatever order, every
    upload it starts hands over at least one file, a version and a date that
    are not empty, and only files that are at most 10 MB, of an accepted
    type, and whose type starts with [image/]: no file the form marked
    invalid is ever uploaded. *)
Theorem form_uploads_only_valid_files (events : list FormEvent) (call : UploadCall) :
  In call (snd (formRun events emptyForm)) ->
  callFiles call <> [] /\ callVersion call <> "" /\ callDate call <> ""
  /\ Forall (fun file => Acceptable file /\ String.prefix "image/" (File.type file) = true)
            (callFiles call).
Proof.
  apply formRun_calls. constructor.
Qed.

Lemma form_uploads_only_valid_files_witness :
  let photo := File.mk "sheet1.png" 2000000 "image/png" (Some (1200, 1600)%N) in
  let call := mkCall [photo] "A" "2025-01-15" in
  callFiles call <> [] /\ callVersion call <> "" /\ callDate call <> ""
  /\ Forall (fun file => Acceptable file /\ String.prefix "image/" (File.type file) = true)
            (callFiles call).
Proof.
  intros photo call.
  apply (form_uploads_only_valid_files
           [FilesSelected [File.mk "notes.txt" 100 "text/plain" None;
                           photo;
                           File.mk "huge.jpg" 20000000 "image/jpeg" (Some (4000, 3000)%N)];
            VersionSet "A"; DateSet "2025-01-15"; UploadClicked; UploadClicked]).
  vm_compute. left. reflexivity.
Defined.

(** X16.  While an upload is in flight a further click starts nothing, and
    the counters shown above the list add up: every listed file is counted
    either as valid or as having errors, and the files with warnings are
    among them. *)
Theorem form_counters_add_up (st : FormState) :
  (uploading st = true -> handleUpload st = (st, None))
  /\ (forall st' call, handleUpload st = (st', Some call) ->
        uploading st' = true /\ handleUpload st' = (st', None))
  /\ (validFiles st + filesWithErrors st)%nat = totalFiles st
  /\ (filesWithWarnings st <= totalFiles st)%nat.
Proof.
  split; [|split; [|split]].
  - intros Hup. unfold handleUpload. cbv zeta. rewrite Hup.
    rewrite !andb_false_r. reflexivity.
  - intros st' call. unfold handleUpload at 1. cbv zeta.
    destruct (_ && _ && _ && _); [|discriminate].
    intros [= <- _]. split; [reflexivity|].
    unfold handleUpload. cbv zeta. simpl. rewrite !andb_false_r. reflexivity.
  - apply filter_split_length.
  - apply filter_length_le.
Qed.

(** * Properties of the server *)

Lemma forEachAnswer_spec (correct : list string) :
  forall index answers score,
    forEachAnswer correct index (Some answers) score
    = Returned (score + agreements correct (drop index answers))%nat.
Proof.
  induction correct as [|c rest IH]; intros index answers score; simpl.
  - rewrite Nat.add_0_r. reflexivity.
  - rewrite IH. destruct (answers !! index) as [s|] eqn:Hs.
    + rewrite (drop_S _ _ _ Hs). f_equal.
      destruct (decide (s = c)) as [->|Hne].
      * rewrite !bool_decide_eq_true_2 by reflexivity. lia.
      * rewrite !bool_decide_eq_false_2 by congruence. lia.
    + rewrite bool_decide_eq_false_2 by discriminate.
      rewrite (drop_ge answers (S index)), (drop_ge answers index)
        by (apply lookup_ge_None in Hs; lia).
      destruct rest; reflexivity.
Qed.

Lemma agreements_le (correct : list string) :
  forall student, (agreements correct student <= length correct)%nat.
Proof.
  induction correct as [|c rest IH]; intros [|s student]; simpl; try lia.
  specialize (IH student). destruct (bool_decide (s = c)); lia.
Qed.

Lemma agreements_full (correct : list string) :
  forall student,
    agreements correct student = length correct
    <-> take (length correct) student = correct.
Proof.
  induction correct as [|c rest IH]; intros [|s student]; simpl.
  - tauto.
  - tauto.
  - split; [lia | discriminate].
  - pose proof (agreements_le rest student) as Hle.
    destruct (decide (s = c)) as [->|Hne].
    + rewrite bool_decide_eq_true_2 by reflexivity.
      split; intros H.
      * f_equal. apply IH. lia.
      * injection H as H. apply IH in H. lia.
    + rewrite bool_decide_eq_false_2 by exact Hne.
      split; [lia | intros [= H _]; contradiction].
Qed.

Lemma getProp_snoc {V} (obj : list (string * V)) (key key' : string) (v : V) :
  key' <> key -> getProp (obj ++ [(key, v)]) key' = getProp obj key'.
Proof.
  intros Hne. induction obj as [|[k w] rest IH]; simpl.
  - destruct (String.eqb_spec key key'); [congruence | reflexivity].
  - destruct (String.eqb k key'); [reflexivity | exact IH].
Qed.

Lemma setProp_fresh {V} (obj : list (string * V)) (key : string) (v : V) :
  getProp obj key = None -> setProp obj key v = obj ++ [(key, v)].
Proof.
  induction obj as [|[k w] rest IH]; simpl; [reflexivity|].
  destruct (String.eqb k key); [discriminate|].
  intros H. rewrite (IH H). reflexivity.
Qed.

Lemma forEachSubject_spec (detected : gmap string (list string))
    (answerKey : list (string * list string)) :
  forall results total,
    Covers detected answerKey ->
    NoDup (fst <$> answerKey) ->
    (forall s, s ∈ fst <$> answerKey -> getProp results s = None) ->
    forEachSubject answerKey detected results total
    = Returned (results ++ (scored detected <$> answerKey),
                (total + sum_list (snd <$> (scored detected <$> answerKey)))%nat).
Proof.
  induction answerKey as [|[subject correct] rest IH]; intros results total Hcov Hnd Hfresh.
  - simpl. rewrite app_nil_r, Nat.add_0_r. reflexivity.
  - cbn [forEachSubject].
    destruct (Hcov subject correct) as [answers Hans]; [left|].
    rewrite Hans, forEachAnswer_spec. cbn [bindOutcome]. rewrite drop_0.
    apply NoDup_cons in Hnd as [Hnotin Hnd].
    rewrite setProp_fresh by (apply Hfresh; left).
    rewrite IH; [| |exact Hnd|].
    + cbn [fmap list_fmap sum_list]. unfold scored at 3 5, lettersOf. cbn [fst snd].
      rewrite Hans. cbn [default]. rewrite <- app_assoc. cbn [app].
      f_equal. f_equal. simpl. lia.
    + intros s c Hin. apply (Hcov s c). right. exact Hin.
    + intros s Hs. rewrite getProp_snoc.
      * apply Hfresh. right. exact Hs.
      * intros ->. contradiction.
Qed.

Lemma forEachSubject_missing (detected : gmap string (list string))
    (answerKey : list (string * list string)) :
  forall results total subject correct,
    Forall (fun entry => snd entry <> []) answerKey ->
    (subject, correct) ∈ answerKey ->
    detected !! subject = None ->
    forEachSubject answerKey detected results total = Thrown TypeError.
Proof.
  induction answerKey as [|[s c] rest IH];
    intros results total subject correct Hne Hin Hnone.
  - apply elem_of_nil in Hin as [].
  - apply Forall_cons in Hne as [Hc Hne]. simpl in Hc.
    cbn [forEachSubject].
    destruct (detected !! s) as [answers|] eqn:Hs.
    + rewrite forEachAnswer_spec. cbn [bindOutcome].
      apply elem_of_cons in Hin as [Heq|Hin]; [congruence|].
      eapply IH; eauto.
    + destruct c as [|c0 c']; [contradiction|]. reflexivity.
Qed.

Lemma knownVersion_cases (examVersion : string) :
  knownVersion examVersion ->
  examVersion = "A" \/ examVersion = "B" \/ examVersion = "C" \/ examVersion = "D".
Proof.
  unfold knownVersion, includes. simpl.
  destruct (String.eqb_spec examVersion "A"); [auto|].
  destruct (String.eqb_spec examVersion "B"); [auto|].
  destruct (String.eqb_spec examVersion "C"); [auto|].
  destruct (String.eqb_spec examVersion "D"); [auto|].
  discriminate.
Qed.

Lemma known_key (examVersion : string) :
  knownVersion examVersion ->
  getProp ANSWER_KEYS examVersion = Some (keyOf examVersion)
  /\ NoDup (fst <$> keyOf examVersion)
  /\ Forall (fun entry => length (snd entry) = 20%nat) (keyOf examVersion)
  /\ length (keyOf examVersion) = 5%nat.
Proof.
  intros Hv.
  destruct (knownVersion_cases _ Hv) as [-> | [-> | [-> | ->]]];
    (split; [reflexivity|]; split; [|split; [|reflexivity]];
     [ by_evaluation | repeat constructor ]).
Qed.

Lemma sum_at_most (bound : nat) (l : list nat) :
  Forall (fun n => n <= bound)%nat l -> (sum_list l <= length l * bound)%nat.
Proof.
  induction 1; simpl; lia.
Qed.

Lemma sum_reaches (bound : nat) (l : list nat) :
  Forall (fun n => n <= bound)%nat l ->
  (sum_list l = (length l * bound)%nat <-> Forall (fun n => n = bound) l).
Proof.
  induction 1 as [|n l Hn Hl IH]; simpl.
  - split; [constructor | reflexivity].
  - pose proof (sum_at_most bound l Hl). rewrite Forall_cons, <- IH. lia.
Qed.

Lemma scoreAnswers_known (detected : gmap string (list string)) (examVersion : string) :
  knownVersion examVersion ->
  Covers detected (keyOf examVersion) ->
  scoreAnswers detected examVersion
  = Returned (ScoringResult.mk
                (scored detected <$> keyOf examVersion)
                (sum_list (snd <$> (scored detected <$> keyOf examVersion)))).
Proof.
  intros Hv Hcov. destruct (known_key _ Hv) as (Hkey & Hnd & _ & _).
  unfold scoreAnswers. rewrite Hkey.
  rewrite (forEachSubject_spec detected (keyOf examVersion) [] 0 Hcov Hnd) by reflexivity.
  reflexivity.
Qed.

Lemma scored_bounds (detected : gmap string (list string))
    (answerKey : list (string * list string)) :
  Forall (fun entry => length (snd entry) = 20%nat) answerKey ->
  Forall (fun n => n <= 20)%nat (snd <$> (scored detected <$> answerKey)).
Proof.
  intros H. rewrite <- list_fmap_compose. apply Forall_fmap.
  eapply Forall_impl; [exact H|]. intros [s c] Hlen. simpl in *.
  rewrite <- Hlen. apply agreements_le.
Qed.

(** X17.  For a version the route lets through and a sheet with letters for
    every subject of its key, the scoring returns: the subjects are those of
    the key, in its order, each with the number of questions at which the
    sheet has the letter of the key, which is at most 20; the total is the
    sum of the five and at most 100. *)
Theorem scoreAnswers_counts_agreements
    (detected : gmap string (list string)) (examVersion : string) :
  knownVersion examVersion ->
  Covers detected (keyOf examVersion) ->
  exists r,
    scoreAnswers detected examVersion = Returned r
    /\ ScoringResult.subjects r = scored detected <$> keyOf examVersion
    /\ length (ScoringResult.subjects r) = 5%nat
    /\ Forall (fun entry => snd entry <= 20)%nat (ScoringResult.subjects r)
    /\ ScoringResult.totalScore r = sum_list (snd <$> ScoringResult.subjects r)
    /\ (ScoringResult.totalScore r <= 100)%nat.
Proof.
  intros Hv Hcov. destruct (known_key _ Hv) as (_ & _ & Hlen & Hfive).
  eexists. split; [apply (scoreAnswers_known _ _ Hv Hcov)|]. cbn.
  pose proof (scored_bounds detected _ Hlen) as Hb.
  split; [reflexivity|]. split; [rewrite length_fmap; exact Hfive|].
  split; [|split; [reflexivity|]].
  - apply Forall_fmap in Hb. exact Hb.
  - pose proof (sum_at_most 20 _ Hb) as Hs.
    rewrite !length_fmap, Hfive in Hs. exact Hs.
Qed.

Lemma scoreAnswers_counts_agreements_witness :
  exists r,
    scoreAnswers
      (list_to_map [("Data Analytics", ["B"; "A"; "D"]); ("Machine Learning", []);
                    ("Statistics", ["C"]); ("Python Programming", ["A"; "A"]);
                    ("SQL & Databases", ["B"; "D"; "C"; "A"; ""; "D"])]) "A"
    = Returned r
    /\ ScoringResult.totalScore r = 9%nat.
Proof.
  destruct (scoreAnswers_counts_agreements
              (list_to_map [("Data Analytics", ["B"; "A"; "D"]); ("Machine Learning", []);
                            ("Statistics", ["C"]); ("Python Programming", ["A"; "A"]);
                            ("SQL & Databases", ["B"; "D"; "C"; "A"; ""; "D"])]) "A")
    as (r & Hr & Hsub & _ & _ & Htot & _).
  - reflexivity.
  - intros subject correct Hin. vm_compute in Hin.
    repeat (apply elem_of_cons in Hin as [Hin|Hin];
            [injection Hin as -> _; by_evaluation|]).
    apply elem_of_nil in Hin as [].
  - exists r. split; [exact Hr|]. rewrite Htot, Hsub. vm_compute. reflexivity.
Defined.

Lemma scoreAnswers_uncovered (detected : gmap string (list string))
    (examVersion subject : string) (correct : list string) :
  knownVersion examVersion ->
  (subject, correct) ∈ keyOf examVersion ->
  detected !! subject = None ->
  scoreAnswers detected examVersion = Thrown TypeError.
Proof.
  intros Hv Hin Hnone. destruct (known_key _ Hv) as (Hkey & _ & Hlen & _).
  unfold scoreAnswers. rewrite Hkey.
  rewrite (forEachSubject_missing detected _ [] 0%nat subject correct); auto.
  eapply Forall_impl; [exact Hlen|]. intros [s c] H Hnil. simpl in *.
  rewrite Hnil in H. discriminate H.
Qed.

Lemma scoreAnswers_covers (detected : gmap string (list string))
    (examVersion : string) (r : ScoringResult.t) :
  knownVersion examVersion ->
  scoreAnswers detected examVersion = Returned r ->
  Covers detected (keyOf examVersion).
Proof.
  intros Hv Hr subject correct Hin.
  destruct (detected !! subject) eqn:Hs; [eauto|].
  rewrite (scoreAnswers_uncovered _ _ _ _ Hv Hin Hs) in Hr. discriminate.
Qed.

(** X18.  A sheet scores the full 100 exactly when, for every subject of
    the key, its first 20 letters are those of the key; letters past the
    twentieth are not read. *)
Theorem full_marks_iff_sheet_is_key
    (detected : gmap string (list string)) (examVersion : string)
    (r : ScoringResult.t) :
  knownVersion examVersion ->
  scoreAnswers detected examVersion = Returned r ->
  (ScoringResult.totalScore r = 100%nat
   <-> forall subject correct,
         (subject, correct) ∈ keyOf examVersion ->
         take 20 (lettersOf detected subject) = correct).
Proof.
  intros Hv Hr.
  pose proof (scoreAnswers_covers _ _ _ Hv Hr) as Hcov.
  rewrite (scoreAnswers_known _ _ Hv Hcov) in Hr. injection Hr as <-. cbn.
  destruct (known_key _ Hv) as (_ & _ & Hlen & Hfive).
  pose proof (sum_reaches 20 _ (scored_bounds detected _ Hlen)) as Hsum.
  rewrite !length_fmap, Hfive in Hsum. change (5 * 20)%nat with 100%nat in Hsum.
  rewrite Hsum, <- list_fmap_compose, Forall_fmap, Forall_forall.
  split.
  - intros H subject correct Hin. specialize (H _ Hin). simpl in H.
    eapply Forall_forall in Hlen; [|exact Hin]. simpl in Hlen.
    rewrite <- Hlen. apply agreements_full. rewrite Hlen. exact H.
  - intros H [subject correct] Hin. simpl.
    eapply Forall_forall in Hlen; [|exact Hin]. simpl in Hlen.
    rewrite <- Hlen. apply agreements_full. rewrite Hlen. apply H, Hin.
Qed.

Lemma full_marks_iff_sheet_is_key_witness :
  let sheet : gmap string (list string) :=
    list_to_map (keyOf "C") in
  ScoringResult.totalScore (ScoringResult.mk (scored sheet <$> keyOf "C") 100) = 100%nat
  <-> forall subject correct,
        (subject, correct) ∈ keyOf "C" -> take 20 (lettersOf sheet subject) = correct.
Proof.
  intros sheet.
  apply (full_marks_iff_sheet_is_key sheet "C").
  - reflexivity.
  - vm_compute. reflexivity.
Defined.

(** X19.  A sheet that lacks one of the five subjects is not scored: the
    scoring throws, whatever the other subjects hold. *)
Theorem scoreAnswers_missing_subject_throws
    (detected : gmap string (list string)) (examVersion subject : string)
    (correct : list string) :
  knownVersion examVersion ->
  (subject, correct) ∈ keyOf examVersion ->
  detected !! subject = None ->
  scoreAnswers detected examVersion = Thrown TypeError.
Proof.
  apply scoreAnswers_uncovered.
Qed.

Lemma scoreAnswers_missing_subject_throws_witness :
  scoreAnswers (list_to_map [("Data Analytics", ["B"; "A"]); ("Statistics", ["C"])]) "B"
  = Thrown TypeError.
Proof.
  apply (scoreAnswers_missing_subject_throws _ "B" "Python Programming"
           ["B"; "D"; "C"; "A"; "B"; "D"; "C"; "B"; "A"; "D";
            "C"; "B"; "A"; "D"; "C"; "B"; "A"; "D"; "C"; "B"]).
  - reflexivity.
  - by_evaluation.
  - vm_compute. reflexivity.
Defined.

(** ** The gate of the upload route *)

Lemma validateFile_acceptable (file : File.t) :
  Acceptable file -> FileValidationResult.valid (validateFile file) = true.
Proof.
  intros [Hsz Htype]. unfold validateFile. cbv zeta.
  change (10 * 1024 * 1024)%N with 10485760%N. rewrite Htype.
  destruct (N.ltb_spec 10485760 (File.size file)) as [Hlt|_]; [lia|].
  destruct (File.dimensions file) as [[w h]|]; reflexivity.
Qed.

Lemma server_type_is_form_type (type : string) :
  includes ["image/jpeg"; "image/jpg"; "image/png"] type = true ->
  includes ["image/jpeg"; "image/jpg"; "image/png"; "image/heic"] (toLowerCase type) = true.
Proof.
  unfold includes at 1. simpl.
  destruct (String.eqb_spec type "image/jpeg") as [->|_]; [reflexivity|].
  destruct (String.eqb_spec type "image/jpg") as [->|_]; [reflexivity|].
  destruct (String.eqb_spec type "image/png") as [->|_]; [reflexivity|].
  discriminate.
Qed.

Lemma validateImage_valid (file : File.t) :
  ImageValidation.valid (validateImage file) = true
  <-> (File.size file <= 10485760)%N
      /\ includes ["image/jpeg"; "image/jpg"; "image/png"] (File.type file) = true.
Proof.
  unfold validateImage. cbv zeta. change (10 * 1024 * 1024)%N with 10485760%N.
  cbn [ImageValidation.valid].
  destruct (N.ltb_spec 10485760 (File.size file)) as [Hsz|Hsz];
    destruct (includes _ (File.type file)); simpl;
    split; try discriminate; try (intros [? ?]; try discriminate; lia);
    intros _; split; [lia | reflexivity].
Qed.

Lemma validateImage_type_only (file : File.t) :
  (File.size file <= 10485760)%N ->
  ImageValidation.valid (validateImage file) = false ->
  ImageValidation.errors (validateImage file)
  = ["Invalid file type. Only JPEG and PNG files are allowed"]
  /\ includes ["image/jpeg"; "image/jpg"; "image/png"] (File.type file) = false.
Proof.
  intros Hsz. unfold validateImage. cbv zeta. change (10 * 1024 * 1024)%N with 10485760%N.
  cbn [ImageValidation.valid ImageValidation.errors].
  destruct (N.ltb_spec 10485760 (File.size file)) as [Hlt|_]; [lia|].
  destruct (includes _ (File.type file)); simpl; [discriminate|].
  intros _. split; reflexivity.
Qed.

(** X20.  Every request the form's uploads lead to gets past the check of
    the required fields and never fails on the size of the file: the route
    either goes on with it, for a version among A to D and a JPEG or PNG
    type, or answers 400 for the version, or answers 400 with the one error
    of the file type, as it does for the HEIC files that the form accepts. *)
Theorem form_requests_at_the_gate
    (events : list FormEvent) (call : UploadCall) (file : File.t) :
  In call (snd (formRun events emptyForm)) ->
  In file (callFiles call) ->
  match uploadSheetGate (Some file) (Some (callVersion call)) (Some (callDate call)) with
  | inr request =>
      queuedFile request = file
      /\ knownVersion (callVersion call)
      /\ includes ["image/jpeg"; "image/jpg"; "image/png"] (File.type file) = true
  | inl response =>
      status response = 400%nat
      /\ ((error response = "Invalid exam version" /\ ~ knownVersion (callVersion call))
          \/ (error response = "Image validation failed"
              /\ details response
                 = inr ["Invalid file type. Only JPEG and PNG files are allowed"]
              /\ includes ["image/jpeg"; "image/jpg"; "image/png"] (File.type file) = false))
  end.
Proof.
  intros Hcall Hfile.
  destruct (formRun_calls events emptyForm call) as (_ & Hv & Hd & Hfiles);
    [constructor | exact Hcall |].
  apply list_elem_of_In in Hfile.
  eapply Forall_forall in Hfiles as [[Hsz _] _]; [|exact Hfile].
  unfold uploadSheetGate, falsy, truthy.
  destruct (String.eqb_spec (callVersion call) "") as [He|_]; [contradiction|].
  destruct (String.eqb_spec (callDate call) "") as [He|_]; [contradiction|].
  cbn [negb orb]. unfold knownVersion.
  destruct (includes ["A"; "B"; "C"; "D"] (callVersion call)) eqn:Hknown; cbn [negb].
  - destruct (ImageValidation.valid (validateImage file)) eqn:Hvalid; cbn [negb].
    + apply validateImage_valid in Hvalid as [_ Htype]. auto.
    + destruct (validateImage_type_only file Hsz Hvalid) as [Herr Htype].
      cbn [status error details]. rewrite Herr. auto.
  - cbn. split; [reflexivity|]. left. split; [reflexivity | discriminate].
Qed.

Lemma form_requests_at_the_gate_witness :
  let photo := File.mk "sheet.heic" 3000000 "image/heic" None in
  match uploadSheetGate (Some photo) (Some "B") (Some "2025-03-01") with
  | inr request =>
      queuedFile request = photo
      /\ knownVersion "B"
      /\ includes ["image/jpeg"; "image/jpg"; "image/png"] (File.type photo) = true
  | inl response =>
      status response = 400%nat
      /\ ((error response = "Invalid exam version" /\ ~ knownVersion "B")
          \/ (error response = "Image validation failed"
              /\ details response
                 = inr ["Invalid file type. Only JPEG and PNG files are allowed"]
              /\ includes ["image/jpeg"; "image/jpg"; "image/png"] (File.type photo) = false))
  end.
Proof.
  intros photo.
  apply (form_requests_at_the_gate
           [DateSet "2025-03-01"; FilesDropped [photo]; VersionSet "B"; UploadClicked]
           (mkCall [photo] "B" "2025-03-01") photo).
  - vm_compute. left. reflexivity.
  - left. reflexivity.
Defined.

(** X21.  The route is at least as strict as the form: a request it goes on
    with carries a file that the form marks valid, whatever the image
    decodes to, a version among A to D, and a date that is not empty; the
    file, version and date queued are those of the request. *)
Theorem gate_stricter_than_form
    (file : option File.t) (examVersion examDate : option string)
    (request : QueuedUpload) :
  uploadSheetGate file examVersion examDate = inr request ->
  file = Some (queuedFile request)
  /\ examVersion = Some (queuedVersion request)
  /\ examDate = Some (queuedDate request)
  /\ knownVersion (queuedVersion request)
  /\ queuedDate request <> ""
  /\ FileValidationResult.valid (validateFile (queuedFile request)) = true
  /\ validationWarnings request
     = ImageValidation.warnings (validateImage (queuedFile request)).
Proof.
  unfold uploadSheetGate.
  destruct file as [f|]; [|discriminate].
  destruct examVersion as [v|]; [|discriminate].
  destruct examDate as [d|]; [|discriminate].
  destruct (falsy (Some v) || falsy (Some d)) eqn:Hfalsy; [discriminate|].
  apply orb_false_elim in Hfalsy as [_ Hd]. simpl in Hd.
  apply negb_false_iff, truthy_nonempty in Hd.
  destruct (includes ["A"; "B"; "C"; "D"] v) eqn:Hv; cbn [negb]; [|discriminate].
  destruct (ImageValidation.valid (validateImage f)) eqn:Hvalid; cbn [negb]; [|discriminate].
  intros [= <-]. cbn.
  apply validateImage_valid in Hvalid as [Hsz Htype].
  repeat split; auto.
  apply validateFile_acceptable. split; [exact Hsz|].
  apply server_type_is_form_type, Htype.
Qed.

Lemma gate_stricter_than_form_witness :
  let photo := File.mk "sheet.png" 40000 "image/png" (Some (640, 480)%N) in
  FileValidationResult.valid (validateFile photo) = true
  /\ validationWarnings
       (mkQueued photo "D" "2025-03-01"
          ["Image file size is quite small, may affect processing quality"])
     = ImageValidation.warnings (validateImage photo).
Proof.
  intros photo.
  destruct (gate_stricter_than_form (Some photo) (Some "D") (Some "2025-03-01")
              (mkQueued photo "D" "2025-03-01"
                 ["Image file size is quite small, may affect processing quality"]))
    as (_ & _ & _ & _ & _ & Hvalid & Hwarn).
  - vm_compute. reflexivity.
  - split; [exact Hvalid | exact Hwarn].
Defined.

(** ** Grades and score ranges *)

Lemma filter_length_ext {A} (p q : A -> bool) (l : list A) :
  (forall a, p a = q a) -> length (List.filter p l) = length (List.filter q l).
Proof.
  intros H. induction l as [|a l IH]; simpl; [reflexivity|].
  rewrite <- H. destruct (p a); simpl; rewrite IH; reflexivity.
Qed.

Lemma grade_cases (s : nat) :
  (90 <= s /\ grade s = "A")%nat
  \/ (80 <= s < 90 /\ grade s = "B")%nat
  \/ (70 <= s < 80 /\ grade s = "C")%nat
  \/ (60 <= s < 70 /\ grade s = "D")%nat
  \/ (s < 60 /\ grade s = "F")%nat.
Proof.
  unfold grade.
  destruct (Nat.leb_spec 90 s); [auto|].
  destruct (Nat.leb_spec 80 s); [right; left; split; [lia | reflexivity]|].
  destruct (Nat.leb_spec 70 s); [right; right; left; split; [lia | reflexivity]|].
  destruct (Nat.leb_spec 60 s); [right; right; right; left; split; [lia | reflexivity]|].
  right; right; right; right. split; [lia | reflexivity].
Qed.

(** X22.  The five score ranges of the analytics split the results: every
    result is counted in exactly one range, so the counts add up to the
    number of results; each range counts the results of one grade of the
    export, A to F in turn; and the pass rate counts the results graded
    other than F. *)
Theorem score_ranges_split_by_grade (results : list nat) :
  let ranges := scoreRanges results in
  (excellent ranges + good ranges + average ranges + belowAverage ranges
   + poor ranges)%nat = length results
  /\ excellent ranges = graded "A" results
  /\ good ranges = graded "B" results
  /\ average ranges = graded "C" results
  /\ belowAverage ranges = graded "D" results
  /\ poor ranges = graded "F" results
  /\ (passed results + poor ranges)%nat = length results.
Proof.
  cbv zeta. unfold scoreRanges, graded, passed.
  cbn [excellent good average belowAverage poor].
  assert (Hrange : forall s : nat,
    (90 <=? s)%nat = String.eqb (grade s) "A"
    /\ ((80 <=? s)%nat && (s <? 90)%nat) = String.eqb (grade s) "B"
    /\ ((70 <=? s)%nat && (s <? 80)%nat) = String.eqb (grade s) "C"
    /\ ((60 <=? s)%nat && (s <? 70)%nat) = String.eqb (grade s) "D"
    /\ (s <? 60)%nat = String.eqb (grade s) "F").
  { intros s.
    destruct (grade_cases s) as [[H ->]|[[H ->]|[[H ->]|[[H ->]|[H ->]]]]];
      cbn [String.eqb Ascii.eqb Bool.eqb andb];
      repeat split;
      repeat match goal with
             | |- context [(?a <=? ?b)%nat] => destruct (Nat.leb_spec a b); try lia
             | |- context [(?a <? ?b)%nat] => destruct (Nat.ltb_spec a b); try lia
             end; reflexivity. }
  split; [|split; [|split; [|split; [|split; [|split]]]]].
  - induction results as [|s results IH]; [reflexivity|]. cbn [List.filter].
    destruct (Nat.leb_spec 90 s), (Nat.leb_spec 80 s), (Nat.leb_spec 70 s),
      (Nat.leb_spec 60 s), (Nat.ltb_spec s 90), (Nat.ltb_spec s 80),
      (Nat.ltb_spec s 70), (Nat.ltb_spec s 60); try lia; cbn [andb length]; lia.
  - apply filter_length_ext. intros s. apply Hrange.
  - apply filter_length_ext. intros s. apply Hrange.
  - apply filter_length_ext. intros s. apply Hrange.
  - apply filter_length_ext. intros s. apply Hrange.
  - apply filter_length_ext. intros s. apply Hrange.
  - induction results as [|s results IH]; [reflexivity|]. cbn [List.filter].
    destruct (Nat.leb_spec 60 s), (Nat.ltb_spec s 60); try lia; cbn [length]; lia.
Qed.
